(** * ShimiBot: tool boundary, path confinement, egress policy and turn runner

    A shallow embedding of the Go packages [internal/tools], [internal/agent]
    and [internal/session] of ShimiBot, together with the properties the
    design document states about them.

    Conventions.
    - A Go [string] is a byte string: Rocq's [string] (a list of [ascii]).
    - A Go [int] is modelled as [Z].  Every [int] of the embedded code is a
      byte index, a slice length, or a counter bounded by the number of loop
      iterations performed, so none of them can reach 2^63 and no
      wrap-around is observable.
    - A Go [error] result is a sum/option: [None] is the [nil] error.
    - Functions of the Go standard library ([strings], [path/filepath],
      [encoding/json], [regexp], [net], [os]) are modelled by executable
      definitions placed in the module [Go]; each one says which library
      function it stands for.  *)

From Stdlib Require Import ZArith Lia List Bool Ascii String.
From stdpp Require Import base option list gmap strings pretty.
Import ListNotations.

Set Warnings "-register-all".
Local Open Scope Z_scope.

(* ===================================================================== *)
(** * Go standard library: strings                                         *)
(* ===================================================================== *)

Module Go.

Definition bytes_of (s : string) : list ascii := list_ascii_of_string s.
Definition str (l : list ascii) : string := string_of_list_ascii l.

Definition byte (c : ascii) : N := N_of_ascii c.

(** [len(s)] *)
Definition len (s : string) : Z := Z.of_nat (String.length s).

(** The six ASCII white-space bytes of [strings.asciiSpace]. *)
Definition ascii_space (c : ascii) : bool :=
  match c with
  | "009" | "010" | "011" | "012" | "013" | " " => true
  | _ => false
  end%char.

(** Width in bytes of the UTF-8 encoding of a white-space rune
    ([unicode.IsSpace]) at the head of [l]; [0] when [l] does not start
    with one.  The runes are U+0009..U+000D, U+0020, U+0085, U+00A0,
    U+1680, U+2000..U+200A, U+2028, U+2029, U+202F, U+205F, U+3000. *)
Definition space_width (l : list ascii) : nat :=
  match l with
  | [] => 0%nat
  | c :: r =>
      if ascii_space c then 1%nat
      else match byte c, map byte r with
           | 0xC2, d :: _ => if (d =? 0x85) || (d =? 0xA0) then 2%nat else 0%nat
           | 0xE1, 0x9A :: 0x80 :: _ => 3%nat
           | 0xE2, 0x80 :: d :: _ =>
               if ((0x80 <=? d) && (d <=? 0x8A)) || (d =? 0xA8) || (d =? 0xA9)
                  || (d =? 0xAF) then 3%nat else 0%nat
           | 0xE2, 0x81 :: 0x9F :: _ => 3%nat
           | 0xE3, 0x80 :: 0x80 :: _ => 3%nat
           | _, _ => 0%nat
           end%N
  end.

(** Last bytes of the multi-byte encodings above. *)
Definition space_last_byte (d : N) : bool :=
  (((0x80 <=? d) && (d <=? 0x8A)) || (d =? 0x85) || (d =? 0x9F) || (d =? 0xA0)
   || (d =? 0xA8) || (d =? 0xA9) || (d =? 0xAF))%N.

(** The same test on a reversed byte string: width of a white-space rune at
    the end of the original string ([utf8.DecodeLastRuneInString]). *)
Definition space_width_rev (l : list ascii) : nat :=
  match l with
  | [] => 0%nat
  | c :: r =>
      if ascii_space c then 1%nat
      else if negb (space_last_byte (byte c)) then 0%nat
      else match byte c, map byte r with
           | d, 0xC2 :: _ => if (d =? 0x85) || (d =? 0xA0) then 2%nat else 0%nat
           | 0x9F, 0x81 :: 0xE2 :: _ => 3%nat
           | 0x80, 0x9A :: 0xE1 :: _ => 3%nat
           | 0x80, 0x80 :: 0xE3 :: _ => 3%nat
           | d, 0x80 :: 0xE2 :: _ =>
               if ((0x80 <=? d) && (d <=? 0x8A)) || (d =? 0xA8) || (d =? 0xA9)
                  || (d =? 0xAF) then 3%nat else 0%nat
           | _, _ => 0%nat
           end%N
  end.

(** Strip white-space runes from the front, one rune at a time. *)
Fixpoint strip (width : list ascii -> nat) (fuel : nat) (l : list ascii)
  : list ascii :=
  match fuel with
  | O => l
  | S fuel' =>
      match width l with
      | O => l
      | w => strip width fuel' (drop w l)
      end
  end.

Definition trim_left (l : list ascii) : list ascii :=
  strip space_width (List.length l) l.
Definition trim_right (l : list ascii) : list ascii :=
  rev (strip space_width_rev (List.length l) (rev l)).

(** [strings.TrimSpace] *)
Definition TrimSpace (s : string) : string :=
  str (trim_right (trim_left (bytes_of s))).

(** [strings.HasPrefix], [strings.HasSuffix] *)
Fixpoint prefixb (p l : list ascii) : bool :=
  match p, l with
  | [], _ => true
  | a :: p', b :: l' => if Ascii.eqb a b then prefixb p' l' else false
  | _ :: _, [] => false
  end.

Definition HasPrefix (s p : string) : bool := prefixb (bytes_of p) (bytes_of s).
Definition HasSuffix (s p : string) : bool :=
  prefixb (rev (bytes_of p)) (rev (bytes_of s)).

(** [strings.ToLower], on the ASCII letters.  The program only compares the
    result with the constants [http], [https], [localhost] and [.localhost];
    the only runes outside ASCII whose lower case is an ASCII letter are
    U+212A (k) and U+0130 (i), and no constant contains these letters, so
    the comparisons agree with the library function on every byte string. *)
Definition lower_byte (c : ascii) : ascii :=
  let n := byte c in
  if ((0x41 <=? n) && (n <=? 0x5A))%N then ascii_of_N (n + 0x20) else c.
Definition ToLower (s : string) : string := str (map lower_byte (bytes_of s)).

(** [s[lo:hi]] *)
Definition slice (l : list ascii) (lo hi : Z) : list ascii :=
  take (Z.to_nat (hi - lo)) (drop (Z.to_nat lo) l).

(** [strings.EqualFold s "true"]: simple case folding relates the letters
    t, r, u, e only to their ASCII upper-case forms. *)
Definition EqualFold_true (s : string) : bool :=
  String.eqb (ToLower s) "true".

(* ------------------------------------------------------------------- *)
(** ** [encoding/json]: [json.Valid]                                     *)
(* ------------------------------------------------------------------- *)

(** The scanner of [encoding/json] accepts exactly one RFC 8259 value,
    surrounded by optional white space (space, tab, CR, LF), nested at most
    [maxNestingDepth = 10000] deep.  Inside a string literal every byte
    from 0x20 up is accepted except the quote and the backslash, which
    starts one of the escapes listed in [scan_string]. *)

Definition json_space (c : ascii) : bool :=
  match c with
  | " " | "009" | "013" | "010" => true
  | _ => false
  end%char.

Fixpoint skip_ws (l : list ascii) : list ascii :=
  match l with
  | c :: r => if json_space c then skip_ws r else l
  | [] => []
  end.

Definition is_digit (c : ascii) : bool :=
  ((0x30 <=? byte c) && (byte c <=? 0x39))%N.
Definition is_hex (c : ascii) : bool :=
  is_digit c
  || ((0x41 <=? byte c) && (byte c <=? 0x46))%N
  || ((0x61 <=? byte c) && (byte c <=? 0x66))%N.

(** After the opening quote: the rest of the input after the closing quote. *)
Fixpoint scan_string (l : list ascii) : option (list ascii) :=
  match l with
  | [] => None
  | c :: r =>
      if Ascii.eqb c "034" then Some r
      else if Ascii.eqb c "\" then
        match r with
        | "u"%char :: h1 :: h2 :: h3 :: h4 :: r' =>
            if is_hex h1 && is_hex h2 && is_hex h3 && is_hex h4
            then scan_string r' else None
        | e :: r' =>
            match e with
            | "034" | "\" | "/" | "b" | "f" | "n" | "r" | "t" => scan_string r'
            | _ => None
            end%char
        | [] => None
        end
      else if (byte c <? 0x20)%N then None
      else scan_string r
  end.

Fixpoint skip_digits (l : list ascii) : list ascii :=
  match l with
  | c :: r => if is_digit c then skip_digits r else l
  | [] => []
  end.

(** One or more digits. *)
Definition scan_digits1 (l : list ascii) : option (list ascii) :=
  match l with
  | c :: r => if is_digit c then Some (skip_digits r) else None
  | [] => None
  end.

Definition scan_exponent (l : list ascii) : option (list ascii) :=
  match l with
  | ("e" | "E")%char :: r =>
      match r with
      | ("+" | "-")%char :: r' => scan_digits1 r'
      | _ => scan_digits1 r
      end
  | _ => Some l
  end.

Definition scan_fraction (l : list ascii) : option (list ascii) :=
  match l with
  | "."%char :: r => scan_digits1 r ≫= scan_exponent
  | _ => scan_exponent l
  end.

(** After an optional minus sign. *)
Definition scan_number (l : list ascii) : option (list ascii) :=
  match l with
  | "0"%char :: r => scan_fraction r
  | c :: r => if is_digit c then scan_fraction (skip_digits r) else None
  | [] => None
  end.

Definition maxNestingDepth : N := 10000.

(** [scan_value fuel depth l]: one value at the head of [l] (white space
    already skipped); every recursive call consumes at least one byte, so
    [fuel = length l + 1] is enough. *)
Fixpoint scan_value (fuel : nat) (depth : N) (l : list ascii) : option (list ascii) :=
  match fuel with
  | O => None
  | S fuel' =>
      match l with
      | "{"%char :: r =>
          if (maxNestingDepth <? depth + 1)%N then None
          else match skip_ws r with
               | "}"%char :: r' => Some r'
               | r' => scan_members fuel' (depth + 1)%N r'
               end
      | "["%char :: r =>
          if (maxNestingDepth <? depth + 1)%N then None
          else match skip_ws r with
               | "]"%char :: r' => Some r'
               | r' => scan_elements fuel' (depth + 1)%N r'
               end
      | "034"%char :: r => scan_string r
      | "-"%char :: r => scan_number r
      | "t"%char :: "r"%char :: "u"%char :: "e"%char :: r => Some r
      | "f"%char :: "a"%char :: "l"%char :: "s"%char :: "e"%char :: r => Some r
      | "n"%char :: "u"%char :: "l"%char :: "l"%char :: r => Some r
      | _ => scan_number l
      end
  end
(** [key : value] pairs up to the closing brace; [l] starts at a key. *)
with scan_members (fuel : nat) (depth : N) (l : list ascii) : option (list ascii) :=
  match fuel with
  | O => None
  | S fuel' =>
      match l with
      | "034"%char :: r =>
          match skip_ws <$> scan_string r with
          | Some (":"%char :: r') =>
              match skip_ws <$> scan_value fuel' depth (skip_ws r') with
              | Some (","%char :: r'') => scan_members fuel' depth (skip_ws r'')
              | Some ("}"%char :: r'') => Some r''
              | _ => None
              end
          | _ => None
          end
      | _ => None
      end
  end
(** Values up to the closing bracket; [l] starts at a value. *)
with scan_elements (fuel : nat) (depth : N) (l : list ascii) : option (list ascii) :=
  match fuel with
  | O => None
  | S fuel' =>
      match skip_ws <$> scan_value fuel' depth l with
      | Some (","%char :: r) => scan_elements fuel' depth (skip_ws r)
      | Some ("]"%char :: r) => Some r
      | _ => None
      end
  end.

(** [json.Valid([]byte(s))] *)
Definition json_Valid (s : string) : bool :=
  let l := skip_ws (bytes_of s) in
  match skip_ws <$> scan_value (S (List.length l)) 0%N l with
  | Some [] => true
  | _ => false
  end.

(* ------------------------------------------------------------------- *)
(** ** [path/filepath] on Unix: lexical functions                        *)
(* ------------------------------------------------------------------- *)

Definition sep : ascii := "/".

(** [strings.Split(s, "/")] on bytes: the segments between separators,
    empty segments kept. *)
Fixpoint split_sep (l : list ascii) : list (list ascii) :=
  match l with
  | [] => [[]]
  | c :: r =>
      if Ascii.eqb c sep then [] :: split_sep r
      else match split_sep r with
           | s :: ss => (c :: s) :: ss
           | [] => [[c]]
           end
  end.

(** [strings.Join(ss, "/")] *)
Fixpoint join_sep (ss : list (list ascii)) : list ascii :=
  match ss with
  | [] => []
  | [s] => s
  | s :: ss' => s ++ sep :: join_sep ss'
  end.

Definition segments (p : string) : list string := str <$> split_sep (bytes_of p).
Definition join_segments (ss : list string) : string :=
  str (join_sep (bytes_of <$> ss)).

(** [filepath.IsAbs] *)
Definition IsAbs (p : string) : bool := HasPrefix p "/".

(** One step of the element stack of [filepath.Clean]: the stack is kept in
    reverse.  An empty element or [.] is dropped; [..] removes the element
    before it, is dropped at the root, and is kept at the start of a
    relative path. *)
Definition clean_step (rooted : bool) (stack : list string) (e : string)
  : list string :=
  if decide (e = "") then stack
  else if decide (e = ".") then stack
  else if decide (e = "..") then
    match stack with
    | top :: below => if decide (top = "..") then e :: stack else below
    | [] => if rooted then [] else [e]
    end
  else e :: stack.

Definition clean_segments (rooted : bool) (ss : list string) : list string :=
  rev (fold_left (clean_step rooted) ss []).

Definition render (rooted : bool) (ss : list string) : string :=
  if rooted then String sep (join_segments ss)
  else match ss with [] => "." | _ => join_segments ss end.

(** [filepath.Clean] *)
Definition Clean (p : string) : string :=
  render (IsAbs p) (clean_segments (IsAbs p) (segments p)).

(** [filepath.Join] of two elements. *)
Definition Join (a b : string) : string :=
  if decide (a = "") then (if decide (b = "") then "" else Clean b)
  else Clean (a +:+ "/" +:+ b).

(** [filepath.Dir]: the path up to and including its last separator,
    cleaned. *)
Definition Dir (p : string) : string :=
  match rev (segments p) with
  | _ :: (_ :: _) as before => Clean (join_segments (rev before) +:+ "/")
  | _ => Clean ""
  end.

(** [filepath.Rel] on Unix.  [None] is the error
    [Rel: can't make targ relative to base]. *)
Fixpoint strip_common (bs ts : list string) : list string * list string :=
  match bs, ts with
  | b :: bs', t :: ts' => if decide (b = t) then strip_common bs' ts' else (bs, ts)
  | _, _ => (bs, ts)
  end.

Definition clean_elements (p : string) : list string :=
  let c := Clean p in
  if decide (c = ".") then []
  else filter (λ e, e ≠ "") (segments c).

Definition Rel (basepath targpath : string) : option string :=
  let base := Clean basepath in
  let targ := Clean targpath in
  if decide (targ = base) then Some "."
  else if negb (Bool.eqb (IsAbs base) (IsAbs targ)) then None
  else
    let '(bs, ts) := strip_common (clean_elements base) (clean_elements targ) in
    match bs with
    | b :: _ =>
        if decide (b = "..") then None
        else Some (join_segments (((λ _, "..") <$> bs) ++ ts))
    | [] => Some (join_segments ts)
    end.

(* ------------------------------------------------------------------- *)
(** ** Errors                                                            *)
(* ------------------------------------------------------------------- *)

Inductive errno := ENOENT | ENOTDIR | ELOOP | EISDIR | EINVAL.

(** A Go [error] value.  [ErrWrap msg cause] is the value of
    [fmt.Errorf] with a [%w] verb: [msg] is the formatted text and [cause]
    the wrapped error.  [ErrPath] is [*fs.PathError]. *)
Inductive error :=
  | ErrNew (msg : string)
  | ErrWrap (msg : string) (cause : error)
  | ErrErrno (e : errno)
  | ErrPath (op path : string) (e : errno).

#[global] Instance errno_eq_dec : EqDecision errno.
Proof. solve_decision. Defined.
#[global] Instance error_eq_dec : EqDecision error.
Proof. solve_decision. Defined.

Definition errno_text (e : errno) : string :=
  match e with
  | ENOENT => "no such file or directory"
  | ENOTDIR => "not a directory"
  | ELOOP => "too many levels of symbolic links"
  | EISDIR => "is a directory"
  | EINVAL => "invalid argument"
  end.

(** [err.Error()] *)
Definition Error (e : error) : string :=
  match e with
  | ErrNew msg => msg
  | ErrWrap msg _ => msg
  | ErrErrno e => errno_text e
  | ErrPath op path e => op +:+ " " +:+ path +:+ ": " +:+ errno_text e
  end.

(** [errors.Is(err, os.ErrNotExist)] *)
Fixpoint IsNotExist (e : error) : bool :=
  match e with
  | ErrNew _ => false
  | ErrWrap _ cause => IsNotExist cause
  | ErrErrno e | ErrPath _ _ e => match e with ENOENT => true | _ => false end
  end.


(** The verb [%q] of [fmt] on a string: the text between double quotes.
    (The library also escapes quotes, backslashes and bytes that do not
    print; the texts are error messages, which no property reads.) *)
Definition quoted (s : string) : string :=
  String "034" (s +:+ String "034" "").

(** [fmt.Errorf(prefix + ": %w", err)] *)
Definition wrap (prefix : string) (cause : error) : error :=
  ErrWrap (prefix +:+ ": " +:+ Error cause) cause.

End Go.

(* ===================================================================== *)
(** * The operating system: files, directories and symbolic links         *)
(* ===================================================================== *)

Module Os.
Import Go.

Inductive node :=
  | Directory
  | Regular (content : string)
  | Symlink (target : string).

(** The file calls a program makes, in order (a record kept beside the
    file system, so that "no file was touched" can be stated). *)
Inductive access :=
  | AccReadFile (path : string)
  | AccWriteFile (path : string) (data : string)
  | AccMkdirAll (path : string).

(** The file tree maps the real path of a node (the names from the root
    down, no symbolic link among them) to the node; the root is a
    directory.  [cwd] is the real path of the working directory of the
    process.  [write_fault] is the device under the files: asked with the
    file calls made so far, the last of them a write to a file that was
    opened, it tells whether writing or closing the file fails (a full
    disk, an I/O error), and then how many bytes were written before the
    failure and the error. *)
Record state := State {
  files : gmap (list string) node;
  cwd : list string;
  accesses : list access;
  write_fault : list access -> option (nat * error);
}.

Definition node_at (fs : gmap (list string) node) (p : list string)
  : option node :=
  if decide (p = []) then Some Directory else fs !! p.

Definition parent (p : list string) : list string :=
  take (List.length p - 1) p.

Inductive walk_result :=
  | At (p : list string)                      (* the node exists *)
  | Fresh (dir : list string) (name : string) (* only the last name is missing *)
  | Fail (e : errno)
  | Follow (cur : list string) (todo : list string).

(** Path resolution of the kernel up to the next symbolic link to follow.
    [cur] is the real path of the directory reached, [todo] the segments
    left (empty segments stand for repeated or trailing separators). *)
Fixpoint walk_seg (fs : gmap (list string) node) (follow_last : bool)
    (cur : list string) (todo : list string) : walk_result :=
  match todo with
  | [] => At cur
  | e :: rest =>
      if decide (e = "") then walk_seg fs follow_last cur rest
      else if decide (e = ".") then walk_seg fs follow_last cur rest
      else if decide (e = "..") then walk_seg fs follow_last (parent cur) rest
      else
        match node_at fs (cur ++ [e]) with
        | None => match rest with [] => Fresh cur e | _ => Fail ENOENT end
        | Some Directory => walk_seg fs follow_last (cur ++ [e]) rest
        | Some (Regular _) =>
            match rest with [] => At (cur ++ [e]) | _ => Fail ENOTDIR end
        | Some (Symlink target) =>
            match rest, follow_last with
            | [], false => At (cur ++ [e])
            | _, _ =>
                if decide (target = "") then Fail ENOENT
                else Follow (if IsAbs target then [] else cur)
                            (segments target ++ rest)
            end
        end
  end.

(** At most [links] symbolic links are followed (40 in Linux). *)
Fixpoint walk (links : nat) (fs : gmap (list string) node) (follow_last : bool)
    (cur : list string) (todo : list string) : walk_result :=
  match walk_seg fs follow_last cur todo with
  | Follow cur' todo' =>
      match links with
      | O => Fail ELOOP
      | S links' => walk links' fs follow_last cur' todo'
      end
  | r => r
  end.

Definition MAXSYMLINKS : nat := 40.

Definition resolve (os : state) (follow_last : bool) (p : string) : walk_result :=
  if decide (p = "") then Fail ENOENT
  else walk MAXSYMLINKS (files os) follow_last
            (if IsAbs p then [] else cwd os) (segments p).

Definition failure (r : walk_result) : errno :=
  match r with
  | Fail e => e
  | Follow _ _ => ELOOP
  | _ => ENOENT
  end.

(** [os.Lstat]: the node a path names, a final symbolic link not followed. *)
Definition Lstat (os : state) (p : string) : error + node :=
  match resolve os false p with
  | At q => match node_at (files os) q with
            | Some n => inr n
            | None => inl (ErrPath "lstat" p ENOENT)
            end
  | r => inl (ErrPath "lstat" p (failure r))
  end.

(** [os.Getwd] *)
Definition Getwd (os : state) : string := render true (cwd os).

(** [filepath.Abs] *)
Definition Abs (os : state) (p : string) : string :=
  if IsAbs p then Clean p else Join (Getwd os) p.

(** The text of [dest] inside [walkSymlinks]: the elements joined, with no
    cleaning. *)
Definition raw_path (rooted : bool) (dest : list string) : string :=
  if rooted then String sep (join_segments dest) else join_segments dest.

Inductive symlink_walk :=
  | WsDone (rooted : bool) (dest : list string)
  | WsErr (e : error)
  | WsLink (rooted : bool) (dest : list string) (segs : list string).

(** The loop of [walkSymlinks] in [path/filepath] up to the next link.
    [dest] is the path built so far, [segs] what is left of the path. *)
Fixpoint walkSymlinks_seg (os : state) (rooted : bool) (dest : list string)
    (segs : list string) : symlink_walk :=
  match segs with
  | [] => WsDone rooted dest
  | e :: rest =>
      if decide (e = "") then walkSymlinks_seg os rooted dest rest
      else if decide (e = ".") then walkSymlinks_seg os rooted dest rest
      else if decide (e = "..") then
        (* back up to the previous element when there is one to drop *)
        if bool_decide (List.length dest ≤ 1)%nat
           || bool_decide (last dest = Some "..")
        then walkSymlinks_seg os rooted (dest ++ [e]) rest
        else walkSymlinks_seg os rooted (parent dest) rest
      else
        let dest' := dest ++ [e] in
        match Lstat os (raw_path rooted dest') with
        | inl err => WsErr err
        | inr (Symlink link) =>
            if IsAbs link then WsLink true [] (segments link ++ rest)
            else WsLink rooted dest (segments link ++ rest)
        | inr Directory => walkSymlinks_seg os rooted dest' rest
        | inr (Regular _) =>
            match rest with
            | [] => walkSymlinks_seg os rooted dest' rest
            | _ => WsErr (ErrErrno ENOTDIR)
            end
        end
  end.

Fixpoint walkSymlinks (links : nat) (os : state) (rooted : bool)
    (dest : list string) (segs : list string) : error + string :=
  match walkSymlinks_seg os rooted dest segs with
  | WsDone rooted' dest' => inr (Clean (raw_path rooted' dest'))
  | WsErr e => inl e
  | WsLink rooted' dest' segs' =>
      match links with
      | O => inl (ErrNew "EvalSymlinks: too many links")
      | S links' => walkSymlinks links' os rooted' dest' segs'
      end
  end.

(** [filepath.EvalSymlinks]: at most 255 links are walked. *)
Definition EvalSymlinks (os : state) (p : string) : error + string :=
  walkSymlinks 255 os (IsAbs p) [] (segments p).

Definition record (a : access) (os : state) : state :=
  State (files os) (cwd os) (accesses os ++ [a]) (write_fault os).

Definition with_files (fs : gmap (list string) node) (os : state) : state :=
  State fs (cwd os) (accesses os) (write_fault os).

(** [os.ReadFile] *)
Definition ReadFile (os : state) (p : string) : (error + string) * state :=
  let os' := record (AccReadFile p) os in
  match resolve os true p with
  | At q =>
      match node_at (files os) q with
      | Some (Regular content) => (inr content, os')
      | Some Directory => (inl (ErrPath "read" p EISDIR), os')
      | _ => (inl (ErrPath "open" p ENOENT), os')
      end
  | r => (inl (ErrPath "open" p (failure r)), os')
  end.

(** What [os.WriteFile] does once the file [q] is open, created or
    emptied: the data are written and the file is closed.  When the device
    fails, the file is left with the bytes written before the failure. *)
Definition write_opened (os : state) (q : list string) (data : string)
  : option error * state :=
  match write_fault os (accesses os) with
  | None => (None, with_files (<[q := Regular data]> (files os)) os)
  | Some (n, err) =>
      (Some err,
       with_files (<[q := Regular (str (take n (bytes_of data)))]> (files os)) os)
  end.

(** [os.WriteFile]: the file is opened with [O_WRONLY|O_CREATE|O_TRUNC], a
    final symbolic link followed, then written and closed. *)
Definition WriteFile (os : state) (p : string) (data : string)
  : option error * state :=
  let os' := record (AccWriteFile p data) os in
  match resolve os true p with
  | At q =>
      match node_at (files os) q with
      | Some (Regular _) => write_opened os' q data
      | Some Directory => (Some (ErrPath "open" p EISDIR), os')
      | _ => (Some (ErrPath "open" p ENOENT), os')
      end
  | Fresh dir name => write_opened os' (dir ++ [name]) data
  | r => (Some (ErrPath "open" p (failure r)), os')
  end.

(** [os.MkdirAll]: every missing directory along the path is created. *)
Fixpoint mkdir_all (fs : gmap (list string) node) (cur : list string)
    (segs : list string) : errno + gmap (list string) node :=
  match segs with
  | [] => inr fs
  | e :: rest =>
      match walk MAXSYMLINKS fs true cur [e] with
      | At q =>
          match node_at fs q with
          | Some Directory => mkdir_all fs q rest
          | _ => inl ENOTDIR
          end
      | Fresh dir name =>
          mkdir_all (<[dir ++ [name] := Directory]> fs) (dir ++ [name]) rest
      | r => inl (failure r)
      end
  end.

Definition MkdirAll (os : state) (p : string) : option error * state :=
  let os' := record (AccMkdirAll p) os in
  if decide (p = "") then (Some (ErrPath "mkdir" p ENOENT), os')
  else
    match mkdir_all (files os) (if IsAbs p then [] else cwd os) (segments p) with
    | inr fs => (None, with_files fs os')
    | inl e => (Some (ErrPath "mkdir" p e), os')
    end.

End Os.

(* ===================================================================== *)
(** * Argument normalizer ([internal/tools], json arguments)               *)
(* ===================================================================== *)

Module Normalizer.
Import Go.

(** The loop of [extractBalancedJSON].  [rest] is the part of [input] from
    byte [index] on.  The Go loop ranges over runes; every rune it compares
    with (quote, backslash, [open], [close]) is ASCII, and no byte of a
    multi-byte or invalid UTF-8 sequence is below 0x80, so ranging over
    bytes visits the same comparisons at the same byte indexes. *)
Fixpoint extract_loop (open close : ascii) (input rest : list ascii)
    (index start depth : Z) (inString escaped : bool) : string * bool :=
  match rest with
  | [] => ("", false)
  | r :: rest' =>
      let continue := extract_loop open close input rest' (index + 1) in
      if inString then
        if escaped then continue start depth inString false
        else if Ascii.eqb r "\" then continue start depth inString true
        else if Ascii.eqb r "034" then continue start depth false escaped
        else continue start depth inString escaped
      else if Ascii.eqb r "034" then continue start depth true escaped
      else if Ascii.eqb r open then
        continue (if start =? -1 then index else start) (depth + 1)
                 inString escaped
      else if Ascii.eqb r close then
        if depth =? 0 then continue start depth inString escaped
        else
          let depth := depth - 1 in
          if (depth =? 0) && (0 <=? start)
          then (TrimSpace (str (slice input start (index + 1))), true)
          else continue start depth inString escaped
      else continue start depth inString escaped
  end.

Definition extractBalancedJSON (input : string) (open close : ascii)
  : string * bool :=
  extract_loop open close (bytes_of input) (bytes_of input) 0 (-1) 0 false false.

Definition NormalizeJSONArguments (raw : string) : string * bool :=
  let trimmed := TrimSpace raw in
  if String.eqb trimmed "" then ("{}", true)
  else if json_Valid trimmed then (trimmed, true)
  else
    let '(extracted, ok) := extractBalancedJSON trimmed "{" "}" in
    if ok && json_Valid extracted then (extracted, true)
    else
      let '(extracted, ok) := extractBalancedJSON trimmed "[" "]" in
      if ok && json_Valid extracted then (extracted, true)
      else ("", false).

(** ** The normalizer as the design document words it

    A second definition, written from the document: white-space-only input
    is the empty object; valid JSON is returned as it is; otherwise the
    first balanced span of braces, then of brackets, is returned when it is
    valid JSON.  A span is found on the bytes that lie outside every
    double-quoted literal. *)

(** For each byte, [true] when it lies outside every string literal (the
    quotes belong to the literal; a backslash inside a literal protects the
    byte after it). *)
Fixpoint outside_literals (inString escaped : bool) (l : list ascii)
  : list bool :=
  match l with
  | [] => []
  | r :: l' =>
      if inString then
        false ::
          (if escaped then outside_literals true false l'
           else if Ascii.eqb r "\" then outside_literals true true l'
           else if Ascii.eqb r "034" then outside_literals false false l'
           else outside_literals true false l')
      else if Ascii.eqb r "034" then false :: outside_literals true false l'
      else true :: outside_literals false false l'
  end.

Definition is_struct (a : ascii) (m : ascii * bool) : bool :=
  m.2 && Ascii.eqb m.1 a.

(** Index of the first opening delimiter outside the literals. *)
Fixpoint find_open (open : ascii) (ml : list (ascii * bool)) : option nat :=
  match ml with
  | [] => None
  | m :: ml' => if is_struct open m then Some 0%nat else S <$> find_open open ml'
  end.

(** [ml] follows an opening delimiter nested [depth] deep: offset of the
    closing delimiter that brings the nesting back to zero. *)
Fixpoint close_offset (open close : ascii) (ml : list (ascii * bool))
    (depth : nat) : option nat :=
  match ml with
  | [] => None
  | m :: ml' =>
      if is_struct open m then S <$> close_offset open close ml' (S depth)
      else if is_struct close m then
        match depth with
        | 1%nat => Some 0%nat
        | S d => S <$> close_offset open close ml' d
        | O => None
        end
      else S <$> close_offset open close ml' depth
  end.

Definition first_balanced_span (input : string) (open close : ascii)
  : option string :=
  let l := bytes_of input in
  let ml := zip l (outside_literals false false l) in
  i ← find_open open ml;
  n ← close_offset open close (drop (S i) ml) 1;
  Some (str (take (n + 2) (drop i l))).

Definition valid_span (o : option string) : option string :=
  o ≫= λ s, if json_Valid s then Some s else None.

Definition normalize_spec (raw : string) : string * bool :=
  let trimmed := TrimSpace raw in
  if decide (trimmed = "") then ("{}", true)
  else if json_Valid trimmed then (trimmed, true)
  else match valid_span (first_balanced_span trimmed "{" "}") with
       | Some span => (span, true)
       | None =>
           match valid_span (first_balanced_span trimmed "[" "]") with
           | Some span => (span, true)
           | None => ("", false)
           end
       end.

End Normalizer.

(* ===================================================================== *)
(** * Tool context and path confinement ([internal/tools])                 *)
(* ===================================================================== *)

Module Tools.
Import Go Os.

(** [context.Canceled], [context.DeadlineExceeded] *)
Definition Canceled : error := ErrNew "context canceled".
Definition DeadlineExceeded : error := ErrNew "context deadline exceeded".

(** [ToolContext].  [Context] is [None] for a nil context; otherwise it
    holds what [Context.Err()] returns when it is asked.  [Timeout] is a
    [time.Duration], in nanoseconds.  The logger is not modelled: nothing
    the properties speak of depends on what is logged. *)
Record ToolContext := {
  CWD : string;
  AllowedRoot : string;
  Timeout : Z;
  Context : option (option error);
  CorrelationID : string;
}.

Definition ResolvePath (ctx : ToolContext) (pathValue : string) : string :=
  let trimmedPath := TrimSpace pathValue in
  let trimmedPath := if decide (trimmedPath = "") then "." else trimmedPath in
  if IsAbs trimmedPath then trimmedPath
  else
    let base := TrimSpace (CWD ctx) in
    let base := if decide (base = "") then "." else base in
    Join base trimmedPath.

Definition errNoExistingParent : error :=
  ErrNew "no existing parent found for path".

(** The loop of [findExistingParent]; [None] when [fuel] runs out. *)
Fixpoint findExistingParent_loop (fuel : nat) (os : state) (current : string)
  : option (error + string) :=
  match fuel with
  | O => None
  | S fuel' =>
      match Lstat os current with
      | inr _ => Some (inr current)
      | inl err =>
          if negb (IsNotExist err) then Some (inl err)
          else
            let next := Dir current in
            if decide (next = current) then Some (inl errNoExistingParent)
            else findExistingParent_loop fuel' os next
      end
  end.

(** Every round but the last drops one element of the path, so one round
    per byte of the cleaned path, and one more, is enough. *)
Definition findExistingParent_fuel (current : string) : nat :=
  S (S (String.length current)).

Definition findExistingParent (os : state) (path : string) : error + string :=
  let current := Clean path in
  default (inl errNoExistingParent)
          (findExistingParent_loop (findExistingParent_fuel current) os current).

Definition resolveRealPath (os : state) (absPath : string) : error + string :=
  match EvalSymlinks os absPath with
  | inr realPath => inr realPath
  | inl err =>
      if negb (IsNotExist err) then inl err
      else
        match findExistingParent os absPath with
        | inl err => inl err
        | inr existingParent =>
            match EvalSymlinks os existingParent with
            | inl err => inl err
            | inr realParent =>
                match Rel existingParent absPath with
                | None =>
                    inl (ErrNew ("Rel: can't make " +:+ absPath
                                 +:+ " relative to " +:+ existingParent))
                | Some remainder => inr (Clean (Join realParent remainder))
                end
            end
        end
  end.

Definition errAllowedRootRequired : error :=
  ErrNew "invalid tool context: allowed_root is required".
Definition errOutsideAllowedRoot : error :=
  ErrNew "path is outside allowed_root".

(** [None] is the nil error: the path is allowed.  [filepath.Abs] fails
    only when the working directory cannot be read, which the model of the
    operating system excludes. *)
Definition EnsurePathAllowed (os : state) (ctx : ToolContext)
    (resolvedPath : string) : option error :=
  let allowedRoot := TrimSpace (AllowedRoot ctx) in
  if decide (allowedRoot = "") then Some errAllowedRootRequired
  else
    let absRoot := Abs os allowedRoot in
    match EvalSymlinks os absRoot with
    | inl err => Some (wrap "failed to evaluate allowed_root symlinks" err)
    | inr realRoot =>
        let absPath := Abs os resolvedPath in
        match resolveRealPath os absPath with
        | inl err => Some (wrap "failed to evaluate path symlinks" err)
        | inr realPath =>
            match Rel realRoot realPath with
            | None =>
                Some (wrap "failed to evaluate path policy"
                        (ErrNew ("Rel: can't make " +:+ realPath
                                 +:+ " relative to " +:+ realRoot)))
            | Some relPath =>
                if String.eqb relPath ".." || HasPrefix relPath "../"
                then Some errOutsideAllowedRoot
                else None
            end
        end
    end.

End Tools.

(* ===================================================================== *)
(** * Response envelope ([internal/tools]) and [json.Marshal]              *)
(* ===================================================================== *)

Module Envelope.
Import Go.

(** A Go value held in an [any], as far as [json.Marshal] tells values
    apart.  [VNil] is the nil interface; [VNull] is a typed nil (a nil map,
    slice or pointer), which is not an empty interface and is encoded as
    [null]; [VUnsupported] is a value [json.Marshal] refuses (a channel, a
    function, a NaN, ...).  The pairs of a [VMap] have distinct keys. *)
Inductive value :=
  | VNil
  | VNull
  | VBool (b : bool)
  | VInt (n : Z)
  | VString (s : string)
  | VList (l : list value)
  | VMap (m : list (string * value))
  | VUnsupported.

(** JSON text as a tree. *)
Inductive json :=
  | JNull
  | JBool (b : bool)
  | JNumber (n : Z)
  | JString (s : string)
  | JArray (l : list json)
  | JObject (fields : list (string * json)).

(** Insertion of a field in key order: [json.Marshal] writes the keys of a
    map sorted. *)
Fixpoint insert_field (k : string) (v : json) (fs : list (string * json))
  : list (string * json) :=
  match fs with
  | [] => [(k, v)]
  | (k', v') :: fs' =>
      if String.leb k k' then (k, v) :: fs else (k', v') :: insert_field k v fs'
  end.

Definition sort_fields (fs : list (string * json)) : list (string * json) :=
  foldr (λ kv acc, insert_field kv.1 kv.2 acc) [] fs.

(** All elements encoded, or none. *)
Definition all_encoded {A B} (f : A -> option B) (l : list A) : option (list B) :=
  foldr (λ x acc, y ← f x; ys ← acc; Some (y :: ys)) (Some []) l.

(** [json.Marshal] of a value. *)
Fixpoint marshal_value (v : value) : option json :=
  match v with
  | VNil | VNull => Some JNull
  | VBool b => Some (JBool b)
  | VInt n => Some (JNumber n)
  | VString s => Some (JString s)
  | VList l => JArray <$> all_encoded marshal_value l
  | VMap m =>
      (λ fs, JObject (sort_fields fs))
        <$> all_encoded (λ kv, pair kv.1 <$> marshal_value kv.2) m
  | VUnsupported => None
  end.

Record ResponseError := { Message : string }.

(** [ResponseEnvelope]; the field tags are in [marshal_envelope]. *)
Record ResponseEnvelope := {
  OK : bool;
  Data : value;
  Error : option ResponseError;
  Meta : gmap string value;
}.

(** [omitempty] on a field of interface type omits the nil interface only. *)
Definition omit_data (v : value) : bool :=
  match v with VNil => true | _ => false end.

(** [json.Marshal(envelope)]: the fields in the order of the struct, a
    field tagged [omitempty] left out when it is empty. *)
Definition marshal_envelope (e : ResponseEnvelope) : option json :=
  data ← (if omit_data (Data e) then Some []
          else (λ j, [("data", j)]) <$> marshal_value (Data e));
  meta ← (if decide (Meta e = ∅) then Some []
          else (λ j, [("meta", j)]) <$> marshal_value (VMap (map_to_list (Meta e))));
  let err := match Error e with
             | Some re => [("error", JObject [("message", JString (Message re))])]
             | None => []
             end in
  Some (JObject ([("ok", JBool (OK e))] ++ data ++ err ++ meta)).

(** *** The text of a JSON tree, as [json.Marshal] writes it *)

Definition hex_digit (n : N) : ascii :=
  ascii_of_N (if (n <? 10)%N then 0x30 + n else 0x61 + (n - 10)).

(** [\u00XX] *)
Definition escape_u (n : N) : list ascii :=
  ["\"; "u"; "0"; "0"; hex_digit (n / 16); hex_digit (n mod 16)]%char.

(** One byte of a string literal.  The quote and the backslash are
    escaped, the control characters are written [\n], [\r], [\t] or
    [\u00XX], and so are [<], [>] and [&].  Bytes from 0x80 up are copied:
    this is what [json.Marshal] writes for valid UTF-8 other than U+2028
    and U+2029. *)
Definition escape_byte (c : ascii) : list ascii :=
  let n := byte c in
  if (n =? 0x22)%N then ["\"; "034"]%char
  else if (n =? 0x5C)%N then ["\"; "\"]%char
  else if (n =? 0x0A)%N then ["\"; "n"]%char
  else if (n =? 0x0D)%N then ["\"; "r"]%char
  else if (n =? 0x09)%N then ["\"; "t"]%char
  else if (n <? 0x20)%N || (n =? 0x3C)%N || (n =? 0x3E)%N || (n =? 0x26)%N
  then escape_u n
  else [c].

Definition quote (s : string) : list ascii :=
  "034"%char :: concat (escape_byte <$> bytes_of s) ++ ["034"%char].

Definition number_text (n : Z) : list ascii :=
  match n with
  | Z0 => ["0"%char]
  | Zpos p => bytes_of (pretty (Npos p))
  | Zneg p => "-"%char :: bytes_of (pretty (Npos p))
  end.

Fixpoint intersperse (s : list ascii) (parts : list (list ascii)) : list ascii :=
  match parts with
  | [] => []
  | [p] => p
  | p :: ps => p ++ s ++ intersperse s ps
  end.

Fixpoint text (j : json) : list ascii :=
  match j with
  | JNull => bytes_of "null"
  | JBool true => bytes_of "true"
  | JBool false => bytes_of "false"
  | JNumber n => number_text n
  | JString s => quote s
  | JArray l => "["%char :: intersperse [","%char] (text <$> l) ++ ["]"%char]
  | JObject fs =>
      "{"%char ::
        intersperse [","%char] ((λ kv, quote kv.1 ++ ":"%char :: text kv.2) <$> fs)
        ++ ["}"%char]
  end.

(** A string with every apostrophe replaced by a double quote: a way to
    write quoted text. *)
Definition dq (s : string) : string :=
  str ((λ c, if Ascii.eqb c "'" then "034"%char else c) <$> bytes_of s).

Definition fallbackEnvelope : string :=
  dq "{'ok':false,'error':{'message':'failed to encode tool response envelope'}}".

Definition encodeEnvelope (envelope : ResponseEnvelope) : string :=
  match marshal_envelope envelope with
  | None => fallbackEnvelope
  | Some payload => str (text payload)
  end.

Definition SuccessEnvelope (data : value) (meta : gmap string value) : string :=
  encodeEnvelope {| OK := true; Data := data; Error := None; Meta := meta |}.

Definition ErrorEnvelope (message : string) (meta : gmap string value) : string :=
  encodeEnvelope {| OK := false; Data := VNil;
                    Error := Some {| Message := message |}; Meta := meta |}.

End Envelope.

(* ===================================================================== *)
(** * Messages ([internal/llm])                                            *)
(* ===================================================================== *)

Module Llm.

Inductive Role := RoleSystem | RoleUser | RoleAssistant | RoleTool.

Record ToolCall := {
  ID : string;
  Name : string;
  Arguments : string;
}.

Record Message := {
  Role_ : Role;
  Content : string;
  ToolCallID : string;
  ToolCalls : list ToolCall;
}.

Record Choice := {
  FinishReason : string;
  Message_ : Message;
}.

Record CompletionResponse := { Choices : list Choice }.

End Llm.

(* ===================================================================== *)
(** * Tool registry ([internal/tools/registry.go])                         *)
(* ===================================================================== *)

Module Registry.
Import Go Tools Envelope Normalizer.

Section WithWorld.

(** Everything a tool can act on: files, processes, the network. *)
Context {World : Type}.

(** The [Tool] interface.  [Definition()] only describes the tool and is
    left out. *)
Record Tool := {
  Name : string;
  Execute : ToolContext -> string -> World -> (value * option error) * World;
}.

(** One call of a tool's [Execute], kept in the order the calls are made. *)
Record invocation := {
  invoked_tool : string;
  invoked_ctx : ToolContext;
  invoked_arguments : string;
}.

Definition NewRegistry (toolList : list Tool) : gmap string Tool :=
  foldl (λ byName tool, <[Name tool := tool]> byName) ∅ toolList.

(** [Duration.Milliseconds]: nanoseconds divided by 10^6, towards zero. *)
Definition Milliseconds (d : Z) : Z := Z.quot d 1000000.

Definition build_meta (tool : Tool) (toolContext : ToolContext)
  : gmap string value :=
  let meta : gmap string value := {[ "tool" := VString (Name tool) ]} in
  let meta := if decide (TrimSpace (CWD toolContext) ≠ "")
              then <["cwd" := VString (CWD toolContext)]> meta else meta in
  let meta := if decide (TrimSpace (CorrelationID toolContext) ≠ "")
              then <["correlation_id" := VString (CorrelationID toolContext)]> meta
              else meta in
  let meta := if decide (TrimSpace (AllowedRoot toolContext) ≠ "")
              then <["allowed_root" := VString (AllowedRoot toolContext)]> meta
              else meta in
  if decide (0 < Timeout toolContext)
  then <["timeout_ms" := VInt (Milliseconds (Timeout toolContext))]> meta
  else meta.

Definition msgInvalidContext : string :=
  "invalid tool context: cwd and allowed_root are required".
Definition msgCancelled : string := "tool execution cancelled".

(** The result is the envelope, whether a tool matched, the world after
    the call, and the calls of [Execute] made on the way. *)
Definition Execute_ (registry : gmap string Tool) (toolCall : Llm.ToolCall)
    (toolContext : ToolContext) (w : World)
  : (string * bool) * World * list invocation :=
  match registry !! Llm.Name toolCall with
  | None => (("", false), w, [])
  | Some tool =>
      let meta := build_meta tool toolContext in
      if bool_decide (TrimSpace (CWD toolContext) = "")
         || bool_decide (TrimSpace (AllowedRoot toolContext) = "")
      then ((ErrorEnvelope msgInvalidContext meta, true), w, [])
      else
        match Context toolContext with
        | Some (Some err) =>
            if decide (err = Canceled)
            then ((ErrorEnvelope msgCancelled meta, true), w, [])
            else ((ErrorEnvelope
                     ("tool execution context error: " +:+ Go.Error err) meta,
                   true), w, [])
        | _ =>
            let '(normalizedArguments, valid) :=
              NormalizeJSONArguments (Llm.Arguments toolCall) in
            if negb valid
            then ((ErrorEnvelope (Name tool +:+ ": invalid JSON arguments") meta,
                   true), w, [])
            else
              let '((result, err), w') :=
                Execute tool toolContext normalizedArguments w in
              let called := [{| invoked_tool := Name tool;
                                invoked_ctx := toolContext;
                                invoked_arguments := normalizedArguments |}] in
              match err with
              | Some err =>
                  ((ErrorEnvelope (Name tool +:+ ": " +:+ Go.Error err) meta,
                    true), w', called)
              | None => ((SuccessEnvelope result meta, true), w', called)
              end
        end
  end.

End WithWorld.

Arguments Tool : clear implicits.

End Registry.

(* ===================================================================== *)
(** * EditPatch ([internal/tools/edit_patch.go])                           *)
(* ===================================================================== *)

Module EditPatch.
Import Go Os Tools Envelope.

(** [strings.Count(s, substr)] for a non-empty [substr] (its only caller
    has excluded the empty one): the number of non-overlapping instances,
    found from the left.  [skip] bytes of the last instance are still to be
    passed over. *)
Fixpoint count_from (substr : list ascii) (skip : nat) (s : list ascii) : Z :=
  match s with
  | [] => 0
  | _ :: s' =>
      match skip with
      | S k => count_from substr k s'
      | O =>
          if prefixb substr s
          then 1 + count_from substr (List.length substr - 1) s'
          else count_from substr 0 s'
      end
  end.

Definition Count (s substr : string) : Z :=
  count_from (bytes_of substr) 0 (bytes_of s).

(** [strings.Replace(s, old, new, n)] for a non-empty [old]: the first [n]
    non-overlapping instances are replaced, all of them when [n < 0]. *)
Fixpoint replace_from (old new : list ascii) (n : Z) (skip : nat)
    (s : list ascii) : list ascii :=
  match s with
  | [] => []
  | c :: s' =>
      match skip with
      | S k => replace_from old new n k s'
      | O =>
          if negb (n =? 0) && prefixb old s
          then new ++ replace_from old new (n - 1) (List.length old - 1) s'
          else c :: replace_from old new n 0 s'
      end
  end.

Definition Replace (s old new : string) (n : Z) : string :=
  str (replace_from (bytes_of old) (bytes_of new) n 0 (bytes_of s)).

Definition ReplaceAll (s old new : string) : string := Replace s old new (-1).

Record editPatchArgs := {
  FilePath : string;
  OldString : string;
  NewString : string;
  ReplaceAll_ : bool;
}.

Section Execute.

(** [json.Unmarshal([]byte(arguments), &args)] *)
Variable json_Unmarshal : string -> error + editPatchArgs.

Definition failed (err : error) : value * option error := (VString "", Some err).

Definition Execute (ctx : ToolContext) (arguments : string) (os : state)
  : (value * option error) * state :=
  match json_Unmarshal arguments with
  | inl err => (failed (wrap "error parsing arguments" err), os)
  | inr args =>
      let filePath := TrimSpace (FilePath args) in
      if decide (filePath = "")
      then (failed (ErrNew "file_path must be a non-empty string"), os)
      else if decide (OldString args = "")
      then (failed (ErrNew "old_string must be a non-empty string"), os)
      else
        let resolvedPath := ResolvePath ctx filePath in
        match EnsurePathAllowed os ctx resolvedPath with
        | Some err => (failed (wrap "path policy violation" err), os)
        | None =>
            match ReadFile os resolvedPath with
            | (inl err, os) => (failed (wrap "error reading file" err), os)
            | (inr content, os) =>
                let occurrences := Count content (OldString args) in
                if occurrences =? 0
                then (failed (ErrNew "old_string not found in file"), os)
                else
                  let '(newContent, replacements) :=
                    if ReplaceAll_ args
                    then (ReplaceAll content (OldString args) (NewString args),
                          occurrences)
                    else (Replace content (OldString args) (NewString args) 1, 1)
                  in
                  match WriteFile os resolvedPath newContent with
                  | (Some err, os) => (failed (wrap "error writing file" err), os)
                  | (None, os) =>
                      ((VMap [("file_path", VString filePath);
                              ("replacements", VInt replacements);
                              ("replace_all", VBool (ReplaceAll_ args));
                              ("total_matches", VInt occurrences)], None), os)
                  end
            end
        end
  end.

End Execute.

End EditPatch.

(* ===================================================================== *)
(** * Command policy of the Bash tool ([internal/tools/write.go])          *)
(* ===================================================================== *)

Module Bash.
Import Go.

(** [strings.FieldsFunc] with the separators of [splitPolicyList]: the
    maximal runs of bytes that are none of comma, semicolon, newline. *)
Definition policy_separator (c : ascii) : bool :=
  match c with
  | "," | ";" | "010" => true
  | _ => false
  end%char.

Fixpoint fields (cur : list ascii) (l : list ascii) : list (list ascii) :=
  match l with
  | [] => match cur with [] => [] | _ => [rev cur] end
  | c :: l' =>
      if policy_separator c
      then match cur with [] => fields [] l' | _ => rev cur :: fields [] l' end
      else fields (c :: cur) l'
  end.

Definition splitPolicyList (raw : string) : list string :=
  filter (λ v, v ≠ "") (TrimSpace <$> (str <$> fields [] (bytes_of raw))).

Definition blockedCommandSources : list string :=
  [ "(?i)\brm\s+-rf\s+/";
    "(?i)\bshutdown\b";
    "(?i)\breboot\b";
    "(?i)\bpoweroff\b";
    "(?i)\bmkfs(\.|\s)";
    ":\s*\(\s*\)\s*\{\s*:\s*\|\s*:\s*&\s*\}\s*;\s*:" ].

Definition bashAllowlistEnv : string := "SHIMIBOT_BASH_ALLOWLIST".
Definition bashDenylistEnv : string := "SHIMIBOT_BASH_DENYLIST".

Section Policy.

(** The package [regexp]: compiled patterns, [regexp.Compile] and the
    method [MatchString]; and the environment of the process. *)
Context {Regexp : Type}.
Variable regexp_Compile : string -> error + Regexp.
Variable MatchString : Regexp -> string -> bool.
Variable Getenv : string -> string.

(** [blockedCommandPatterns] is built with [regexp.MustCompile], which
    stops the program when a pattern does not compile; a pattern that
    does not compile here matches nothing. *)
Definition matches_source (command : string) (source : string) : bool :=
  match regexp_Compile source with
  | inr pattern => MatchString pattern command
  | inl _ => false
  end.

Fixpoint compile_all (parts : list string) : error + list Regexp :=
  match parts with
  | [] => inr []
  | part :: parts' =>
      match regexp_Compile part with
      | inl err => inl (wrap ("invalid regex " +:+ quoted part) err)
      | inr compiled =>
          match compile_all parts' with
          | inl err => inl err
          | inr patterns => inr (compiled :: patterns)
          end
      end
  end.

Definition compilePolicyPatterns (raw : string) : error + list Regexp :=
  let raw := TrimSpace raw in
  if decide (raw = "") then inr []
  else compile_all (splitPolicyList raw).

Definition errBlocked : error := ErrNew "command blocked by policy".
Definition errDenylist : error := ErrNew "command blocked by denylist policy".
Definition errAllowlist : error := ErrNew "command blocked by allowlist policy".

Definition validateCommandPolicy (command : string) : option error :=
  if existsb (matches_source command) blockedCommandSources
  then Some errBlocked
  else
    match compilePolicyPatterns (Getenv bashDenylistEnv) with
    | inl err => Some (wrap ("invalid " +:+ bashDenylistEnv) err)
    | inr denylistPatterns =>
        if existsb (λ pattern, MatchString pattern command) denylistPatterns
        then Some errDenylist
        else
          match compilePolicyPatterns (Getenv bashAllowlistEnv) with
          | inl err => Some (wrap ("invalid " +:+ bashAllowlistEnv) err)
          | inr allowlistPatterns =>
              match allowlistPatterns with
              | [] => None
              | _ =>
                  if existsb (λ pattern, MatchString pattern command)
                       allowlistPatterns
                  then None
                  else Some errAllowlist
              end
          end
    end.

End Policy.

End Bash.

(* ===================================================================== *)
(** * Outbound network policy ([internal/tools], egress)                   *)
(* ===================================================================== *)

Module Network.
Import Go.

(** A [net.IP] is a byte slice; [None] is the nil slice. *)
Definition IP := option (list N).

(** What the policy reads of a parsed [*url.URL]: [Scheme] and
    [Hostname()]. *)
Record URL := { Scheme : string; Hostname : string }.

(** [os.Getenv], [url.Parse], [net.ParseIP] and the resolver held in the
    variable [resolveIPAddrs]. *)
Record Env := {
  Getenv : string -> string;
  url_Parse : string -> error + URL;
  ParseIP : string -> IP;
  resolveIPAddrs : string -> error + list IP;
}.

Definition allowPrivateEgressEnv : string := "SHIMIBOT_ALLOW_PRIVATE_EGRESS".

Definition v4InV6Prefix : list N := [0; 0; 0; 0; 0; 0; 0; 0; 0; 0; 0xff; 0xff]%N.
Definition IPv6loopback : list N := [0; 0; 0; 0; 0; 0; 0; 0; 0; 0; 0; 0; 0; 0; 0; 1]%N.
Definition IPv6unspecified : list N := replicate 16 0%N.
Definition IPv4zero : list N := v4InV6Prefix ++ [0; 0; 0; 0]%N.

(** [ip.To4()]: the four-byte form, [None] when [ip] is not an IPv4
    address. *)
Definition To4 (ip : list N) : option (list N) :=
  if decide (List.length ip = 4%nat) then Some ip
  else if bool_decide (List.length ip = 16%nat) && bool_decide (take 12 ip = v4InV6Prefix)
  then Some (drop 12 ip)
  else None.

(** [ip.Equal(x)] *)
Definition Equal (ip x : list N) : bool :=
  if decide (List.length ip = List.length x) then bool_decide (ip = x)
  else if bool_decide (List.length ip = 4%nat) && bool_decide (List.length x = 16%nat)
  then bool_decide (take 12 x = v4InV6Prefix) && bool_decide (ip = drop 12 x)
  else if bool_decide (List.length ip = 16%nat) && bool_decide (List.length x = 4%nat)
  then bool_decide (take 12 ip = v4InV6Prefix) && bool_decide (drop 12 ip = x)
  else false.

Definition at_ (ip : list N) (i : nat) : N := default 0%N (ip !! i).

Definition IsUnspecified (ip : list N) : bool :=
  Equal ip IPv4zero || Equal ip IPv6unspecified.

Definition IsLoopback (ip : list N) : bool :=
  match To4 ip with
  | Some ip4 => (at_ ip4 0 =? 127)%N
  | None => Equal ip IPv6loopback
  end.

Definition IsPrivate (ip : list N) : bool :=
  match To4 ip with
  | Some ip4 =>
      (at_ ip4 0 =? 10)%N
      || ((at_ ip4 0 =? 172)%N && (N.land (at_ ip4 1) 0xf0 =? 16)%N)
      || ((at_ ip4 0 =? 192)%N && (at_ ip4 1 =? 168)%N)
  | None =>
      bool_decide (List.length ip = 16%nat) && (N.land (at_ ip 0) 0xfe =? 0xfc)%N
  end.

Definition IsMulticast (ip : list N) : bool :=
  match To4 ip with
  | Some ip4 => (N.land (at_ ip4 0) 0xf0 =? 0xe0)%N
  | None => bool_decide (List.length ip = 16%nat) && (at_ ip 0 =? 0xff)%N
  end.

Definition IsLinkLocalMulticast (ip : list N) : bool :=
  match To4 ip with
  | Some ip4 => (at_ ip4 0 =? 224)%N && (at_ ip4 1 =? 0)%N && (at_ ip4 2 =? 0)%N
  | None =>
      bool_decide (List.length ip = 16%nat) && (at_ ip 0 =? 0xff)%N
      && (N.land (at_ ip 1) 0x0f =? 0x02)%N
  end.

Definition IsLinkLocalUnicast (ip : list N) : bool :=
  match To4 ip with
  | Some ip4 => (at_ ip4 0 =? 169)%N && (at_ ip4 1 =? 254)%N
  | None =>
      bool_decide (List.length ip = 16%nat) && (at_ ip 0 =? 0xfe)%N
      && (N.land (at_ ip 1) 0xc0 =? 0x80)%N
  end.

Definition isPrivateOrLocalIP (ip : IP) : bool :=
  match ip with
  | None => true
  | Some ip =>
      if IsLoopback ip || IsPrivate ip || IsLinkLocalUnicast ip
         || IsLinkLocalMulticast ip || IsMulticast ip || IsUnspecified ip
      then true
      else
        match To4 ip with
        | Some ipv4 =>
            if (at_ ipv4 0 =? 169)%N && (at_ ipv4 1 =? 254)%N then true
            else if (at_ ipv4 0 =? 100)%N && (64 <=? at_ ipv4 1)%N
                    && (at_ ipv4 1 <=? 127)%N then true
            else false
        | None => false
        end
  end.

Definition isLocalHostname (hostname : string) : bool :=
  let normalized := ToLower (TrimSpace hostname) in
  String.eqb normalized "localhost" || HasSuffix normalized ".localhost".

Definition errBlockedHost : error := ErrNew "blocked outbound host".
Definition errBlockedIP : error := ErrNew "blocked outbound IP".
Definition errInvalidHost : error := ErrNew "invalid URL host".
Definition errNoAddresses : error := ErrNew "failed resolving host: no addresses".

Definition EnsureOutboundURLAllowed (env : Env) (rawURL : string) : option error :=
  if EqualFold_true (TrimSpace (Getenv env allowPrivateEgressEnv)) then None
  else
    match url_Parse env (TrimSpace rawURL) with
    | inl err => Some (wrap "invalid URL" err)
    | inr parsedURL =>
        let scheme := ToLower (TrimSpace (Scheme parsedURL)) in
        if negb (String.eqb scheme "http") && negb (String.eqb scheme "https")
        then Some (ErrNew ("unsupported URL scheme " +:+ quoted (Scheme parsedURL)))
        else
          let hostname := TrimSpace (Hostname parsedURL) in
          if decide (hostname = "") then Some errInvalidHost
          else if isLocalHostname hostname then Some errBlockedHost
          else
            match ParseIP env hostname with
            | Some ip =>
                if isPrivateOrLocalIP (Some ip) then Some errBlockedIP else None
            | None =>
                match resolveIPAddrs env hostname with
                | inl err => Some (wrap "failed resolving host" err)
                | inr ipAddrs =>
                    if decide (ipAddrs = []) then Some errNoAddresses
                    else if existsb isPrivateOrLocalIP ipAddrs
                    then Some errBlockedHost
                    else None
                end
            end
    end.

End Network.

(* ===================================================================== *)
(** * Session store ([internal/session])                                   *)
(* ===================================================================== *)

Module Session.
Import Go Os.

Definition defaultSessionsDir : string := ".shimibot/sessions".

Definition alnum (c : ascii) : bool :=
  let n := byte c in
  (((0x41 <=? n) && (n <=? 0x5A)) || ((0x61 <=? n) && (n <=? 0x7A))
   || ((0x30 <=? n) && (n <=? 0x39)))%N.

Definition idchar (c : ascii) : bool :=
  alnum c || Ascii.eqb c "_" || Ascii.eqb c "-".

(** [validSessionIDPattern.MatchString]: the pattern
    [^[A-Za-z0-9][A-Za-z0-9_-]{0,127}$] matches the whole string (no flag
    makes [$] match before a final newline): one letter or digit, then at
    most 127 letters, digits, underscores or hyphens. *)
Definition validSessionID (s : string) : bool :=
  match bytes_of s with
  | c :: rest => alnum c && bool_decide (List.length rest ≤ 127)%nat && forallb idchar rest
  | [] => false
  end.

Record JSONFileStore := { sessionsDir : string }.

Definition NewJSONFileStoreWithDir (dir : string) : JSONFileStore :=
  let trimmedDir := TrimSpace dir in
  {| sessionsDir := if decide (trimmedDir = "") then defaultSessionsDir
                    else trimmedDir |}.

Definition errInvalidSessionID : error :=
  ErrNew "invalid session id: use 1-128 chars [A-Za-z0-9_-], starting with alphanumeric".

Definition normalizeSessionID (sessionID : string) : error + string :=
  let trimmed := TrimSpace sessionID in
  if decide (trimmed = "") then inr ""
  else if negb (validSessionID trimmed) then inl errInvalidSessionID
  else inr trimmed.

Definition sessionFilePath (store : JSONFileStore) (sessionID : string)
  : error + string :=
  match normalizeSessionID sessionID with
  | inl err => inl err
  | inr normalizedSessionID =>
      inr (Join (sessionsDir store) (normalizedSessionID +:+ ".json"))
  end.

Section Store.

(** [json.Unmarshal] into [sessionData] (the messages read) and
    [json.MarshalIndent] of a [sessionData]. *)
Variable json_Unmarshal : string -> error + list Llm.Message.
Variable json_MarshalIndent : string -> list Llm.Message -> error + string.

Definition Load (store : JSONFileStore) (sessionID : string) (os : state)
  : (error + list Llm.Message) * state :=
  match normalizeSessionID sessionID with
  | inl err => (inl err, os)
  | inr normalizedSessionID =>
      if decide (normalizedSessionID = "") then (inr [], os)
      else
        match sessionFilePath store normalizedSessionID with
        | inl err => (inl err, os)
        | inr path =>
            match ReadFile os path with
            | (inl err, os) =>
                if IsNotExist err then (inr [], os) else (inl err, os)
            | (inr bytes, os) =>
                match json_Unmarshal bytes with
                | inl err => (inl err, os)
                | inr messages => (inr messages, os)
                end
            end
        end
  end.

Definition Save (store : JSONFileStore) (sessionID : string)
    (history : list Llm.Message) (os : state) : option error * state :=
  match normalizeSessionID sessionID with
  | inl err => (Some err, os)
  | inr normalizedSessionID =>
      if decide (normalizedSessionID = "") then (None, os)
      else
        match json_MarshalIndent normalizedSessionID history with
        | inl err => (Some err, os)
        | inr payload =>
            match sessionFilePath store normalizedSessionID with
            | inl err => (Some err, os)
            | inr path =>
                match MkdirAll os (Dir path) with
                | (Some err, os) => (Some err, os)
                | (None, os) => WriteFile os path payload
                end
            end
        end
  end.

End Store.

End Session.

(* ===================================================================== *)
(** * Turn runner ([internal/agent/runner.go])                             *)
(* ===================================================================== *)

Module Agent.
Import Go Llm Normalizer.

Definition ErrMaxTurnsExceeded : error := ErrNew "max turns exceeded".
Definition ErrToolCallBudgetExceeded : error := ErrNew "tool call budget exceeded".

Record Policy := {
  MaxTurns : Z;
  MaxToolCalls : Z;
}.

(** [llm.ToolDefinition]; the runner hands the definitions to the client
    and never looks inside. *)
Record ToolDefinition := { DefName : string; Description : string }.

Record CompletionRequest := {
  Model : string;
  Messages : list Message;
  Tools : list ToolDefinition;
}.

Section Runner.

(** What the completion client and the tools act on.  It holds the state
    of the context too: [ctx_Err w] is what [ctx.Err()] returns in the
    world [w], so a call of the client or of a tool may leave the context
    cancelled. *)
Context {World : Type}.
Variable ctx_Err : World -> option error.

(** [Runner]; a nil client or executor is [None].  The logger is not
    modelled: the runner only writes to it. *)
Record Runner := {
  LLMClient :
    option (CompletionRequest -> World -> (error + CompletionResponse) * World);
  RunnerModel : string;
  ToolDefinitions : list ToolDefinition;
  ExecuteTool : option (string -> ToolCall -> World -> string * World);
  RunnerPolicy : Policy;
}.

(** The state of the loop of [RunPrompt].  [executed] lists the calls of
    [ExecuteTool] made so far, in order. *)
Record loop_state := {
  turnNumber : Z;
  toolCallsUsed : Z;
  lastAssistantText : string;
  messageHistory : list Message;
  world : World;
  executed : list ToolCall;
}.

(** What [RunPrompt] returns, the history and the world it leaves, and the
    tool calls it executed. *)
Record result := {
  text : string;
  err : option error;
  final_history : list Message;
  final_world : World;
  executions : list ToolCall;
}.

Definition finish (st : loop_state) (text : string) (err : option error) : result :=
  {| text := text; err := err; final_history := messageHistory st;
     final_world := world st; executions := executed st |}.

(** The body of the loop over [message.ToolCalls]. *)
Definition prune_step (message : Message) (assistantMessage : Message)
    (toolCall : ToolCall) : Message :=
  let rawArguments := Arguments toolCall in
  let '(normalizedArguments, valid) := NormalizeJSONArguments rawArguments in
  let normalizedToolCall :=
    {| ID := ID toolCall; Name := Name toolCall;
       Arguments := if valid then normalizedArguments else "{}" |} in
  let assistantMessage :=
    if bool_decide (TrimSpace (Content assistantMessage) = "")
       && negb (bool_decide (TrimSpace (Content message) = ""))
    then {| Role_ := Role_ assistantMessage; Content := Content message;
            ToolCallID := ToolCallID assistantMessage;
            ToolCalls := ToolCalls assistantMessage |}
    else assistantMessage in
  if bool_decide (TrimSpace (ID normalizedToolCall) = "")
     || bool_decide (TrimSpace (Name normalizedToolCall) = "")
  then assistantMessage
  else {| Role_ := Role_ assistantMessage; Content := Content assistantMessage;
          ToolCallID := ToolCallID assistantMessage;
          ToolCalls := ToolCalls assistantMessage ++ [normalizedToolCall] |}.

Definition prune (message : Message) : Message :=
  foldl (prune_step message)
        {| Role_ := RoleAssistant; Content := Content message;
           ToolCallID := ""; ToolCalls := [] |}
        (ToolCalls message).

(** The loop over [assistantMessage.ToolCalls]: the error of a cancelled
    context, or [None] when every call was executed. *)
Fixpoint dispatch (execute : string -> ToolCall -> World -> string * World)
    (correlationID : string) (toolCalls : list ToolCall) (st : loop_state)
  : option error * loop_state :=
  match toolCalls with
  | [] => (None, st)
  | toolCall :: rest =>
      match ctx_Err (world st) with
      | Some err => (Some err, st)
      | None =>
          let '(toolResponse, w) := execute correlationID toolCall (world st) in
          dispatch execute correlationID rest
            {| turnNumber := turnNumber st;
               toolCallsUsed := toolCallsUsed st;
               lastAssistantText := lastAssistantText st;
               messageHistory :=
                 messageHistory st
                 ++ [{| Role_ := RoleTool; Content := toolResponse;
                        ToolCallID := ID toolCall; ToolCalls := [] |}];
               world := w;
               executed := executed st ++ [toolCall] |}
      end
  end.

Definition limit_text (limit : Z) : string := ": limit=" +:+ pretty limit.

Definition errMaxTurns (limit : Z) : error :=
  ErrWrap (Error ErrMaxTurnsExceeded +:+ limit_text limit) ErrMaxTurnsExceeded.

Definition errToolBudget (limit used requested : Z) : error :=
  ErrWrap (Error ErrToolCallBudgetExceeded +:+ limit_text limit
           +:+ " used=" +:+ pretty used +:+ " requested=" +:+ pretty requested)
          ErrToolCallBudgetExceeded.

Inductive outcome :=
  | NextTurn (st : loop_state)
  | Return (r : result).

(** One round of the loop of [RunPrompt]. *)
Definition turn
    (complete : CompletionRequest -> World -> (error + CompletionResponse) * World)
    (execute : string -> ToolCall -> World -> string * World)
    (runner : Runner) (correlationID : string) (st : loop_state) : outcome :=
  match ctx_Err (world st) with
  | Some err => Return (finish st (lastAssistantText st) (Some err))
  | None =>
      let policy := RunnerPolicy runner in
      if (0 <? MaxTurns policy) && (MaxTurns policy <? turnNumber st)
      then Return (finish st (lastAssistantText st)
                     (Some (errMaxTurns (MaxTurns policy))))
      else
        let '(resp, w) :=
          complete {| Model := RunnerModel runner;
                      Messages := messageHistory st;
                      Tools := ToolDefinitions runner |} (world st) in
        let st := {| turnNumber := turnNumber st;
                     toolCallsUsed := toolCallsUsed st;
                     lastAssistantText := lastAssistantText st;
                     messageHistory := messageHistory st;
                     world := w; executed := executed st |} in
        match resp with
        | inl err => Return (finish st "" (Some err))
        | inr resp =>
            match Choices resp with
            | [] => Return (finish st "" (Some (ErrNew "no choices in response")))
            | choice :: _ =>
                let message := Message_ choice in
                let assistantMessage := prune message in
                let last :=
                  if negb (bool_decide (TrimSpace (Content assistantMessage) = ""))
                  then Content assistantMessage
                  else if negb (bool_decide (TrimSpace (Content message) = ""))
                  then Content message
                  else lastAssistantText st in
                let st := {| turnNumber := turnNumber st;
                             toolCallsUsed := toolCallsUsed st;
                             lastAssistantText := last;
                             messageHistory :=
                               messageHistory st ++ [assistantMessage];
                             world := w; executed := executed st |} in
                let toolCallCount := Z.of_nat (List.length (ToolCalls assistantMessage)) in
                if String.eqb (FinishReason choice) "stop" || (toolCallCount =? 0)
                then Return (finish st last None)
                else if (0 <? MaxToolCalls policy)
                        && (MaxToolCalls policy <? toolCallsUsed st + toolCallCount)
                then Return (finish st last
                               (Some (errToolBudget (MaxToolCalls policy)
                                        (toolCallsUsed st) toolCallCount)))
                else
                  match dispatch execute correlationID
                                 (ToolCalls assistantMessage) st with
                  | (Some err, st) => Return (finish st last (Some err))
                  | (None, st) =>
                      NextTurn {| turnNumber := turnNumber st + 1;
                                  toolCallsUsed := toolCallsUsed st + toolCallCount;
                                  lastAssistantText := lastAssistantText st;
                                  messageHistory := messageHistory st;
                                  world := world st;
                                  executed := executed st |}
                  end
            end
        end
  end.

(** The loop; [None] when [fuel] rounds were not enough to leave it. *)
Fixpoint run_loop (fuel : nat)
    (complete : CompletionRequest -> World -> (error + CompletionResponse) * World)
    (execute : string -> ToolCall -> World -> string * World)
    (runner : Runner) (correlationID : string) (st : loop_state) : option result :=
  match fuel with
  | O => None
  | S fuel' =>
      match turn complete execute runner correlationID st with
      | Return r => Some r
      | NextTurn st' => run_loop fuel' complete execute runner correlationID st'
      end
  end.

Definition RunPrompt (fuel : nat) (runner : Runner) (w : World)
    (messageHistory : list Message) (prompt : string) (correlationID : string)
  : option result :=
  let stop msg :=
    Some {| text := ""; err := Some (ErrNew msg); final_history := messageHistory;
            final_world := w; executions := [] |} in
  match LLMClient runner with
  | None => stop "agent runner missing llm client"
  | Some complete =>
      match ExecuteTool runner with
      | None => stop "agent runner missing tool executor"
      | Some execute =>
          run_loop fuel complete execute runner correlationID
            {| turnNumber := 1; toolCallsUsed := 0; lastAssistantText := "";
               messageHistory :=
                 messageHistory
                 ++ [{| Role_ := RoleUser; Content := prompt;
                        ToolCallID := ""; ToolCalls := [] |}];
               world := w; executed := [] |}
      end
  end.

End Runner.

End Agent.

(* ===================================================================== *)
(** * A regular-expression matcher for the fixed patterns                  *)
(* ===================================================================== *)

(** The command policy is stated for any implementation of [regexp].  To
    run it, this module gives a matcher for the constructs the fixed
    patterns use, and the compiled form of the patterns it knows. *)
Module Regex.
Import Go.

Inductive re :=
  | Eps
  | Chr (f : ascii -> bool)
  | Cat (a b : re)
  | Alt (a b : re)
  | Star (a : re)
  | WordBoundary
  | BeginText
  | EndText.

Definition Plus (a : re) : re := Cat a (Star a).

Definition word_byte (c : ascii) : bool := Session.alnum c || Ascii.eqb c "_".

Definition is_word (c : option ascii) : bool :=
  match c with Some c => word_byte c | None => false end.

Definition continuation : Type := option ascii -> list ascii -> bool.

(** [body] repeated; every round after the first must consume a byte, so
    [length s] rounds are enough. *)
Fixpoint star_loop (n : nat)
    (body : option ascii -> list ascii -> continuation -> bool)
    (prev : option ascii) (s : list ascii) (k : continuation) : bool :=
  k prev s
  || match n with
     | O => false
     | S n' =>
         body prev s (λ prev' s',
           (List.length s' <? List.length s)%nat && star_loop n' body prev' s' k)
     end.

(** [matches r prev s k]: [r] matches a prefix of [s] (the byte before [s]
    is [prev]) and [k] accepts what follows. *)
Fixpoint matches (r : re) (prev : option ascii) (s : list ascii)
    (k : continuation) : bool :=
  match r with
  | Eps => k prev s
  | Chr f => match s with c :: s' => f c && k (Some c) s' | [] => false end
  | Cat a b => matches a prev s (λ prev' s', matches b prev' s' k)
  | Alt a b => matches a prev s k || matches b prev s k
  | Star a => star_loop (List.length s) (matches a) prev s k
  | WordBoundary => xorb (is_word prev) (is_word (head s)) && k prev s
  | BeginText => match prev with None => k prev s | Some _ => false end
  | EndText => match s with [] => k prev s | _ => false end
  end.

Fixpoint search (r : re) (prev : option ascii) (s : list ascii) : bool :=
  matches r prev s (λ _ _, true)
  || match s with
     | c :: s' => search r (Some c) s'
     | [] => false
     end.

(** [MatchString]: the pattern matches somewhere in the string. *)
Definition MatchString (r : re) (s : string) : bool := search r None (bytes_of s).

Definition chr (c : ascii) : re := Chr (Ascii.eqb c).
(** A letter under the flag [i]. *)
Definition fold (c : ascii) : re := Chr (λ x, Ascii.eqb (lower_byte x) c).
(** [\s] *)
Definition space : re :=
  Chr (λ c, match c with "009" | "010" | "012" | "013" | " " => true | _ => false end%char).

Definition seq (l : list re) : re := foldr Cat Eps l.
Definition word (s : string) : re := seq (fold <$> bytes_of s).

(** The compiled form of the patterns of [Bash.blockedCommandSources], and
    of the patterns the tests of the policy put in the lists; any other
    text is refused. *)
Definition Compile (source : string) : error + re :=
  if decide (source = "(?i)\brm\s+-rf\s+/") then
    inr (seq [WordBoundary; word "rm"; Plus space; chr "-"; word "rf";
              Plus space; chr "/"])
  else if decide (source = "(?i)\bshutdown\b") then
    inr (seq [WordBoundary; word "shutdown"; WordBoundary])
  else if decide (source = "(?i)\breboot\b") then
    inr (seq [WordBoundary; word "reboot"; WordBoundary])
  else if decide (source = "(?i)\bpoweroff\b") then
    inr (seq [WordBoundary; word "poweroff"; WordBoundary])
  else if decide (source = "(?i)\bmkfs(\.|\s)") then
    inr (seq [WordBoundary; word "mkfs"; Alt (chr ".") space])
  else if decide (source = ":\s*\(\s*\)\s*\{\s*:\s*\|\s*:\s*&\s*\}\s*;\s*:") then
    inr (seq [chr ":"; Star space; chr "("; Star space; chr ")"; Star space;
              chr "{"; Star space; chr ":"; Star space; chr "|"; Star space;
              chr ":"; Star space; chr "&"; Star space; chr "}"; Star space;
              chr ";"; Star space; chr ":"])
  else if decide (source = "(?i)echo\s+hello") then
    inr (seq [word "echo"; Plus space; word "hello"])
  else if decide (source = "(?i)^echo\b") then
    inr (seq [BeginText; word "echo"; WordBoundary])
  else inl (ErrNew ("error parsing regexp: " +:+ source)).

(** [n] optional copies of [a]: the repetition [{0,n}]. *)
Fixpoint upto (n : nat) (a : re) : re :=
  match n with
  | O => Eps
  | S n' => Alt (Cat a (upto n' a)) Eps
  end.

(** [^[A-Za-z0-9][A-Za-z0-9_-]{0,127}$] *)
Definition sessionIDPattern : re :=
  seq [BeginText; Chr Session.alnum; upto 127 (Chr Session.idchar); EndText].

End Regex.

(* ===================================================================== *)
(** * File tools: Read and Write ([internal/tools/read.go], [write.go])    *)
(* ===================================================================== *)

Module ToolHelpers.
Import Go Tools.

(** [EffectiveTimeout] *)
Definition EffectiveTimeout (ctx : ToolContext) (fallback : Z) : Z :=
  if 0 <? Timeout ctx then Timeout ctx else fallback.

(** [BaseContext]: what [Err()] of the context returned gives;
    [context.Background()] is never done. *)
Definition BaseContext (ctx : ToolContext) : option error :=
  match Context ctx with
  | Some done => done
  | None => None
  end.

End ToolHelpers.

Module ReadTool.
Import Go Os Tools Envelope.

Record readArgs := { FilePath : string }.

Definition Name : string := "Read".

Section Execute.

(** [json.Unmarshal([]byte(arguments), &args)] *)
Variable json_Unmarshal : string -> error + readArgs.

Definition failed (err : error) : value * option error := (VString "", Some err).

Definition Execute (ctx : ToolContext) (arguments : string) (os : state)
  : (value * option error) * state :=
  match json_Unmarshal arguments with
  | inl err => (failed (wrap "error parsing arguments" err), os)
  | inr args =>
      let filePath := TrimSpace (FilePath args) in
      if decide (filePath = "")
      then (failed (ErrNew "file_path must be a non-empty string"), os)
      else
        let resolvedPath := ResolvePath ctx filePath in
        match EnsurePathAllowed os ctx resolvedPath with
        | Some err => (failed (wrap "path policy violation" err), os)
        | None =>
            match ReadFile os resolvedPath with
            | (inl err, os) => (failed (wrap "error reading file" err), os)
            | (inr content, os) => ((VString content, None), os)
            end
        end
  end.

End Execute.

End ReadTool.

Module WriteTool.
Import Go Os Tools Envelope.

Record writeArgs := { FilePath : string; Content : string }.

Definition Name : string := "Write".

Section Execute.

Variable json_Unmarshal : string -> error + writeArgs.

Definition failed (err : error) : value * option error := (VString "", Some err).

Definition Execute (ctx : ToolContext) (arguments : string) (os : state)
  : (value * option error) * state :=
  match json_Unmarshal arguments with
  | inl err => (failed (wrap "error parsing arguments" err), os)
  | inr args =>
      let filePath := TrimSpace (FilePath args) in
      if decide (filePath = "")
      then (failed (ErrNew "file_path must be a non-empty string"), os)
      else
        let resolvedPath := ResolvePath ctx filePath in
        match EnsurePathAllowed os ctx resolvedPath with
        | Some err => (failed (wrap "path policy violation" err), os)
        | None =>
            match WriteFile os resolvedPath (Content args) with
            | (Some err, os) => (failed (wrap "error writing file" err), os)
            | (None, os) =>
                ((VMap [("file_path", VString filePath);
                        ("content", VString (Content args))], None), os)
            end
        end
  end.

End Execute.

End WriteTool.

(* ===================================================================== *)
(** * The Bash tool ([internal/tools/write.go], [BashTool.Execute])        *)
(* ===================================================================== *)

Module BashTool.
Import Go Tools ToolHelpers Envelope Bash.

Record bashArgs := { Command : string }.

Definition Name : string := "Bash".

(** One call of [exec.CommandContext(commandCtx, "bash", "-c", command)]
    followed by [CombinedOutput]: the command, the directory set in
    [cmd.Dir] ([None] when it is left unset), the time-out of the context
    and the state of the context the time-out is added to. *)
Record spawn := {
  spawn_command : string;
  spawn_dir : option string;
  spawn_timeout : Z;
  spawn_parent : option error;
}.

(** What comes back: the combined output, the error of the run, and what
    [commandCtx.Err()] gives afterwards. *)
Record finished := {
  output : string;
  run_error : option error;
  context_error : option error;
}.

Section Execute.

Context {World Regexp : Type}.
Variable json_Unmarshal : string -> error + bashArgs.
Variable regexp_Compile : string -> error + Regexp.
Variable MatchString : Regexp -> string -> bool.
Variable Getenv : string -> string.
Variable CombinedOutput : spawn -> World -> finished * World.
(** [Duration.String] *)
Variable Duration_String : Z -> string.

Definition failed (err : error) : value * option error := (VString "", Some err).

Definition second : Z := 1000000000.

(** The result, the world after the call, and the processes started. *)
Definition Execute (ctx : ToolContext) (arguments : string) (w : World)
  : (value * option error) * World * list spawn :=
  match json_Unmarshal arguments with
  | inl err => (failed (wrap "error parsing arguments" err), w, [])
  | inr args =>
      let command := TrimSpace (Command args) in
      if decide (command = "")
      then (failed (ErrNew "command must be a non-empty string"), w, [])
      else
        match validateCommandPolicy regexp_Compile MatchString Getenv command with
        | Some err => (failed err, w, [])
        | None =>
            let timeout := EffectiveTimeout ctx (30 * second) in
            let cmd :=
              {| spawn_command := command;
                 spawn_dir := if decide (TrimSpace (CWD ctx) ≠ "")
                              then Some (CWD ctx) else None;
                 spawn_timeout := timeout;
                 spawn_parent := BaseContext ctx |} in
            let '(done, w') := CombinedOutput cmd w in
            if decide (context_error done = Some DeadlineExceeded)
            then (failed (ErrNew ("bash command timed out after "
                                  +:+ Duration_String timeout)), w', [cmd])
            else
              match run_error done with
              | Some err =>
                  (failed (wrap "error executing bash command" err), w', [cmd])
              | None =>
                  ((VMap [("command", VString command);
                          ("output", VString (output done))], None), w', [cmd])
              end
        end
  end.

End Execute.

End BashTool.

(* ===================================================================== *)
(** * FetchWebPage ([internal/tools], fetch of a web page)                  *)
(* ===================================================================== *)

Module FetchWebPageTool.
Import Go Tools ToolHelpers Envelope.

Record fetchWebPageArgs := { URL : string }.

Definition Name : string := "FetchWebPage".

(** The request handed to [client.Do]: method, URL, the header
    [User-Agent], the time-out of the client and of the context, and the
    state of the context the time-out is added to. *)
Record request := {
  req_method : string;
  req_url : string;
  req_user_agent : string;
  req_timeout : Z;
  req_parent : option error;
}.

(** What the tool reads of a response: the status, the header
    [Content-Type], and what [io.ReadAll] gives of the body cut at a
    number of bytes. *)
Record response := {
  StatusCode : Z;
  ContentType : string;
  ReadAll_LimitReader : Z -> error + string;
}.

(** [strings.Contains] *)
Fixpoint contains (substr s : list ascii) : bool :=
  prefixb substr s || match s with [] => false | _ :: s' => contains substr s' end.

Definition Contains (s substr : string) : bool :=
  contains (bytes_of substr) (bytes_of s).

Definition second : Z := 1000000000.

Section Execute.

Context {World : Type}.
Variable json_Unmarshal : string -> error + fetchWebPageArgs.
(** The network as [EnsureOutboundURLAllowed] sees it. *)
Variable env : Network.Env.
(** [http.NewRequest(method, url, nil)]: the error, if any. *)
Variable http_NewRequest : string -> string -> option error.
(** [client.Do]: the response or the error, and what [requestCtx.Err()]
    gives afterwards. *)
Variable Do : request -> World -> (error + response) * option error * World.
(** [strings.ToLower], on every rune, and [extractTextFromHTML]. *)
Variable ToLower : string -> string.
Variable extractTextFromHTML : string -> string.
(** [%d] of an [int] *)
Variable decimal : Z -> string.

Definition failed (err : error) : value * option error := (VString "", Some err).

(** The result, the world after the call, and the requests sent. *)
Definition Execute (ctx : ToolContext) (arguments : string) (w : World)
  : (value * option error) * World * list request :=
  match json_Unmarshal arguments with
  | inl err => (failed (wrap "error parsing arguments" err), w, [])
  | inr args =>
      let pageURL := TrimSpace (URL args) in
      if decide (pageURL = "")
      then (failed (ErrNew "url must be a non-empty string"), w, [])
      else
        match Network.EnsureOutboundURLAllowed env pageURL with
        | Some err => (failed (wrap "outbound URL blocked" err), w, [])
        | None =>
            match http_NewRequest "GET" pageURL with
            | Some err => (failed (wrap "error creating request" err), w, [])
            | None =>
                let req :=
                  {| req_method := "GET";
                     req_url := pageURL;
                     req_user_agent := "ShimiBot/1.0";
                     req_timeout := EffectiveTimeout ctx (20 * second);
                     req_parent := BaseContext ctx |} in
                let '(resp, ctxErr, w') := Do req w in
                match resp with
                | inl err =>
                    if decide (ctxErr = Some DeadlineExceeded)
                    then (failed (ErrNew "webpage request timed out"), w', [req])
                    else if decide (ctxErr = Some Canceled)
                    then (failed (ErrNew "webpage request cancelled"), w', [req])
                    else (failed (wrap "error fetching webpage" err), w', [req])
                | inr resp =>
                    match ReadAll_LimitReader resp (2 * 1024 * 1024) with
                    | inl err =>
                        (failed (wrap "error reading webpage response" err),
                         w', [req])
                    | inr body =>
                        if (StatusCode resp <? 200) || (300 <=? StatusCode resp)
                        then (failed (ErrNew ("webpage request failed with status "
                                              +:+ decimal (StatusCode resp))),
                              w', [req])
                        else
                          let contentType := ToLower (ContentType resp) in
                          let textContent :=
                            if Contains contentType "text/html"
                            then extractTextFromHTML body else body in
                          ((VMap [("url", VString pageURL);
                                  ("content_type", VString contentType);
                                  ("content", VString (TrimSpace textContent))],
                            None), w', [req])
                    end
                end
            end
        end
  end.

End Execute.

End FetchWebPageTool.

(* ===================================================================== *)
(** * Dispatch of a tool call ([internal/appcore/runtime.go])              *)
(* ===================================================================== *)

Module Appcore.
Import Go Tools Envelope Registry.

Section Dispatch.

Context {World : Type}.

(** [DispatchToolCall]; a nil registry is [None].  The logger is only
    written to. *)
Definition DispatchToolCall (toolRegistry : option (gmap string (Tool World)))
    (toolContext : ToolContext) (toolCall : Llm.ToolCall) (w : World)
  : string * World * list invocation :=
  let toolName := Llm.Name toolCall in
  let unknown :=
    ErrorEnvelope ("unknown tool '" +:+ toolName +:+ "'")
                  {[ "tool" := VString toolName ]} in
  match toolRegistry with
  | Some registry =>
      let '((output, matched), w', called) :=
        Execute_ registry toolCall toolContext w in
      if matched then (output, w', called) else (unknown, w', called)
  | None => (unknown, w, [])
  end.

End Dispatch.

(** [LogLevel] *)
Inductive LogLevel := LogLevelError | LogLevelWarn | LogLevelInfo | LogLevelDebug.

Definition errInvalidLogLevel (level : string) : error :=
  ErrNew ("invalid log level " +:+ quoted level
          +:+ " (use: error, warn, info, debug)").

Section Levels.

(** [strings.ToLower], on every rune (the names of the levels hold the
    letter [i], the lower case of U+0130 as well). *)
Variable ToLower : string -> string.

(** [parseLogLevel] *)
Definition parseLogLevel (level : string) : LogLevel * option error :=
  let l := ToLower (TrimSpace level) in
  if String.eqb l "error" then (LogLevelError, None)
  else if String.eqb l "warn" || String.eqb l "warning" then (LogLevelWarn, None)
  else if String.eqb l "info" || String.eqb l "" then (LogLevelInfo, None)
  else if String.eqb l "debug" then (LogLevelDebug, None)
  else (LogLevelInfo, Some (errInvalidLogLevel level)).

End Levels.

End Appcore.

(* ===================================================================== *)
(** * Command line ([internal/cli])                                        *)
(* ===================================================================== *)

Module Cli.
Import Go.

(** [Config]; the two time-outs are [time.Duration]s. *)
Record Config := {
  Prompt : string;
  SessionID : string;
  Interactive : bool;
  LogEnabled : bool;
  LogLevel : string;
  LogSink : string;
  LogFile : string;
  TurnTimeout : Z;
  ToolTimeout : Z;
  MaxTurns : Z;
  MaxToolCalls : Z;
}.

Definition one_of (s : string) (l : list string) : bool :=
  existsb (String.eqb s) l.

Section Validate.

(** [strings.ToLower], on every rune. *)
Variable ToLower : string -> string.

(** [validateConfig] *)
Definition validateConfig (config : Config) : option error :=
  let level := ToLower (TrimSpace (LogLevel config)) in
  if one_of level [""; "error"; "warn"; "warning"; "info"; "debug"] then
    let sink := ToLower (TrimSpace (LogSink config)) in
    if negb (one_of sink [""; "stderr"; "stdout"; "json-file"])
    then Some (ErrNew ("invalid value for -log-sink: " +:+ quoted (LogSink config)
                       +:+ " (use: stderr, stdout, json-file)"))
    else if String.eqb sink "json-file"
            && bool_decide (TrimSpace (LogFile config) = "")
    then Some (ErrNew "invalid value for -log-file: required when -log-sink=json-file")
    else if TurnTimeout config <=? 0
    then Some (ErrNew "invalid value for -turn-timeout: must be > 0")
    else if ToolTimeout config <=? 0
    then Some (ErrNew "invalid value for -tool-timeout: must be > 0")
    else if MaxTurns config <? 0
    then Some (ErrNew "invalid value for -max-turns: must be >= 0")
    else if MaxToolCalls config <? 0
    then Some (ErrNew "invalid value for -max-tool-calls: must be >= 0")
    else None
  else Some (ErrNew ("invalid value for -log-level: " +:+ quoted (LogLevel config)
                     +:+ " (use: error, warn, info, debug)")).

End Validate.

(** [dispatchLocalCommand]: handled, and whether to leave the loop. *)
Definition dispatchLocalCommand (input : string) : bool * bool :=
  if String.eqb input ":exit" || String.eqb input ":quit" then (true, true)
  else (false, false).

(** The line feed that ends what [RunInteractive] prints. *)
Definition newline : string := String "010" EmptyString.

(** What [RunInteractive] writes. *)
Inductive written :=
  | Stdout (text : string)
  | Stderr (text : string).

Section Interactive.

Context {World : Type}.
(** [TurnRunner] *)
Variable runTurn : string -> World -> (string * option error) * World.

(** The loop of [RunInteractive] over the lines the scanner yields; the
    result is the world, what was written, and the inputs handed to
    [runTurn]. *)
Fixpoint interact (lines : list string) (w : World)
  : World * list written * list string :=
  match lines with
  | [] => (w, [Stdout "you> "], [])
  | line :: rest =>
      let input := TrimSpace line in
      if decide (input = "") then
        let '(w', out, turns) := interact rest w in
        (w', Stdout "you> " :: out, turns)
      else
        let '(handled, shouldExit) := dispatchLocalCommand input in
        if handled then
          if shouldExit then (w, [Stdout "you> "], [])
          else
            let '(w', out, turns) := interact rest w in
            (w', Stdout "you> " :: out, turns)
        else
          let '((responseText, runErr), w1) := runTurn input w in
          let said :=
            match runErr with
            | Some err => Stderr ("error: " +:+ Error err +:+ newline)
            | None => Stdout ("assistant> " +:+ responseText +:+ newline)
            end in
          let '(w', out, turns) := interact rest w1 in
          (w', Stdout "you> " :: said :: out, input :: turns)
  end.

(** [RunInteractive]: [lines] are the lines read from the standard input
    and [scanErr] the error the scanner ends with, if any. *)
Definition RunInteractive (sessionID : string) (lines : list string)
    (scanErr : option error) (w : World)
  : option error * World * list written * list string :=
  let banner :=
    if decide (TrimSpace sessionID ≠ "")
    then [Stderr ("session: " +:+ sessionID +:+ newline)] else [] in
  let '(w', out, turns) := interact lines w in
  (scanErr, w', banner ++ out, turns).

End Interactive.

End Cli.

(* ===================================================================== *)
(** * Properties: byte strings                                             *)
(* ===================================================================== *)

Section GoStrings.
Import Go.

Lemma bytes_of_str l : bytes_of (str l) = l.
Proof. apply list_ascii_of_string_of_list_ascii. Qed.

Lemma str_bytes_of s : str (bytes_of s) = s.
Proof. apply string_of_list_ascii_of_string. Qed.

Lemma strip_fixed width fuel l : width l = 0%nat -> strip width fuel l = l.
Proof. intros H. destruct fuel as [|fuel]; simpl; [done|]. by rewrite H. Qed.

(** Trimming leaves alone a string that neither starts nor ends with a
    white-space rune. *)
Lemma TrimSpace_fixed l :
  space_width l = 0%nat -> space_width_rev (rev l) = 0%nat ->
  TrimSpace (str l) = str l.
Proof.
  intros Hl Hr. unfold TrimSpace, trim_right, trim_left.
  rewrite bytes_of_str, (strip_fixed _ _ l Hl), (strip_fixed _ _ _ Hr).
  by rewrite rev_involutive.
Qed.

Definition delimiter (c : ascii) : Prop :=
  c = "{"%char \/ c = "}"%char \/ c = "["%char \/ c = "]"%char.

Lemma delimiter_not_space_head c l : delimiter c -> space_width (c :: l) = 0%nat.
Proof. intros [->|[->|[->| ->]]]; reflexivity. Qed.

Lemma delimiter_not_space_last c l :
  delimiter c -> space_width_rev (c :: l) = 0%nat.
Proof. intros [->|[->|[->| ->]]]; reflexivity. Qed.

Lemma TrimSpace_delimited o c l :
  delimiter o -> delimiter c ->
  TrimSpace (str (o :: l ++ [c])) = str (o :: l ++ [c]).
Proof.
  intros Ho Hc. apply TrimSpace_fixed.
  - by apply delimiter_not_space_head.
  - change (o :: l ++ [c]) with ((o :: l) ++ [c]).
    rewrite rev_app_distr. simpl. by apply delimiter_not_space_last.
Qed.

End GoStrings.

(* ===================================================================== *)
(** * Properties: argument normalizer                                      *)
(* ===================================================================== *)

Section NormalizerFacts.
Import Go Normalizer.

Lemma slice_delimited (input : list ascii) (s i : nat) o c :
  input !! s = Some o -> input !! i = Some c -> (s < i)%nat ->
  exists mid, take (i + 1 - s) (drop s input) = o :: mid ++ [c].
Proof.
  intros Hs Hi Hlt.
  rewrite (drop_S _ _ _ Hs).
  replace (i + 1 - s)%nat with (S (S (i - s - 1))) by lia.
  rewrite firstn_cons.
  assert (drop (S s) input !! (i - s - 1)%nat = Some c) as Hc.
  { rewrite lookup_drop. rewrite <- Hi. f_equal. lia. }
  exists (take (i - s - 1) (drop (S s) input)).
  f_equal. by apply take_S_r.
Qed.

Lemma drop_lookup_head (input rest : list ascii) (i : nat) r :
  drop i input = r :: rest -> input !! i = Some r /\ drop (S i) input = rest.
Proof.
  intros H. split.
  - rewrite <- (Nat.add_0_r i), <- lookup_drop, H. done.
  - change (S i) with (1 + i)%nat. rewrite Nat.add_comm, <- drop_drop, H. done.
Qed.

Ltac zbool :=
  symmetry;
  first [ apply Z.eqb_neq; lia | apply Z.eqb_eq; lia
        | apply Z.leb_le; lia | apply Z.leb_gt; lia ].

Section Phases.
Variables (o c : ascii) (input : list ascii).
Hypotheses (Ho : delimiter o) (Hc : delimiter c).

Lemma extract_loop_cons r rest index start depth inString escaped :
  extract_loop o c input (r :: rest) index start depth inString escaped =
  let continue := extract_loop o c input rest (index + 1) in
  if inString then
    if escaped then continue start depth inString false
    else if Ascii.eqb r "\" then continue start depth inString true
    else if Ascii.eqb r "034" then continue start depth false escaped
    else continue start depth inString escaped
  else if Ascii.eqb r "034" then continue start depth true escaped
  else if Ascii.eqb r o then
    continue (if start =? -1 then index else start) (depth + 1)
             inString escaped
  else if Ascii.eqb r c then
    if depth =? 0 then continue start depth inString escaped
    else
      let depth := depth - 1 in
      if (depth =? 0) && (0 <=? start)
      then (TrimSpace (str (slice input start (index + 1))), true)
      else continue start depth inString escaped
  else continue start depth inString escaped.
Proof. reflexivity. Qed.

Lemma span_result_shift (input' : list ascii) start index (r : option nat) :
  match r with
  | Some n => (str (slice input' start (index + 1 + Z.of_nat n + 1)), true)
  | None => ("", false)
  end =
  match S <$> r with
  | Some n => (str (slice input' start (index + Z.of_nat n + 1)), true)
  | None => ("", false)
  end.
Proof.
  destruct r as [n|]; simpl; [|done].
  do 3 f_equal. lia.
Qed.

Lemma extract_phase2 rest : forall index start d inS esc,
  (esc = true -> inS = true) ->
  0 <= start < index ->
  drop (Z.to_nat index) input = rest ->
  input !! Z.to_nat start = Some o ->
  extract_loop o c input rest index start (Z.of_nat (S d)) inS esc =
  match close_offset o c (zip rest (outside_literals inS esc rest)) (S d) with
  | Some n => (str (slice input start (index + Z.of_nat n + 1)), true)
  | None => ("", false)
  end.
Proof.
  induction rest as [|r rest IH]; intros index start d inS esc Hesc Hidx Hdrop Hst.
  { reflexivity. }
  apply drop_lookup_head in Hdrop as [Hr Hdrop].
  assert (drop (Z.to_nat (index + 1)) input = rest) as Hdrop'.
  { rewrite <- Hdrop. f_equal. lia. }
  rewrite extract_loop_cons. cbn zeta.
  destruct inS.
  - (* inside a literal: the byte is not structural *)
    assert (forall inS' esc',
      (esc' = true -> inS' = true) ->
      extract_loop o c input rest (index + 1) start (Z.of_nat (S d)) inS' esc' =
      match close_offset o c
              (zip (r :: rest) (false :: outside_literals inS' esc' rest)) (S d) with
      | Some n => (str (slice input start (index + Z.of_nat n + 1)), true)
      | None => ("", false)
      end) as Hskip.
    { intros inS' esc' H'. rewrite IH by (done || lia).
      cbn [zip zip_with close_offset is_struct snd andb].
      apply span_result_shift. }
    cbn [outside_literals].
    destruct esc; [by apply Hskip|].
    destruct (Ascii.eqb r "\"); [by apply Hskip|].
    destruct (Ascii.eqb r "034"); by apply Hskip.
  - destruct esc; [by specialize (Hesc eq_refl)|].
    cbn [outside_literals].
    destruct (Ascii.eqb r "034") eqn:Hq.
    { rewrite IH by (done || lia).
      cbn [zip zip_with close_offset is_struct snd andb].
      apply span_result_shift. }
    cbn [zip zip_with close_offset is_struct snd fst andb].
    destruct (Ascii.eqb r o) eqn:Hro.
    { replace (start =? -1) with false by zbool.
      replace (Z.of_nat (S d) + 1) with (Z.of_nat (S (S d))) by lia.
      rewrite IH by (done || lia). apply span_result_shift. }
    destruct (Ascii.eqb r c) eqn:Hrc.
    2:{ rewrite IH by (done || lia). apply span_result_shift. }
    replace (Z.of_nat (S d) =? 0) with false by zbool.
    cbn zeta.
    replace (Z.of_nat (S d) - 1) with (Z.of_nat d) by lia.
    destruct d as [|d].
    + (* the closing delimiter of the span *)
      cbn [Z.of_nat Z.eqb andb].
      replace (0 <=? start) with true by zbool.
      apply Ascii.eqb_eq in Hrc as ->.
      unfold slice.
      destruct (slice_delimited input (Z.to_nat start) (Z.to_nat index) o c)
        as [mid Hmid]; [done..|lia|].
      replace (Z.to_nat (index + 1 - start))
        with (Z.to_nat index + 1 - Z.to_nat start)%nat by lia.
      replace (Z.to_nat (index + Z.of_nat 0 + 1 - start))
        with (Z.to_nat index + 1 - Z.to_nat start)%nat by lia.
      rewrite Hmid. by rewrite TrimSpace_delimited.
    + replace (Z.of_nat (S d) =? 0) with false by zbool.
      cbn [andb].
      rewrite IH by (done || lia). apply span_result_shift.
Qed.

Lemma extract_phase1 rest : forall index inS esc,
  (esc = true -> inS = true) ->
  0 <= index ->
  drop (Z.to_nat index) input = rest ->
  extract_loop o c input rest index (-1) 0 inS esc =
  let ml := zip rest (outside_literals inS esc rest) in
  match find_open o ml ≫= λ i,
        close_offset o c (drop (S i) ml) 1 ≫= λ n, Some (i, n) with
  | Some (i, n) =>
      (str (slice input (index + Z.of_nat i)
                  (index + Z.of_nat i + 1 + Z.of_nat n + 1)), true)
  | None => ("", false)
  end.
Proof.
  induction rest as [|r rest IH]; intros index inS esc Hesc Hidx Hdrop.
  { reflexivity. }
  apply drop_lookup_head in Hdrop as [Hr Hdrop].
  assert (drop (Z.to_nat (index + 1)) input = rest) as Hdrop'.
  { rewrite <- Hdrop. f_equal. lia. }
  assert (forall inS' esc' b,
    (esc' = true -> inS' = true) ->
    is_struct o (r, b) = false ->
    extract_loop o c input rest (index + 1) (-1) 0 inS' esc' =
    let ml := zip (r :: rest) (b :: outside_literals inS' esc' rest) in
    match find_open o ml ≫= λ i,
          close_offset o c (drop (S i) ml) 1 ≫= λ n, Some (i, n) with
    | Some (i, n) =>
        (str (slice input (index + Z.of_nat i)
                    (index + Z.of_nat i + 1 + Z.of_nat n + 1)), true)
    | None => ("", false)
    end) as Hskip.
  { intros inS' esc' b H' Hb. rewrite IH by (done || lia).
    cbn zeta. cbn [zip zip_with find_open]. rewrite Hb.
    destruct (find_open o _) as [i|]; [|done]. cbn.
    destruct (close_offset o c _ 1) as [n|]; [|done]. cbn.
    do 3 f_equal; lia. }
  rewrite extract_loop_cons. cbn zeta.
  destruct inS.
  - cbn [outside_literals].
    destruct esc; [by apply Hskip|].
    destruct (Ascii.eqb r "\"); [by apply Hskip|].
    destruct (Ascii.eqb r "034"); by apply Hskip.
  - destruct esc; [by specialize (Hesc eq_refl)|].
    cbn [outside_literals].
    destruct (Ascii.eqb r "034") eqn:Hq; [by apply Hskip|].
    destruct (Ascii.eqb r o) eqn:Hro.
    + (* the first opening delimiter: the span starts here *)
      change (if -1 =? -1 then index else -1) with index.
      change (0 + 1) with (Z.of_nat 1).
      rewrite (extract_phase2 rest (index + 1) index 0 false false);
        [|done|lia|done|].
      2:{ apply Ascii.eqb_eq in Hro as <-. done. }
      cbn [zip zip_with find_open is_struct snd fst andb]. rewrite Hro.
      cbn. destruct (close_offset o c _ 1) as [n|]; [|done]. cbn.
      do 3 f_equal; lia.
    + destruct (Ascii.eqb r c); cbn [Z.eqb];
        apply Hskip; try done; unfold is_struct; cbn; by rewrite Hro.
Qed.

End Phases.

(** The extraction loop returns the first balanced span. *)
Lemma extractBalancedJSON_span input o c :
  delimiter o -> delimiter c ->
  extractBalancedJSON input o c =
  match first_balanced_span input o c with
  | Some span => (span, true)
  | None => ("", false)
  end.
Proof.
  intros Ho Hc. unfold extractBalancedJSON, first_balanced_span.
  rewrite (extract_phase1 o c (bytes_of input) Ho Hc (bytes_of input) 0 false false)
    by done.
  cbn zeta.
  destruct (find_open o _) as [i|]; [|done]. cbn.
  destruct (close_offset o c _ 1) as [n|]; [|done]. cbn.
  unfold slice. do 3 f_equal; [f_equal; lia | f_equal; lia].
Qed.

(** C3.  [NormalizeJSONArguments] is the normalizer of the design document:
    white-space-only input gives the empty object; input whose trimmed form
    is valid JSON gives that trimmed text; otherwise the first balanced
    span of braces (found outside string literals, with backslash escapes
    honoured) is returned when it is valid JSON; otherwise the same with
    brackets; every other input is invalid. *)
Theorem NormalizeJSONArguments_refines_spec (raw : string) :
  NormalizeJSONArguments raw = normalize_spec raw.
Proof.
  unfold NormalizeJSONArguments, normalize_spec. cbn zeta.
  destruct (String.eqb_spec (TrimSpace raw) "") as [He|He].
  { by rewrite decide_True. }
  rewrite decide_False by done.
  destruct (json_Valid (TrimSpace raw)); [done|].
  rewrite !extractBalancedJSON_span by (unfold delimiter; auto).
  destruct (first_balanced_span (TrimSpace raw) "{" "}") as [s1|];
    destruct (first_balanced_span (TrimSpace raw) "[" "]") as [s2|]; cbn;
    repeat match goal with |- context [json_Valid ?s] =>
      destruct (json_Valid s); cbn end; done.
Qed.

End NormalizerFacts.

Section NormalizerExamples.
Import Go Normalizer Envelope.

(** Blank input, valid JSON with blanks around it, a span between prose
    with a brace inside a string, nested spans, and the first of two. *)
Example normalize_recovers :
  NormalizeJSONArguments "" = ("{}", true)
  /\ NormalizeJSONArguments "   " = ("{}", true)
  /\ NormalizeJSONArguments (dq "  {'a': 1}  ") = (dq "{'a': 1}", true)
  /\ NormalizeJSONArguments (dq "Sure! {'a': '}'} trailing")
     = (dq "{'a': '}'}", true)
  /\ NormalizeJSONArguments (dq "x {'a': {'b': [1, 2]}} y {'c': 3}")
     = (dq "{'a': {'b': [1, 2]}}", true)
  /\ NormalizeJSONArguments (dq "} {'a': 1}") = (dq "{'a': 1}", true).
Proof. by vm_compute. Qed.

(** A bracket span is tried when no brace span is found or the one found
    is not JSON. *)
Example normalize_falls_back_to_array :
  NormalizeJSONArguments "call with [1, 2, 3] please" = ("[1, 2, 3]", true)
  /\ NormalizeJSONArguments "{bad} then [1]" = ("[1]", true).
Proof. by vm_compute. Qed.

Example normalize_gives_up :
  NormalizeJSONArguments (dq "{'a': 1") = ("", false)
  /\ NormalizeJSONArguments "no json here" = ("", false)
  /\ NormalizeJSONArguments (dq "{'a': '\'} {'b': 2}") = ("", false)
  /\ NormalizeJSONArguments "{bad}" = ("", false).
Proof. by vm_compute. Qed.

End NormalizerExamples.

(* ===================================================================== *)
(** * Properties: command policy of the Bash tool                          *)
(* ===================================================================== *)

Section BashFacts.
Import Go Bash.

Context {Regexp : Type}.
Variable regexp_Compile : string -> error + Regexp.
Variable MatchString : Regexp -> string -> bool.
Variable Getenv : string -> string.

Local Abbreviation validate :=
  (validateCommandPolicy regexp_Compile MatchString Getenv).

(** The patterns a policy list holds. *)
Definition policy_list (name : string) : list string :=
  splitPolicyList (TrimSpace (Getenv name)).

(** Some pattern of the list does not compile. *)
Definition malformed (parts : list string) : bool :=
  existsb (λ part, match regexp_Compile part with inl _ => true | inr _ => false end)
          parts.

(** Some pattern of the list matches the command. *)
Definition listed (parts : list string) (command : string) : bool :=
  existsb (matches_source regexp_Compile MatchString command) parts.

Lemma fields_nil : fields [] [] = [].
Proof. reflexivity. Qed.

Lemma compilePolicyPatterns_list name :
  compilePolicyPatterns regexp_Compile (Getenv name)
  = compile_all regexp_Compile (policy_list name).
Proof.
  unfold compilePolicyPatterns, policy_list.
  destruct (decide (TrimSpace (Getenv name) = "")) as [->|]; done.
Qed.

Lemma compile_all_malformed parts :
  malformed parts = true <-> exists err, compile_all regexp_Compile parts = inl err.
Proof.
  induction parts as [|part parts IH]; simpl.
  - split; [done | intros [? ?]; done].
  - destruct (regexp_Compile part) as [e|r]; simpl.
    + split; eauto.
    + rewrite IH. destruct (compile_all regexp_Compile parts); split;
        intros [? ?]; simplify_eq; eauto.
Qed.

Lemma compile_all_listed parts patterns command :
  compile_all regexp_Compile parts = inr patterns ->
  existsb (λ pattern, MatchString pattern command) patterns = listed parts command
  /\ (patterns = [] <-> parts = []).
Proof.
  unfold listed.
  revert patterns. induction parts as [|part parts IH]; simpl; intros patterns H.
  - by simplify_eq.
  - unfold matches_source at 1.
    destruct (regexp_Compile part) as [e|r]; [done|].
    destruct (compile_all regexp_Compile parts) as [e|ps]; [done|].
    simplify_eq. destruct (IH ps eq_refl) as [<- _]. simpl. split; [done|].
    split; intros; done.
Qed.

(** C9.  The command policy: a command on the fixed block list is refused
    whatever the lists hold; otherwise a match of the deny list refuses
    the command whatever the allow list holds; otherwise a non-empty allow
    list refuses every command none of its patterns matches; a pattern
    that does not compile, in either list, never lets the command pass;
    and a command passes in the remaining case. *)
Theorem validateCommandPolicy_spec (command : string) :
  let deny := policy_list bashDenylistEnv in
  let allow := policy_list bashAllowlistEnv in
  (listed blockedCommandSources command = true ->
     validate command = Some errBlocked)
  /\ (listed blockedCommandSources command = false ->
      malformed deny = false -> listed deny command = true ->
      validate command = Some errDenylist)
  /\ (listed blockedCommandSources command = false ->
      malformed deny = false -> listed deny command = false ->
      malformed allow = false -> allow <> [] -> listed allow command = false ->
      validate command = Some errAllowlist)
  /\ (malformed deny = true \/ malformed allow = true ->
      exists err, validate command = Some err)
  /\ (listed blockedCommandSources command = false ->
      malformed deny = false -> listed deny command = false ->
      malformed allow = false -> (allow = [] \/ listed allow command = true) ->
      validate command = None).
Proof.
  intros deny allow. unfold validateCommandPolicy.
  rewrite !compilePolicyPatterns_list. fold deny allow.
  change (existsb (matches_source regexp_Compile MatchString command)
            blockedCommandSources)
    with (listed blockedCommandSources command).
  destruct (listed blockedCommandSources command) eqn:Hblock.
  { repeat split; intros; try done; eauto. }
  destruct (compile_all regexp_Compile deny) as [e|dps] eqn:Hdeny.
  { assert (malformed deny = true) as Hm by (apply compile_all_malformed; eauto).
    repeat split; intros; try congruence; eauto. }
  assert (malformed deny = false) as Hdm.
  { destruct (malformed deny) eqn:Hm; [|done].
    apply compile_all_malformed in Hm as [? ?]. congruence. }
  destruct (compile_all_listed deny dps command Hdeny) as [-> _].
  destruct (listed deny command) eqn:Hdl.
  { repeat split; intros; try congruence; eauto. }
  destruct (compile_all regexp_Compile allow) as [e|aps] eqn:Hallow.
  { assert (malformed allow = true) as Hm by (apply compile_all_malformed; eauto).
    repeat split; intros; try congruence; eauto. }
  assert (malformed allow = false) as Ham.
  { destruct (malformed allow) eqn:Hm; [|done].
    apply compile_all_malformed in Hm as [? ?]. congruence. }
  destruct (compile_all_listed allow aps command Hallow) as [Hal Hnil].
  destruct aps as [|a aps].
  { assert (allow = []) by (by apply Hnil).
    repeat split; intros; try congruence; try done.
    destruct H0; congruence. }
  rewrite Hal.
  assert (allow <> []) by (rewrite <- Hnil; done).
  destruct (listed allow command) eqn:Hall.
  - repeat split; intros; try congruence; try done.
    destruct H0; congruence.
  - repeat split; intros; try congruence; try done.
    + destruct H0; congruence.
    + destruct H4; congruence.
Qed.

End BashFacts.

Section BashExamples.
Import Go Bash.

(** The lists of the tests: one deny pattern, one allow pattern. *)
Definition sample_env (name : string) : string :=
  if decide (name = bashDenylistEnv) then "(?i)echo\s+hello"
  else if decide (name = bashAllowlistEnv) then " (?i)^echo\b ; "
  else "".

(** A deny list whose only pattern does not compile. *)
Definition broken_env (name : string) : string :=
  if decide (name = bashDenylistEnv) then "([" else "".

Definition no_env (name : string) : string := "".

Local Abbreviation policy := (validateCommandPolicy Regex.Compile Regex.MatchString).

(** The fixed block list: recursive delete from the root, shutdown,
    reboot, poweroff, file-system format, fork bomb. *)
Example blocklist_examples :
  policy no_env <$>
    ["rm -rf /"; "sudo RM  -rf /home"; "shutdown -h now"; "reboot"; "poweroff";
     "mkfs.ext4 /dev/sda1"; ":(){ :|:& };:"]
  = replicate 7 (Some errBlocked).
Proof. vm_compute. reflexivity. Qed.

Example harmless_examples :
  policy no_env <$> ["echo hi"; "ls -la"; "rm -rf ./build"; "reboots"]
  = replicate 4 None.
Proof. vm_compute. reflexivity. Qed.

Lemma validateCommandPolicy_spec_witness :
  policy sample_env "rm -rf /" = Some errBlocked
  /\ policy sample_env "echo hello" = Some errDenylist
  /\ policy sample_env "pwd" = Some errAllowlist
  /\ (exists err, policy broken_env "echo hi" = Some err)
  /\ policy sample_env "echo ok" = None.
Proof.
  split; [|split; [|split; [|split]]].
  - apply (validateCommandPolicy_spec Regex.Compile Regex.MatchString sample_env).
    vm_compute; reflexivity.
  - apply (validateCommandPolicy_spec Regex.Compile Regex.MatchString sample_env);
      vm_compute; reflexivity.
  - apply (validateCommandPolicy_spec Regex.Compile Regex.MatchString sample_env);
      try (vm_compute; reflexivity).
    vm_compute. discriminate.
  - apply (validateCommandPolicy_spec Regex.Compile Regex.MatchString broken_env).
    left. vm_compute; reflexivity.
  - apply (validateCommandPolicy_spec Regex.Compile Regex.MatchString sample_env);
      try (vm_compute; reflexivity).
    right. vm_compute; reflexivity.
Defined.

End BashExamples.

(* ===================================================================== *)
(** * Properties: lexical path functions                                   *)
(* ===================================================================== *)

Section PathFacts.
Import Go.

Lemma bytes_of_app a b : bytes_of (a +:+ b) = bytes_of a ++ bytes_of b.
Proof. induction a as [|c a IH]; simpl; [done|]. by rewrite IH. Qed.

Lemma str_app a b : str (a ++ b) = str a +:+ str b.
Proof. induction a as [|c a IH]; simpl; [done|]. by rewrite IH. Qed.

Lemma bytes_of_inj a b : bytes_of a = bytes_of b -> a = b.
Proof. intros H. by rewrite <- (str_bytes_of a), H, str_bytes_of. Qed.

Lemma prefixb_spec p l : prefixb p l = true <-> exists r, l = p ++ r.
Proof.
  revert l. induction p as [|a p IH]; intros l; simpl.
  - split; eauto.
  - destruct l as [|b l].
    + split; [done | intros [r Hr]; done].
    + destruct (Ascii.eqb_spec a b) as [->|Hne].
      * rewrite IH. split.
        -- intros [r ->]. eauto.
        -- intros [r Hr]. exists r. by simplify_eq.
      * split; [done | intros [r Hr]; by simplify_eq].
Qed.

(** A byte string with no separator in it. *)
Definition nosep (l : list ascii) : Prop := Forall (λ c, c <> sep) l.

Lemma split_sep_cons l : exists s ss, split_sep l = s :: ss.
Proof.
  induction l as [|c l (s & ss & IH)]; simpl; eauto.
  destruct (Ascii.eqb c sep); eauto. rewrite IH. eauto.
Qed.

Lemma split_sep_app l1 l2 :
  split_sep (l1 ++ sep :: l2) = split_sep l1 ++ split_sep l2.
Proof.
  induction l1 as [|c l1 IH]; simpl.
  - done.
  - destruct (Ascii.eqb c sep); rewrite IH; [done|].
    by destruct (split_sep_cons l1) as (s & ss & ->).
Qed.

Lemma split_sep_nosep l : nosep l -> split_sep l = [l].
Proof.
  induction 1 as [|c l Hc _ IH]; simpl; [done|].
  destruct (Ascii.eqb_spec c sep); [done|]. by rewrite IH.
Qed.

Lemma split_sep_all_nosep l : Forall nosep (split_sep l).
Proof.
  induction l as [|c l IH]; simpl.
  - repeat constructor.
  - destruct (Ascii.eqb_spec c sep) as [->|Hne].
    + constructor; [constructor | done].
    + destruct (split_sep l) as [|s ss]; [repeat constructor; done|].
      inversion IH; subst. constructor; [|done]. by constructor.
Qed.

Lemma split_join ss :
  ss <> [] -> Forall nosep ss -> split_sep (join_sep ss) = ss.
Proof.
  induction ss as [|s ss IH]; [done|]. intros _ Hall.
  inversion Hall as [|? ? Hs Hss]; subst.
  destruct ss as [|s' ss].
  - by apply split_sep_nosep.
  - change (join_sep (s :: s' :: ss)) with (s ++ sep :: join_sep (s' :: ss)).
    rewrite split_sep_app, (split_sep_nosep s Hs), IH; done.
Qed.

Lemma join_sep_cons s s' ss :
  join_sep (s :: s' :: ss) = s ++ sep :: join_sep (s' :: ss).
Proof. reflexivity. Qed.

Lemma join_split l : join_sep (split_sep l) = l.
Proof.
  induction l as [|c l IH]; [done|].
  cbn [split_sep].
  destruct (split_sep_cons l) as (s & ss & Hs). rewrite Hs in *.
  destruct (Ascii.eqb_spec c sep) as [->|Hne].
  - by rewrite join_sep_cons, IH.
  - destruct ss as [|s' ss].
    + simpl in *. by rewrite IH.
    + rewrite join_sep_cons in *. by rewrite <- IH.
Qed.

(** A path element with no separator in it. *)
Definition plain (e : string) : Prop := nosep (bytes_of e).

Lemma segments_plain p : Forall plain (segments p).
Proof.
  unfold segments. apply Forall_fmap.
  eapply Forall_impl; [apply split_sep_all_nosep|].
  intros l Hl. unfold plain. simpl. by rewrite bytes_of_str.
Qed.

Lemma fmap_str_bytes (ss : list string) : str <$> (bytes_of <$> ss) = ss.
Proof.
  induction ss as [|s ss IH]; [done|].
  rewrite !fmap_cons, str_bytes_of. by f_equal.
Qed.

Lemma fmap_bytes_str (ls : list (list ascii)) : bytes_of <$> (str <$> ls) = ls.
Proof.
  induction ls as [|l ls IH]; [done|].
  rewrite !fmap_cons, bytes_of_str. by f_equal.
Qed.

Lemma segments_join ss :
  ss <> [] -> Forall plain ss -> segments (join_segments ss) = ss.
Proof.
  intros Hne Hall. unfold segments, join_segments.
  rewrite bytes_of_str, split_join.
  - apply fmap_str_bytes.
  - by destruct ss.
  - by apply Forall_fmap.
Qed.

Lemma join_segments_segments p : join_segments (segments p) = p.
Proof.
  unfold segments, join_segments.
  by rewrite fmap_bytes_str, join_split, str_bytes_of.
Qed.

Lemma segments_app a b :
  segments (a +:+ "/" +:+ b) = segments a ++ segments b.
Proof.
  unfold segments. rewrite !bytes_of_app. simpl.
  by rewrite split_sep_app, fmap_app.
Qed.

Lemma segments_rooted p : segments (String sep p) = "" :: segments p.
Proof. reflexivity. Qed.

Lemma join_segments_rooted_cons x xs :
  join_segments ("" :: x :: xs) = String sep (join_segments (x :: xs)).
Proof. unfold join_segments. by rewrite !fmap_cons, join_sep_cons. Qed.

Lemma segments_empty : segments "" = [""].
Proof. reflexivity. Qed.

(** An ordinary path element: not empty, not [.], not [..], no separator. *)
Definition name (e : string) : Prop :=
  e <> "" /\ e <> "." /\ e <> ".." /\ plain e.

(** The element stack of [Clean], top first: ordinary elements above the
    [..] elements a relative path starts with. *)
Definition cleaned_stack (rooted : bool) (stack : list string) : Prop :=
  exists n names,
    stack = names ++ replicate n ".." /\ Forall name names
    /\ (rooted = true -> n = 0%nat).

(** The elements of a cleaned path. *)
Definition cleaned (rooted : bool) (cs : list string) : Prop :=
  cleaned_stack rooted (rev cs).

Lemma plain_dotdot : plain "..".
Proof. repeat constructor; done. Qed.

Lemma clean_step_name rooted stack e :
  e <> "" -> e <> "." -> e <> ".." -> clean_step rooted stack e = e :: stack.
Proof.
  intros. unfold clean_step. by rewrite !decide_False.
Qed.

Lemma cleaned_stack_nil rooted : cleaned_stack rooted [].
Proof. exists 0%nat, []. by repeat split. Qed.

Lemma cleaned_stack_tail rooted e stack :
  cleaned_stack rooted (e :: stack) -> cleaned_stack rooted stack.
Proof.
  intros (n & names & Heq & Hnames & Hr).
  destruct names as [|e' names]; simpl in Heq.
  - destruct n as [|n]; simpl in Heq; simplify_eq.
    exists n, []. repeat split; [done|]. intros Hrt. by specialize (Hr Hrt).
  - simplify_eq. inversion Hnames; subst. by exists n, names.
Qed.

Lemma cleaned_stack_top rooted e stack :
  cleaned_stack rooted (e :: stack) ->
  name e \/ (e = ".." /\ rooted = false /\ (stack = [] \/ exists below, stack = ".." :: below)).
Proof.
  intros (n & names & Heq & Hnames & Hr).
  destruct names as [|e' names]; simpl in Heq.
  - right. destruct n as [|n]; simpl in Heq; simplify_eq.
    split; [done|]. split.
    + destruct rooted; [by specialize (Hr eq_refl)|done].
    + destruct n; simpl; eauto.
  - simplify_eq. inversion Hnames; subst. by left.
Qed.

Lemma clean_step_cleaned rooted stack e :
  plain e -> cleaned_stack rooted stack ->
  cleaned_stack rooted (clean_step rooted stack e).
Proof.
  intros He Hst. unfold clean_step.
  destruct (decide (e = "")) as [|Hn1]; [done|].
  destruct (decide (e = ".")) as [|Hn2]; [done|].
  destruct (decide (e = "..")) as [->|Hn3].
  - destruct stack as [|top below].
    + destruct rooted; [apply cleaned_stack_nil|].
      exists 1%nat, []. by repeat split.
    + destruct (decide (top = "..")) as [->|Hne].
      * destruct (cleaned_stack_top _ _ _ Hst) as [(_ & _ & ? & _)|(_ & -> & _)];
          [done|].
        destruct Hst as (k & names & Heq & Hnames & _).
        destruct names as [|e' names]; simpl in Heq.
        -- exists (S k), []. simpl. rewrite <- Heq. by repeat split.
        -- simplify_eq. inversion Hnames as [|? ? (_ & _ & ? & _)]; done.
      * by eapply cleaned_stack_tail.
  - destruct Hst as (k & names & -> & Hnames & Hr).
    exists k, (e :: names). repeat split; [|done]. by constructor.
Qed.

Lemma fold_clean_cleaned rooted ss stack :
  Forall plain ss -> cleaned_stack rooted stack ->
  cleaned_stack rooted (fold_left (clean_step rooted) ss stack).
Proof.
  intros Hss. revert stack. induction Hss as [|e ss He _ IH]; intros stack Hst.
  - done.
  - simpl. apply IH. by apply clean_step_cleaned.
Qed.

Lemma clean_segments_cleaned rooted p :
  cleaned rooted (clean_segments rooted (segments p)).
Proof.
  unfold cleaned, clean_segments. rewrite rev_involutive.
  apply fold_clean_cleaned; [apply segments_plain | apply cleaned_stack_nil].
Qed.

(** Cleaning changes nothing in the elements of a cleaned path. *)
Lemma clean_segments_fixed rooted cs :
  cleaned rooted cs -> clean_segments rooted cs = cs.
Proof.
  unfold cleaned, clean_segments.
  induction cs as [|e cs IH] using rev_ind; [done|].
  rewrite rev_app_distr. simpl. intros Hst.
  rewrite fold_left_app. simpl.
  assert (fold_left (clean_step rooted) cs [] = rev cs) as ->.
  { rewrite <- (rev_involutive (fold_left _ _ _)), IH; [done|].
    by eapply cleaned_stack_tail. }
  assert (clean_step rooted (rev cs) e = e :: rev cs) as ->.
  { destruct (cleaned_stack_top _ _ _ Hst) as [(? & ? & ? & _)|(-> & -> & Hbelow)].
    - by rewrite clean_step_name.
    - unfold clean_step. simpl.
      destruct Hbelow as [->|[below ->]]; done. }
  simpl. by rewrite rev_involutive.
Qed.

Lemma cleaned_true_names cs : cleaned true cs <-> Forall name cs.
Proof.
  unfold cleaned, cleaned_stack. split.
  - intros (k & names & Heq & Hnames & Hk). rewrite (Hk eq_refl) in Heq.
    simpl in Heq. rewrite app_nil_r in Heq. subst names.
    rewrite <- (rev_involutive cs). by apply Forall_rev.
  - intros H. exists 0%nat, (rev cs). simpl. rewrite app_nil_r.
    repeat split. by apply Forall_rev.
Qed.

Lemma name_plain e : name e -> plain e.
Proof. by intros (_ & _ & _ & ?). Qed.

Lemma cleaned_plain rooted cs :
  cleaned rooted cs -> Forall (λ e, plain e /\ e <> "") cs.
Proof.
  intros (k & names & Heq & Hnames & _).
  rewrite <- (rev_involutive cs), Heq. apply Forall_rev, Forall_app. split.
  - eapply Forall_impl; [done|]. by intros e (? & _ & _ & ?).
  - apply Forall_replicate. split; [apply plain_dotdot | done].
Qed.

Lemma IsAbs_rooted p : IsAbs (String sep p) = true.
Proof. reflexivity. Qed.

Lemma bytes_of_join_cons e es :
  exists tail, bytes_of (join_segments (e :: es)) = bytes_of e ++ tail
               /\ (tail = [] \/ exists j, tail = sep :: j).
Proof.
  unfold join_segments. rewrite bytes_of_str.
  destruct es as [|e' es].
  - exists []. simpl. rewrite app_nil_r. eauto.
  - rewrite !fmap_cons, join_sep_cons. eauto.
Qed.

Lemma prefixb_sep c l : prefixb ["/"%char] (c :: l) = Ascii.eqb "/" c.
Proof. cbn [prefixb]. by destruct (Ascii.eqb "/" c). Qed.

Lemma IsAbs_join_plain e es :
  plain e -> e <> "" -> IsAbs (join_segments (e :: es)) = false.
Proof.
  intros He Hne. unfold IsAbs, HasPrefix.
  destruct (bytes_of_join_cons e es) as (tail & -> & _).
  destruct (bytes_of e) as [|c l] eqn:Hb.
  - destruct e; done.
  - unfold plain in He. rewrite Hb in He.
    inversion He as [|? ? Hc _]; subst.
    change (bytes_of "/") with ["/"%char].
    rewrite <- app_comm_cons, prefixb_sep.
    destruct (Ascii.eqb_spec "/" c) as [<-|]; [by destruct Hc | done].
Qed.

Lemma IsAbs_render rooted cs : cleaned rooted cs -> IsAbs (render rooted cs) = rooted.
Proof.
  intros Hcs. destruct rooted; [done|].
  destruct cs as [|e es]; [done|].
  apply cleaned_plain in Hcs. inversion Hcs as [|? ? [? ?] _]; subst.
  by apply IsAbs_join_plain.
Qed.

Lemma clean_segments_skip rooted ss :
  clean_segments rooted ("" :: ss) = clean_segments rooted ss.
Proof. reflexivity. Qed.

Lemma segments_render rooted cs :
  cleaned rooted cs ->
  clean_segments rooted (segments (render rooted cs)) = cs.
Proof.
  intros Hcs. pose proof (cleaned_plain _ _ Hcs) as Hp.
  assert (Forall plain cs) by (eapply Forall_impl; [done|]; by intros ? [? ?]).
  destruct rooted; simpl.
  - rewrite segments_rooted, clean_segments_skip.
    destruct cs as [|e es]; [done|].
    rewrite segments_join by done. by apply clean_segments_fixed.
  - destruct cs as [|e es]; [done|].
    rewrite segments_join by done. by apply clean_segments_fixed.
Qed.

(** [Clean] returns the text of a cleaned element list, and maps such a
    text to itself. *)
Lemma Clean_render rooted cs :
  cleaned rooted cs -> Clean (render rooted cs) = render rooted cs.
Proof.
  intros Hcs. unfold Clean.
  by rewrite (IsAbs_render _ _ Hcs), (segments_render _ _ Hcs).
Qed.

Lemma Clean_idempotent p : Clean (Clean p) = Clean p.
Proof. apply Clean_render, clean_segments_cleaned. Qed.

Lemma IsAbs_Clean p : IsAbs (Clean p) = IsAbs p.
Proof. apply IsAbs_render, clean_segments_cleaned. Qed.

Lemma render_true_not_dot cs : render true cs <> ".".
Proof. done. Qed.

Lemma filter_nonempty_names (cs : list string) :
  Forall (λ e, plain e /\ e <> "") cs -> filter (λ e, e <> "") cs = cs.
Proof.
  induction 1 as [|e cs [_ He] _ IH]; [done|].
  rewrite filter_cons, decide_True by done. by rewrite IH.
Qed.

Lemma clean_elements_render cs :
  cleaned true cs -> clean_elements (render true cs) = cs.
Proof.
  intros Hcs. unfold clean_elements.
  rewrite (Clean_render _ _ Hcs). rewrite decide_False by done.
  pose proof (cleaned_plain _ _ Hcs) as Hp.
  simpl. rewrite segments_rooted, filter_cons, decide_False by naive_solver.
  destruct cs as [|e es]; [done|].
  rewrite segments_join; [by apply filter_nonempty_names|done|].
  eapply Forall_impl; [done|]. by intros ? [? ?].
Qed.

(** *** Relative paths between cleaned rooted paths *)

Lemma strip_common_spec bs ts bs' ts' :
  strip_common bs ts = (bs', ts') ->
  exists common,
    bs = common ++ bs' /\ ts = common ++ ts'
    /\ (forall b t, head bs' = Some b -> head ts' = Some t -> b <> t).
Proof.
  revert ts. induction bs as [|b bs IH]; intros ts H; simpl in H.
  - simplify_eq. exists []. by repeat split.
  - destruct ts as [|t ts].
    + simplify_eq. exists []. by repeat split.
    + destruct (decide (b = t)) as [->|Hne].
      * destruct (IH _ H) as (common & -> & -> & Hd).
        exists (t :: common). by repeat split.
      * simplify_eq. exists []. repeat split. intros ?? [= <-] [= <-]. done.
Qed.

Lemma strip_common_prefix bs ts bs' ts' :
  strip_common bs ts = (bs', ts') -> (bs' = [] <-> bs `prefix_of` ts).
Proof.
  intros H. destruct (strip_common_spec _ _ _ _ H) as (common & -> & -> & Hd).
  split.
  - intros ->. rewrite app_nil_r. by apply prefix_app_r.
  - intros [k Hk]. destruct bs' as [|b bs'']; [done|].
    rewrite <- app_assoc in Hk. apply app_inv_head in Hk. subst ts'.
    by destruct (Hd b b).
Qed.

(** The test of [EnsurePathAllowed] on a relative path. *)
Definition escapes (relPath : string) : bool :=
  String.eqb relPath ".." || HasPrefix relPath "../".

Lemma join_dotdot_escapes rest : escapes (join_segments (".." :: rest)) = true.
Proof.
  unfold escapes, HasPrefix.
  destruct (bytes_of_join_cons ".." rest) as (tail & Hb & [->|[j ->]]).
  - rewrite app_nil_r in Hb. apply (bytes_of_inj _ "..") in Hb. by rewrite Hb.
  - rewrite Hb. apply orb_true_iff. right. reflexivity.
Qed.

Lemma join_name_stays t rest : name t -> escapes (join_segments (t :: rest)) = false.
Proof.
  intros (Hn1 & Hn2 & Hn3 & Hp). unfold escapes, HasPrefix.
  destruct (bytes_of_join_cons t rest) as (tail & Hb & Htail).
  apply orb_false_iff. split.
  - apply String.eqb_neq. intros Heq. rewrite Heq in Hb.
    destruct Htail as [->|[j ->]].
    + rewrite app_nil_r in Hb. by apply (bytes_of_inj "..") in Hb.
    + unfold plain in Hp.
      destruct (bytes_of t) as [|c1 [|c2 [|c3 l]]] eqn:Ht; simplify_eq/=.
  - rewrite Hb. unfold plain in Hp.
    destruct (prefixb (bytes_of "../") (bytes_of t ++ tail)) eqn:E; [|done].
    apply prefixb_spec in E as [r Hr]. exfalso.
    destruct (bytes_of t) as [|c1 [|c2 [|c3 l]]] eqn:Ht.
    + destruct t; done.
    + destruct Htail as [->|[j ->]]; simplify_eq/=.
    + simplify_eq/=. by apply (bytes_of_inj t "..") in Ht.
    + simplify_eq/=. inversion Hp as [|? ? _ Hp2]; subst.
      inversion Hp2 as [|? ? _ Hp3]; subst. inversion Hp3 as [|? ? Hc3 _]; subst.
      by destruct Hc3.
Qed.

(** Between two cleaned rooted paths [Rel] always gives a result, and the
    result climbs out of the base exactly when the elements of the base
    are not a prefix of those of the target. *)
Lemma Rel_within bs ts :
  cleaned true bs -> cleaned true ts ->
  exists rel, Rel (render true bs) (render true ts) = Some rel
              /\ (escapes rel = false <-> bs `prefix_of` ts).
Proof.
  intros Hbs Hts. unfold Rel.
  rewrite (Clean_render _ _ Hbs), (Clean_render _ _ Hts).
  destruct (decide (render true ts = render true bs)) as [Heq|Hne].
  { exists ".". split; [done|]. split; [|done]. intros _.
    apply (f_equal clean_elements) in Heq.
    rewrite !clean_elements_render in Heq by done. by subst. }
  rewrite !(IsAbs_render true) by done. cbn [Bool.eqb negb].
  rewrite !clean_elements_render by done.
  destruct (strip_common bs ts) as [bs' ts'] eqn:Hstrip.
  pose proof (strip_common_prefix _ _ _ _ Hstrip) as Hprefix.
  destruct (strip_common_spec _ _ _ _ Hstrip) as (common & Hb & Ht & _).
  apply cleaned_true_names in Hbs, Hts.
  destruct bs' as [|b bs''].
  - destruct ts' as [|t ts''].
    { rewrite !app_nil_r in *. by subst. }
    eexists. split; [done|].
    rewrite join_name_stays; [by rewrite <- Hprefix|].
    rewrite Ht in Hts. apply Forall_app in Hts as [_ Hts]. by inversion Hts.
  - assert (name b) as Hname.
    { rewrite Hb in Hbs. apply Forall_app in Hbs as [_ Hbs]. by inversion Hbs. }
    rewrite decide_False by apply Hname.
    eexists. split; [done|].
    rewrite fmap_cons, <- app_comm_cons, join_dotdot_escapes.
    split; [done|]. intros Hp. by apply Hprefix in Hp.
Qed.

(** *** [Dir] and [Join] on cleaned paths *)

Lemma clean_segments_snoc_empty rooted ss :
  clean_segments rooted (ss ++ [""]) = clean_segments rooted ss.
Proof. unfold clean_segments. by rewrite fold_left_app. Qed.


Lemma IsAbs_snoc p q : p <> "" -> IsAbs (p +:+ q) = IsAbs p.
Proof. destruct p; done. Qed.

Lemma cleaned_snoc rooted cs e :
  cleaned rooted cs -> name e -> cleaned rooted (cs ++ [e]).
Proof.
  intros (k & names & Heq & Hnames & Hk) He. unfold cleaned.
  rewrite rev_app_distr. simpl. rewrite Heq.
  exists k, (e :: names). repeat split; [|done]. by constructor.
Qed.

Lemma cleaned_snoc_inv rooted cs e :
  cleaned rooted (cs ++ [e]) -> cleaned rooted cs.
Proof.
  unfold cleaned. rewrite rev_app_distr. simpl. apply cleaned_stack_tail.
Qed.

Lemma join_segments_nonempty e es : e <> "" -> join_segments (e :: es) <> "".
Proof.
  intros He Hj. destruct (bytes_of_join_cons e es) as (tail & Hb & _).
  rewrite Hj in Hb. destruct e; done.
Qed.

(** Cleaning a cleaned path followed by a separator gives the path back. *)
Lemma Clean_render_slash rooted cs :
  cleaned rooted cs -> cs <> [] ->
  Clean (render rooted cs +:+ "/") = render rooted cs.
Proof.
  intros Hcs Hne. unfold Clean.
  assert (render rooted cs <> "") as Hr.
  { destruct rooted; [done|]. destruct cs as [|e es]; [done|].
    apply join_segments_nonempty.
    apply cleaned_plain in Hcs. inversion Hcs as [|? ? [? ?] _]; by subst. }
  rewrite (IsAbs_snoc _ _ Hr), (IsAbs_render _ _ Hcs).
  change (render rooted cs +:+ "/") with (render rooted cs +:+ "/" +:+ "").
  rewrite segments_app, segments_empty, clean_segments_snoc_empty.
  by rewrite segments_render.
Qed.

Lemma Dir_render rooted cs e :
  cleaned rooted cs -> name e -> Dir (render rooted (cs ++ [e])) = render rooted cs.
Proof.
  intros Hcs He. pose proof (cleaned_snoc _ _ _ Hcs He) as Hcs'.
  pose proof (cleaned_plain _ _ Hcs') as Hp.
  assert (Forall plain (cs ++ [e])) as Hplain.
  { eapply Forall_impl; [done|]. by intros ? [? ?]. }
  unfold Dir. destruct rooted.
  - cbn [render]. rewrite segments_rooted, segments_join; [|by destruct cs|done].
    change (rev ("" :: cs ++ [e])) with (rev (cs ++ [e]) ++ [""]).
    rewrite rev_app_distr. cbn [rev app].
    destruct (rev cs ++ [""]) as [|x xs] eqn:E; [by destruct (rev cs)|].
    rewrite <- E, rev_app_distr, rev_involutive. cbn [rev app].
    destruct cs as [|c cs0]; [done|].
    rewrite join_segments_rooted_cons.
    by apply (Clean_render_slash true).
  - replace (render false (cs ++ [e])) with (join_segments (cs ++ [e]))
      by (by destruct cs).
    rewrite segments_join; [|by destruct cs|done].
    rewrite rev_app_distr. cbn [rev app].
    destruct (rev cs) as [|x xs] eqn:E.
    { apply (f_equal (@rev string)) in E. rewrite rev_involutive in E. by subst. }
    rewrite <- E, rev_involutive.
    assert (cs <> []) as Hne by (intros ->; done).
    replace (join_segments cs) with (render false cs) by (by destruct cs).
    by apply (Clean_render_slash false).
Qed.

Lemma Dir_root : Dir "/" = "/".
Proof. reflexivity. Qed.


End PathFacts.

(* ===================================================================== *)
(** * Properties: path confinement                                         *)
(* ===================================================================== *)

Section ConfinementFacts.
Import Go Os Tools.

(** The text of a cleaned rooted path. *)
Definition real_path (p : string) : Prop :=
  exists cs, cleaned true cs /\ p = render true cs.

Lemma Clean_rooted_real p : IsAbs p = true -> real_path (Clean p).
Proof.
  intros Ha. exists (clean_segments true (segments p)). split.
  - apply clean_segments_cleaned.
  - unfold Clean. by rewrite Ha.
Qed.

Lemma real_path_IsAbs p : real_path p -> IsAbs p = true.
Proof. by intros (cs & _ & ->). Qed.

Lemma IsAbs_inv p : IsAbs p = true -> exists p', p = String sep p'.
Proof.
  unfold IsAbs, HasPrefix. destruct p as [|c p]; [done|].
  change (bytes_of "/") with ["/"%char].
  change (bytes_of (String c p)) with (c :: bytes_of p).
  rewrite prefixb_sep. intros <-%Ascii.eqb_eq. by exists p.
Qed.

Lemma IsAbs_app p q : IsAbs p = true -> IsAbs (p +:+ q) = true.
Proof. intros (p' & ->)%IsAbs_inv. done. Qed.

Lemma Join_rooted_real a b : IsAbs a = true -> real_path (Join a b).
Proof.
  intros Ha. unfold Join.
  destruct (decide (a = "")) as [->|]; [done|].
  by apply Clean_rooted_real, IsAbs_app.
Qed.

Lemma Abs_real os p : real_path (Abs os p).
Proof.
  unfold Abs. destruct (IsAbs p) eqn:Ha.
  - by apply Clean_rooted_real.
  - by apply Join_rooted_real.
Qed.

Lemma walkSymlinks_seg_rooted os segs : forall dest,
  match walkSymlinks_seg os true dest segs with
  | WsDone rooted _ | WsLink rooted _ _ => rooted = true
  | WsErr _ => True
  end.
Proof.
  induction segs as [|e rest IH]; intros dest; simpl; [done|].
  repeat case_decide; try apply IH.
  destruct (Lstat os _) as [err|[| |link]]; try done; try apply IH.
  - destruct rest; [apply IH | done].
  - by destruct (IsAbs link).
Qed.

Lemma walkSymlinks_real links : forall os dest segs r,
  walkSymlinks links os true dest segs = inr r -> real_path r.
Proof.
  induction links as [|links IH]; intros os dest segs r H; simpl in H;
    pose proof (walkSymlinks_seg_rooted os segs dest) as Hr;
    destruct (walkSymlinks_seg os true dest segs) as [rooted d|err|rooted d s];
    try done; subst rooted.
  - simplify_eq. by apply Clean_rooted_real.
  - simplify_eq. by apply Clean_rooted_real.
  - by eapply IH.
Qed.

Lemma EvalSymlinks_real os p r :
  IsAbs p = true -> EvalSymlinks os p = inr r -> real_path r.
Proof. unfold EvalSymlinks. intros ->. apply walkSymlinks_real. Qed.

Lemma segments_cons p : exists s ss, segments p = s :: ss.
Proof.
  unfold segments. destruct (split_sep_cons (bytes_of p)) as (s & ss & ->).
  rewrite fmap_cons. eauto.
Qed.

Lemma IsAbs_Dir p : IsAbs p = true -> IsAbs (Dir p) = true.
Proof.
  intros (p' & ->)%IsAbs_inv. unfold Dir. rewrite segments_rooted.
  destruct (segments_cons p') as (s & ss & ->).
  change (rev ("" :: s :: ss)) with (rev (s :: ss) ++ [""]).
  destruct (rev (s :: ss)) as [|y ys] eqn:El.
  { apply (f_equal List.length) in El. rewrite length_rev in El. done. }
  destruct ys as [|z zs]; cbn [app]; rewrite IsAbs_Clean; [done|].
  change (rev (z :: zs ++ [""])) with (rev (zs ++ [""]) ++ [z]).
  rewrite rev_app_distr. cbn [rev app].
  destruct (rev zs ++ [z]) as [|x xs] eqn:E; [by destruct (rev zs)|].
  by rewrite join_segments_rooted_cons.
Qed.

Lemma findExistingParent_loop_rooted fuel : forall os current q,
  IsAbs current = true ->
  findExistingParent_loop fuel os current = Some (inr q) -> IsAbs q = true.
Proof.
  induction fuel as [|fuel IH]; intros os current q Ha; simpl; [done|].
  destruct (Lstat os current) as [err|n]; [|by intros [= <-]].
  destruct (IsNotExist err); simpl; [|done].
  case_decide; [done|]. apply IH. by apply IsAbs_Dir.
Qed.

Lemma findExistingParent_rooted os p q :
  IsAbs p = true -> findExistingParent os p = inr q -> IsAbs q = true.
Proof.
  intros Ha. unfold findExistingParent.
  destruct (findExistingParent_loop _ os (Clean p)) as [[e|q']|] eqn:E;
    simpl; try done.
  intros [= <-]. eapply findExistingParent_loop_rooted; [|done].
  by rewrite IsAbs_Clean.
Qed.

(** The real path of an absolute path is a cleaned rooted path. *)
Lemma resolveRealPath_real os p r :
  IsAbs p = true -> resolveRealPath os p = inr r -> real_path r.
Proof.
  intros Ha. unfold resolveRealPath.
  destruct (EvalSymlinks os p) as [err|r'] eqn:E.
  2:{ intros [= <-]. by eapply EvalSymlinks_real. }
  destruct (IsNotExist err); simpl; [|done].
  destruct (findExistingParent os p) as [err'|parent] eqn:Ep; [done|].
  destruct (EvalSymlinks os parent) as [err'|realParent] eqn:E2; [done|].
  destruct (Rel parent p) as [remainder|]; [|done].
  intros [= <-]. apply Clean_rooted_real.
  apply real_path_IsAbs, Join_rooted_real, real_path_IsAbs.
  eapply EvalSymlinks_real; [|done]. by eapply findExistingParent_rooted.
Qed.

(** [p] lies inside or equals [root]: the elements of [root] are the first
    elements of [p]. *)
Definition within (root p : string) : Prop :=
  clean_elements root `prefix_of` clean_elements p.

Lemma Rel_real root p :
  real_path root -> real_path p ->
  exists rel, Rel root p = Some rel /\ (escapes rel = false <-> within root p).
Proof.
  intros (bs & Hbs & ->) (ts & Hts & ->). unfold within.
  rewrite !clean_elements_render by done. by apply Rel_within.
Qed.

(** What [EnsurePathAllowed] needs before it compares anything: a root
    that is not blank, whose symbolic links resolve, and a candidate whose
    real path can be computed. *)
Definition resolved (os : state) (ctx : ToolContext) (p : string)
    (realRoot realPath : string) : Prop :=
  TrimSpace (AllowedRoot ctx) <> ""
  /\ EvalSymlinks os (Abs os (TrimSpace (AllowedRoot ctx))) = inr realRoot
  /\ resolveRealPath os (Abs os p) = inr realPath.

(** The decision of [EnsurePathAllowed], in terms of the two paths it
    computes itself with [EvalSymlinks] and [resolveRealPath] from the
    cleaned absolute forms: it accepts exactly when the root is not blank,
    both paths can be computed, and the second lies inside or equals the
    first.  It answers "path is outside allowed_root" exactly when both
    can be computed and the second is not inside the first, which is
    exactly when the relative path from the first to the second is [..]
    or starts with [../].  In every other case (a blank root, a root or a
    candidate whose links cannot be resolved) it rejects with another
    error.  Nothing is said here of the file the operating system opens
    for the path as it is written. *)
Theorem EnsurePathAllowed_accepts_iff (os : state) (ctx : ToolContext) (p : string) :
  (EnsurePathAllowed os ctx p = None <->
     exists realRoot realPath,
       resolved os ctx p realRoot realPath /\ within realRoot realPath)
  /\ (EnsurePathAllowed os ctx p = Some errOutsideAllowedRoot <->
      exists realRoot realPath,
        resolved os ctx p realRoot realPath /\ ~ within realRoot realPath)
  /\ (forall realRoot realPath,
        resolved os ctx p realRoot realPath ->
        exists relPath,
          Rel realRoot realPath = Some relPath
          /\ (within realRoot realPath <->
              ~ (relPath = ".." \/ HasPrefix relPath "../" = true)))
  /\ ((~ exists realRoot realPath, resolved os ctx p realRoot realPath) ->
      exists err, EnsurePathAllowed os ctx p = Some err
                  /\ err <> errOutsideAllowedRoot).
Proof.
  assert (forall realRoot realPath,
    resolved os ctx p realRoot realPath ->
    exists rel, Rel realRoot realPath = Some rel
                /\ (escapes rel = false <-> within realRoot realPath)) as Hrel.
  { intros realRoot realPath (_ & Hroot & Hpath). apply Rel_real.
    - eapply EvalSymlinks_real; [|done]. apply real_path_IsAbs, Abs_real.
    - eapply resolveRealPath_real; [|done]. apply real_path_IsAbs, Abs_real. }
  unfold EnsurePathAllowed. cbn zeta.
  destruct (decide (TrimSpace (AllowedRoot ctx) = "")) as [Hblank|Hroot].
  { repeat split; try done.
    - intros (? & ? & (? & _) & _). done.
    - intros (? & ? & (? & _) & _). done.
    - intros ? ? (? & _). done.
    - intros _. eexists. split; [reflexivity | discriminate]. }
  destruct (EvalSymlinks os (Abs os (TrimSpace (AllowedRoot ctx))))
    as [err|realRoot] eqn:Eroot.
  { repeat split; try done.
    - intros (? & ? & (_ & ? & _) & _). congruence.
    - intros (? & ? & (_ & ? & _) & _). congruence.
    - intros ? ? (_ & ? & _). congruence.
    - intros _. eexists. split; [reflexivity | discriminate]. }
  destruct (resolveRealPath os (Abs os p)) as [err|realPath] eqn:Epath.
  { repeat split; try done.
    - intros (? & ? & (_ & _ & ?) & _). congruence.
    - intros (? & ? & (_ & _ & ?) & _). congruence.
    - intros ? ? (_ & _ & ?). congruence.
    - intros _. eexists. split; [reflexivity | discriminate]. }
  assert (resolved os ctx p realRoot realPath) as Hres by done.
  destruct (Hrel _ _ Hres) as (rel & HRel & Hesc).
  rewrite HRel. fold (escapes rel).
  assert (forall a b, resolved os ctx p a b -> a = realRoot /\ b = realPath) as Huniq.
  { intros a b (_ & Ha & Hb). split; congruence. }
  repeat split.
  - destruct (escapes rel); [done|]. intros _. exists realRoot, realPath.
    split; [done|]. by apply Hesc.
  - intros (a & b & Hab & Hw). destruct (Huniq _ _ Hab) as [-> ->].
    apply Hesc in Hw. by rewrite Hw.
  - destruct (escapes rel) eqn:E; [|done]. intros _. exists realRoot, realPath.
    split; [done|]. intros Hw. apply Hesc in Hw. done.
  - intros (a & b & Hab & Hw). destruct (Huniq _ _ Hab) as [-> ->].
    destruct (escapes rel) eqn:E; [done|]. destruct Hw. by apply Hesc.
  - intros a b Hab. destruct (Huniq _ _ Hab) as [-> ->].
    exists rel. split; [done|]. rewrite <- Hesc. unfold escapes.
    rewrite orb_false_iff, String.eqb_neq. split.
    + intros [? ?] [?|?]; congruence.
    + intros Hn. split; [tauto|]. destruct (HasPrefix rel "../"); [tauto|done].
  - intros Hnone. destruct Hnone. eauto.
Qed.

(** *** The loop of [findExistingParent] ends within its fuel *)

Lemma length_join_sep (ls : list (list ascii)) :
  (List.length ls <= S (List.length (join_sep ls)))%nat.
Proof.
  induction ls as [|s [|s' ls] IH]; simpl in *; [lia..|].
  rewrite length_app. simpl. lia.
Qed.

Lemma length_str l : String.length (str l) = List.length l.
Proof. induction l as [|c l IH]; simpl; [done|]. by rewrite IH. Qed.

Lemma length_render_true cs :
  (List.length cs <= String.length (render true cs))%nat.
Proof.
  cbn [render String.length]. unfold join_segments. rewrite length_str.
  pose proof (length_join_sep (bytes_of <$> cs)) as H.
  by rewrite length_fmap in H.
Qed.

Lemma findExistingParent_loop_S fuel os current :
  findExistingParent_loop (S fuel) os current =
  match Lstat os current with
  | inr _ => Some (inr current)
  | inl err =>
      if negb (IsNotExist err) then Some (inl err)
      else if decide (Dir current = current) then Some (inl errNoExistingParent)
      else findExistingParent_loop fuel os (Dir current)
  end.
Proof. reflexivity. Qed.

Lemma findExistingParent_loop_enough os cs : forall fuel,
  cleaned true cs -> (List.length cs < fuel)%nat ->
  is_Some (findExistingParent_loop fuel os (render true cs)).
Proof.
  induction cs as [|e cs IH] using rev_ind; intros fuel Hcs Hfuel;
    (destruct fuel as [|fuel]; [simpl in Hfuel; lia|]);
    rewrite findExistingParent_loop_S;
    destruct (Lstat os _) as [err|n]; try done;
    destruct (IsNotExist err); cbn [negb]; try done.
  case_decide; [done|].
  assert (name e) as He.
  { apply cleaned_true_names, Forall_app in Hcs as [_ He]. by inversion He. }
  rewrite Dir_render by (done || by eapply cleaned_snoc_inv).
  apply IH; [by eapply cleaned_snoc_inv|].
  rewrite length_app in Hfuel. simpl in Hfuel. lia.
Qed.

(** On an absolute path [findExistingParent] returns what its loop
    returns: the fuel of the model is never used up. *)
Lemma findExistingParent_total os p :
  IsAbs p = true ->
  is_Some (findExistingParent_loop (findExistingParent_fuel (Clean p)) os (Clean p)).
Proof.
  intros Ha. destruct (Clean_rooted_real p Ha) as (cs & Hcs & ->).
  apply findExistingParent_loop_enough; [done|].
  unfold findExistingParent_fuel. pose proof (length_render_true cs). lia.
Qed.

End ConfinementFacts.

Section ConfinementExamples.
Import Go Os Tools.

(** A file tree: the root [/r] holds a file, a directory [nested] with a
    file, and links to a directory outside, to a missing path outside, to
    [nested], and to a missing path inside; [/out] is outside. *)
Definition sample_tree : state :=
  {| files := list_to_map
       [ (["r"], Directory);
         (["r"; "f.txt"], Regular "hello world");
         (["r"; "nested"], Directory);
         (["r"; "nested"; "ok.txt"], Regular "ok");
         (["r"; "link-out"], Symlink "/out");
         (["r"; "dangling-out"], Symlink "/out/missing");
         (["r"; "link-in"], Symlink "/r/nested");
         (["r"; "dangling-in"], Symlink "/r/missing");
         (["out"], Directory);
         (["out"; "secret.txt"], Regular "secret") ];
     cwd := ["r"];
     accesses := [];
     write_fault := fun _ => None |}.

Definition sample_ctx : ToolContext :=
  {| CWD := "/r"; AllowedRoot := "/r"; Timeout := 0; Context := None;
     CorrelationID := "" |}.

(** The cases of the tests: a link to the outside is refused, whether the
    path behind it exists or not; a link to a directory inside is
    accepted, for an existing file and for a new one. *)
Example symlink_escape_blocked :
  EnsurePathAllowed sample_tree sample_ctx "/r/link-out/secret.txt"
    = Some errOutsideAllowedRoot
  /\ EnsurePathAllowed sample_tree sample_ctx "/r/link-out/new-file.txt"
    = Some errOutsideAllowedRoot
  /\ EnsurePathAllowed sample_tree sample_ctx "/r/../out/secret.txt"
    = Some errOutsideAllowedRoot.
Proof. by vm_compute. Qed.

Example in_root_symlink_allowed :
  EnsurePathAllowed sample_tree sample_ctx "/r/link-in/ok.txt" = None
  /\ EnsurePathAllowed sample_tree sample_ctx "/r/link-in/new.txt" = None
  /\ EnsurePathAllowed sample_tree sample_ctx "/r/new/dir/file.txt" = None
  /\ EnsurePathAllowed sample_tree sample_ctx "/r" = None.
Proof. by vm_compute. Qed.

(** A dangling link to the outside is refused as well; the refusal is the
    error of the resolution, not the answer of the comparison. *)
Example dangling_escape_blocked :
  EnsurePathAllowed sample_tree sample_ctx "/r/dangling-out/x"
  = Some (wrap "failed to evaluate path symlinks"
               (ErrPath "lstat" "/out/missing" ENOENT)).
Proof. by vm_compute. Qed.

Lemma within_decide root p :
  bool_decide (clean_elements root `prefix_of` clean_elements p) = true ->
  within root p.
Proof. apply bool_decide_eq_true_1. Qed.

(** Paths in the root that are refused.  The link [/r/dangling-in] lies
    in the root and points at [/r/missing], a place in the root; the path
    [/r/dangling-in/new.txt] reached through it is refused, and no
    relative path is computed for it, since its real path cannot be.
    The path [/r/f.txt/x], below a regular file of the root, is refused in
    the same way although resolving its deepest existing ancestor and
    adding the rest gives [/r/f.txt/x], inside the root. *)
Lemma EnsurePathAllowed_rejects_inside_root :
  Lstat sample_tree "/r/dangling-in" = inr (Symlink "/r/missing")
  /\ within "/r" "/r/dangling-in" /\ within "/r" "/r/missing"
  /\ resolveRealPath sample_tree "/r/dangling-in/new.txt"
     = inl (ErrPath "lstat" "/r/missing" ENOENT)
  /\ EnsurePathAllowed sample_tree sample_ctx "/r/dangling-in/new.txt"
     = Some (wrap "failed to evaluate path symlinks"
                  (ErrPath "lstat" "/r/missing" ENOENT))
  /\ Lstat sample_tree "/r/f.txt" = inr (Regular "hello world")
  /\ within "/r" "/r/f.txt/x"
  /\ EnsurePathAllowed sample_tree sample_ctx "/r/f.txt/x"
     = Some (wrap "failed to evaluate path symlinks" (ErrErrno ENOTDIR)).
Proof.
  repeat split; try (by vm_compute); apply within_decide; by vm_compute.
Qed.

Lemma EnsurePathAllowed_accepts_iff_witness :
  EnsurePathAllowed sample_tree sample_ctx "/r/link-in/ok.txt" = None.
Proof.
  apply (EnsurePathAllowed_accepts_iff sample_tree sample_ctx "/r/link-in/ok.txt").
  exists "/r", "/r/nested/ok.txt". split.
  - repeat split; by vm_compute.
  - apply within_decide. by vm_compute.
Defined.

End ConfinementExamples.

(* ===================================================================== *)
(** * Properties: session store                                            *)
(* ===================================================================== *)

Section SessionFacts.
Import Go Os Session.

Lemma idchar_not_space_head c l : idchar c = true -> space_width (c :: l) = 0%nat.
Proof.
  destruct c as [[] [] [] [] [] [] [] []]; try discriminate; reflexivity.
Qed.

Lemma idchar_not_space_last c l :
  idchar c = true -> space_width_rev (c :: l) = 0%nat.
Proof.
  destruct c as [[] [] [] [] [] [] [] []]; try discriminate; reflexivity.
Qed.


Lemma alnum_idchar c : alnum c = true -> idchar c = true.
Proof. unfold idchar. by intros ->. Qed.

(** The bytes of a valid session id. *)
Lemma validSessionID_bytes s :
  validSessionID s = true ->
  exists c rest, bytes_of s = c :: rest /\ Forall (λ x, idchar x = true) (c :: rest).
Proof.
  unfold validSessionID. destruct (bytes_of s) as [|c rest]; [done|].
  intros [[Hc _]%andb_true_iff Hrest]%andb_true_iff.
  exists c, rest. split; [done|]. constructor; [by apply alnum_idchar|].
  apply Forall_forall. intros x Hx. rewrite forallb_forall in Hrest.
  apply Hrest. by apply list_elem_of_In.
Qed.

(** Trimming leaves a valid session id as it is. *)
Lemma validSessionID_trimmed s : validSessionID s = true -> TrimSpace s = s.
Proof.
  intros (c & rest & Hb & Hall)%validSessionID_bytes.
  assert (s = str (c :: rest)) as -> by (by rewrite <- Hb, str_bytes_of).
  apply TrimSpace_fixed.
  - inversion Hall; subst. by apply idchar_not_space_head.
  - destruct (rev (c :: rest)) as [|d l] eqn:E; [done|].
    apply idchar_not_space_last.
    assert (In d (c :: rest)) as Hd.
    { apply in_rev. rewrite E. by left. }
    apply list_elem_of_In in Hd. by eapply Forall_forall in Hall.
Qed.


Lemma normalizeSessionID_cases sessionID :
  let trimmed := TrimSpace sessionID in
  (trimmed = "" /\ normalizeSessionID sessionID = inr "")
  \/ (trimmed <> "" /\ validSessionID trimmed = false
      /\ normalizeSessionID sessionID = inl errInvalidSessionID)
  \/ (trimmed <> "" /\ validSessionID trimmed = true
      /\ normalizeSessionID sessionID = inr trimmed).
Proof.
  unfold normalizeSessionID. cbn zeta.
  destruct (decide (TrimSpace sessionID = "")) as [->|Hne]; [by left|].
  right. destruct (validSessionID (TrimSpace sessionID)); [right|left]; done.
Qed.

Lemma normalizeSessionID_valid s :
  validSessionID s = true -> normalizeSessionID s = inr s.
Proof.
  intros Hv. unfold normalizeSessionID.
  rewrite (validSessionID_trimmed s Hv), Hv.
  rewrite decide_False; [done|]. intros ->. done.
Qed.


Section Store.

Variable json_Unmarshal : string -> error + list Llm.Message.
Variable json_MarshalIndent : string -> list Llm.Message -> error + string.

Local Abbreviation Load := (Session.Load json_Unmarshal).
Local Abbreviation Save := (Session.Save json_MarshalIndent).

(** The accesses an operation adds to the record. *)
Definition added (before after : state) (l : list access) : Prop :=
  accesses after = accesses before ++ l.

Lemma ReadFile_added os p : added os (ReadFile os p).2 [AccReadFile p].
Proof.
  unfold ReadFile, added.
  destruct (resolve os true p) as [q| | |]; try done.
  by destruct (node_at (files os) q) as [[| |]|].
Qed.

Lemma write_opened_accesses os q data :
  accesses (write_opened os q data).2 = accesses os.
Proof.
  unfold write_opened.
  by destruct (write_fault os (accesses os)) as [[n err]|].
Qed.

Lemma WriteFile_added os p data :
  added os (WriteFile os p data).2 [AccWriteFile p data].
Proof.
  unfold WriteFile, added.
  destruct (resolve os true p) as [q| | |]; try done;
    [|by rewrite write_opened_accesses].
  destruct (node_at (files os) q) as [[| |]|]; try done.
  by rewrite write_opened_accesses.
Qed.



End Store.

End SessionFacts.

Section SessionExamples.
Import Go Os Session.

Definition sample_store : JSONFileStore := NewJSONFileStoreWithDir "/sessions".

(** A store directory that holds the file of the session [abc]. *)
Definition sample_sessions : state :=
  {| files := list_to_map
       [ (["sessions"], Directory);
         (["sessions"; "abc.json"], Regular "{}") ];
     cwd := [];
     accesses := [];
     write_fault := fun _ => None |}.

(** Stand-ins for the JSON decoder and encoder of the stored sessions. *)
Definition no_messages (data : string) : error + list Llm.Message := inr [].
Definition no_payload (id : string) (history : list Llm.Message) : error + string :=
  inr "{}".

(** The matcher of the module [Regex] gives the verdicts of
    [validSessionID] on the pattern of the session ids. *)
Example session_pattern_agrees :
  let ids := ["abc"; "20260131-101500"; "a_b-C9"; "../escape"; "../../escape";
              "a/b"; "a.b"; ".."; "_a"; "-a"; ""; " abc "; "a b"] in
  Regex.MatchString Regex.sessionIDPattern <$> ids = validSessionID <$> ids.
Proof. by vm_compute. Qed.

Example escape_refused :
  Load no_messages sample_store "../escape" sample_sessions
    = (inl errInvalidSessionID, sample_sessions)
  /\ Save no_payload sample_store "../../escape" [] sample_sessions
    = (Some errInvalidSessionID, sample_sessions).
Proof. by vm_compute. Qed.



End SessionExamples.

(* ===================================================================== *)
(** * Properties: response envelope                                        *)
(* ===================================================================== *)

Section EnvelopeFacts.
Import Go Envelope.

(** The value of the first field named [k]. *)
Fixpoint field (k : string) (fields : list (string * json)) : option json :=
  match fields with
  | [] => None
  | (k', v) :: fields' => if decide (k' = k) then Some v else field k fields'
  end.

(** [s] is the text of a JSON object with the fields [fields]. *)
Definition object_text (s : string) (fields : list (string * json)) : Prop :=
  s = str (text (JObject fields)).

Definition fallback_message : string := "failed to encode tool response envelope".

Definition error_object (message : string) : json :=
  JObject [("message", JString message)].

Lemma fallbackEnvelope_text :
  object_text fallbackEnvelope
    [("ok", JBool false); ("error", error_object fallback_message)].
Proof. reflexivity. Qed.

(** The fields of an envelope that was encoded. *)
Lemma marshal_envelope_fields e j :
  marshal_envelope e = Some j ->
  exists data meta,
    j = JObject ([("ok", JBool (OK e))] ++ data
                 ++ match Error e with
                    | Some re => [("error", error_object (Message re))]
                    | None => []
                    end ++ meta)
    /\ (if omit_data (Data e) then data = []
        else exists dj, data = [("data", dj)] /\ marshal_value (Data e) = Some dj)
    /\ (if decide (Meta e = ∅) then meta = []
        else exists mj, meta = [("meta", mj)]
                        /\ marshal_value (VMap (map_to_list (Meta e))) = Some mj).
Proof.
  unfold marshal_envelope. intros H.
  destruct (marshal_value (VMap (map_to_list (Meta e)))) as [mj|] eqn:Em;
    destruct (marshal_value (Data e)) as [dj|] eqn:Ed;
    destruct (omit_data (Data e)) eqn:Hd;
    destruct (decide (Meta e = ∅)) as [Hm|Hm];
    cbn in H; simplify_eq.
  all: first [ by exists [], []
             | exists [], [("meta", mj)]; by repeat split; eauto
             | exists [("data", dj)], []; by repeat split; eauto
             | exists [("data", dj)], [("meta", mj)]; by repeat split; eauto ].
Qed.


(** The texts are valid JSON for the validator of the normalizer, on an
    envelope of each kind. *)
Example envelopes_valid_json :
  let meta : gmap string value :=
    {[ "tool" := VString "Fake"; "timeout_ms" := VInt 2000 ]} in
  json_Valid <$>
    [ SuccessEnvelope (VMap [("value", VString "a <b> \ c"); ("n", VInt (-12))]) meta;
      SuccessEnvelope (VList [VBool true; VNull; VString ""]) ∅;
      SuccessEnvelope VNil meta;
      SuccessEnvelope (VList [VUnsupported]) meta;
      ErrorEnvelope (dq "Fake: 'boom'") meta ]
  = replicate 5 true.
Proof. by vm_compute. Qed.

Example success_envelope_text :
  SuccessEnvelope (VMap [("value", VString "ok")]) {[ "tool" := VString "Fake" ]}
  = dq "{'ok':true,'data':{'value':'ok'},'meta':{'tool':'Fake'}}".
Proof. by vm_compute. Qed.



End EnvelopeFacts.

(* ===================================================================== *)
(** * Properties: tool registry                                            *)
(* ===================================================================== *)

Section MetaFacts.
Import Go Envelope.

Lemma leb_refl (k : string) : String.leb k k = true.
Proof.
  unfold String.leb. assert ((k ?= k)%string = Eq) as ->; [|done].
  induction k as [|c k IH]; simpl; [done|].
  unfold Ascii.compare. by rewrite N.compare_refl.
Qed.

Lemma field_insert_eq k v fields : field k (insert_field k v fields) = Some v.
Proof.
  induction fields as [|[k' v'] fields IH]; simpl.
  - by rewrite decide_True.
  - destruct (String.leb k k') eqn:Hle; simpl.
    + by rewrite decide_True.
    + rewrite decide_False; [done|]. intros ->. by rewrite leb_refl in Hle.
Qed.

Lemma field_insert_ne k k' v fields :
  k' <> k -> field k (insert_field k' v fields) = field k fields.
Proof.
  intros Hne. induction fields as [|[k'' v''] fields IH]; simpl.
  - by rewrite decide_False.
  - destruct (String.leb k' k''); simpl.
    + by rewrite decide_False.
    + by rewrite IH.
Qed.

(** Sorting the fields keeps the value each key has. *)
Lemma field_sort k fields : field k (sort_fields fields) = field k fields.
Proof.
  induction fields as [|[k' v'] fields IH]; simpl; [done|].
  destruct (decide (k' = k)) as [->|Hne].
  - apply field_insert_eq.
  - by rewrite field_insert_ne.
Qed.

(** A value written as a JSON string or number. *)
Definition scalar (v : value) : Prop :=
  (exists s, v = VString s) \/ (exists n, v = VInt n).

Lemma all_encoded_scalars (m : list (string * value)) :
  Forall (λ kv, scalar kv.2) m ->
  exists fs, all_encoded (λ kv, pair kv.1 <$> marshal_value kv.2) m = Some fs
             /\ forall k, field k fs = (list_find (λ kv, kv.1 = k) m)
                                        ≫= λ r, marshal_value r.2.2.
Proof.
  induction 1 as [|[k v] m Hv _ (fs & Hfs & Hfield)].
  - by exists [].
  - simpl in Hv. cbn [all_encoded foldr]. fold (all_encoded
      (λ kv : string * value, pair kv.1 <$> marshal_value kv.2) m). rewrite Hfs.
    destruct Hv as [[s ->]|[n ->]]; cbn; eexists; (split; [done|]);
      intros k'; cbn; case_decide; cbn; try done;
      rewrite Hfield; by destruct (list_find _ m) as [[i kv]|].
Qed.

Lemma list_find_map_to_list (m : gmap string value) k v :
  m !! k = Some v ->
  exists i, list_find (λ kv, kv.1 = k) (map_to_list m) = Some (i, (k, v)).
Proof.
  intros Hk. apply elem_of_map_to_list in Hk.
  destruct (list_find (λ kv, kv.1 = k) (map_to_list m)) as [[i [k' v']]|] eqn:E.
  - apply list_find_Some in E as (Hi & Hk' & _). simpl in Hk'. subst k'.
    exists i. do 2 f_equal. f_equal.
    apply list_elem_of_lookup_2 in Hi. apply elem_of_map_to_list in Hi.
    apply elem_of_map_to_list in Hk. congruence.
  - apply list_find_None in E. rewrite Forall_forall in E.
    by destruct (E _ Hk).
Qed.

(** The meta data is written out whole when its values are scalars. *)
Lemma marshal_meta (meta : gmap string value) :
  map_Forall (λ _ v, scalar v) meta ->
  exists mf, marshal_value (VMap (map_to_list meta)) = Some (JObject mf)
             /\ forall k v, meta !! k = Some v -> field k mf = marshal_value v.
Proof.
  intros Hall.
  destruct (all_encoded_scalars (map_to_list meta)) as (fs & Hfs & Hfield).
  { apply Forall_forall. intros [k v] Hkv. apply elem_of_map_to_list in Hkv.
    by apply (Hall k v). }
  exists (sort_fields fs). split.
  - cbn [marshal_value]. by rewrite Hfs.
  - intros k v Hk. rewrite field_sort, Hfield.
    by destruct (list_find_map_to_list meta k v Hk) as [i ->].
Qed.

(** An error envelope whose meta data holds scalars is never the fallback:
    it carries the message and the meta data. *)
Lemma ErrorEnvelope_meta message (meta : gmap string value) k v :
  map_Forall (λ _ v, scalar v) meta -> meta !! k = Some v ->
  exists fields mf,
    object_text (ErrorEnvelope message meta) fields
    /\ field "ok" fields = Some (JBool false)
    /\ field "error" fields = Some (error_object message)
    /\ field "data" fields = None
    /\ field "meta" fields = Some (JObject mf)
    /\ field k mf = marshal_value v.
Proof.
  intros Hall Hk. destruct (marshal_meta meta Hall) as (mf & Hmf & Hfield).
  assert (marshal_envelope
            {| OK := false; Data := VNil;
               Error := Some {| Message := message |}; Meta := meta |}
          = Some (JObject [("ok", JBool false); ("error", error_object message);
                           ("meta", JObject mf)])) as Hm.
  { unfold marshal_envelope. cbn [OK Data Error Meta omit_data Message].
    rewrite decide_False by (intros ->; by rewrite lookup_empty in Hk).
    by rewrite Hmf. }
  unfold ErrorEnvelope, encodeEnvelope. rewrite Hm.
  eexists _, mf. split; [reflexivity|].
  repeat split; try (by vm_compute). by apply Hfield.
Qed.

End MetaFacts.

Section RegistryFacts.
Import Go Tools Envelope Registry.

Context {World : Type}.

(** A registry built by [NewRegistry] finds a tool under its own name. *)
Lemma NewRegistry_name (toolList : list (Tool World)) n tool :
  NewRegistry toolList !! n = Some tool -> Name tool = n.
Proof.
  unfold NewRegistry.
  assert (forall (l : list (Tool World)) (m : gmap string (Tool World)),
    (forall n t, m !! n = Some t -> Name t = n) ->
    forall n t, foldl (λ byName tool, <[Name tool := tool]> byName) m l !! n = Some t ->
                Name t = n) as Hgen.
  { induction l as [|t0 l IH]; intros m Hm n0 t; simpl; [apply Hm|].
    apply IH. intros n1 t1. destruct (decide (Name t0 = n1)) as [<-|Hne].
    - rewrite lookup_insert_eq. by intros [= <-].
    - rewrite lookup_insert_ne by done. apply Hm. }
  apply Hgen. intros ? ?. by rewrite lookup_empty.
Qed.

Lemma build_meta_tool (tool : Tool World) ctx :
  build_meta tool ctx !! "tool" = Some (VString (Name tool)).
Proof.
  unfold build_meta. repeat case_decide;
    rewrite ?lookup_insert_ne by done; apply lookup_singleton_eq.
Qed.

Lemma build_meta_scalar (tool : Tool World) ctx :
  map_Forall (λ _ v, scalar v) (build_meta tool ctx).
Proof.
  unfold build_meta.
  repeat case_decide;
    repeat (apply map_Forall_insert_2; [unfold scalar; eauto|]);
    first [apply map_Forall_empty | apply map_Forall_singleton; unfold scalar; eauto].
Qed.

(** A context without a working directory or without an allowed root. *)
Definition blank (ctx : ToolContext) : Prop :=
  TrimSpace (CWD ctx) = "" \/ TrimSpace (AllowedRoot ctx) = "".

(** The message of the envelope returned for a context that is done. *)
Definition context_message (err : error) : string :=
  if decide (err = Canceled) then msgCancelled
  else "tool execution context error: " +:+ Go.Error err.

(** C6.  For a registered tool: with a blank working directory or allowed
    root, [Execute] returns the envelope of the invalid context; with both
    set and a context that is already cancelled (or past its deadline), the
    envelope of the cancellation; in either case the answer is matched, an
    error envelope whose meta data names the tool, the world is left as it
    was and [Execute] of the tool is not called. *)
Theorem Execute_early_exit (toolList : list (Tool World))
    (toolCall : Llm.ToolCall) (ctx : ToolContext) (w : World) (tool : Tool World) :
  NewRegistry toolList !! Llm.Name toolCall = Some tool ->
  let out := Execute_ (NewRegistry toolList) toolCall ctx w in
  let meta := build_meta tool ctx in
  (blank ctx -> out = ((ErrorEnvelope msgInvalidContext meta, true), w, []))
  /\ (forall err, ~ blank ctx -> Context ctx = Some (Some err) ->
        out = ((ErrorEnvelope (context_message err) meta, true), w, []))
  /\ (blank ctx \/ (exists err, Context ctx = Some (Some err)) ->
      exists envelope message fields mf,
        out = ((envelope, true), w, [])
        /\ object_text envelope fields
        /\ field "ok" fields = Some (JBool false)
        /\ field "error" fields = Some (error_object message)
        /\ field "data" fields = None
        /\ field "meta" fields = Some (JObject mf)
        /\ field "tool" mf = Some (JString (Llm.Name toolCall))).
Proof.
  intros Hreg. cbn zeta.
  pose proof (NewRegistry_name _ _ _ Hreg) as Hname.
  assert (forall message, exists fields mf,
    object_text (ErrorEnvelope message (build_meta tool ctx)) fields
    /\ field "ok" fields = Some (JBool false)
    /\ field "error" fields = Some (error_object message)
    /\ field "data" fields = None
    /\ field "meta" fields = Some (JObject mf)
    /\ field "tool" mf = Some (JString (Llm.Name toolCall))) as Henv.
  { intros message.
    destruct (ErrorEnvelope_meta message (build_meta tool ctx) "tool"
                (VString (Name tool)) (build_meta_scalar tool ctx)
                (build_meta_tool tool ctx))
      as (fields & mf & H1 & H2 & H3 & H4 & H5 & H6).
    exists fields, mf. rewrite <- Hname. by repeat split. }
  unfold Execute_. rewrite Hreg.
  destruct (bool_decide (TrimSpace (CWD ctx) = "")
            || bool_decide (TrimSpace (AllowedRoot ctx) = "")) eqn:Hb.
  - assert (blank ctx) as Hblank.
    { apply orb_true_iff in Hb as [?%bool_decide_eq_true|?%bool_decide_eq_true];
        [by left | by right]. }
    split; [done|]. split; [by intros ? ?|].
    intros _. destruct (Henv msgInvalidContext) as (fields & mf & ?).
    eexists _, msgInvalidContext, fields, mf. split; [reflexivity | done].
  - assert (~ blank ctx) as Hblank.
    { apply orb_false_iff in Hb as [?%bool_decide_eq_false ?%bool_decide_eq_false].
      by intros [?|?]. }
    split; [done|].
    destruct (Context ctx) as [[err|]|] eqn:Hctx.
    + assert (forall e, Some (Some err) = Some (Some e) -> e = err) as Hinj
        by (by intros ? [= ->]).
      unfold context_message. split.
      * intros e _ ->%Hinj. by destruct (decide (err = Canceled)).
      * intros _. destruct (Henv (context_message err)) as (fields & mf & ?).
        eexists _, (context_message err), fields, mf.
        split; [|done].
        unfold context_message. by destruct (decide (err = Canceled)).
    + split; [by intros ? ? ?|]. intros [?|[? ?]]; done.
    + split; [by intros ? ? ?|]. intros [?|[? ?]]; done.
Qed.

End RegistryFacts.

Section RegistryExamples.
Import Go Tools Envelope Registry.

(** A tool that records its arguments in the world, a list of strings. *)
Definition echoTool : Tool (list string) :=
  {| Name := "Echo";
     Execute := λ _ arguments w, ((VString arguments, None), w ++ [arguments]) |}.

Definition echoCall : Llm.ToolCall :=
  {| Llm.ID := "call_1"; Llm.Name := "Echo"; Llm.Arguments := "{}" |}.

Definition context_of (cwd root : string) (done : option (option error))
  : ToolContext :=
  {| CWD := cwd; AllowedRoot := root; Timeout := 0; Context := done;
     CorrelationID := "" |}.

Example blank_context_text :
  Execute_ (NewRegistry [echoTool]) echoCall (context_of "  " "/r" None) []
  = ((dq "{'ok':false,'error':{'message':'invalid tool context: cwd and allowed_root are required'},'meta':{'allowed_root':'/r','tool':'Echo'}}",
      true), [], []).
Proof. by vm_compute. Qed.

Example cancelled_context_text :
  Execute_ (NewRegistry [echoTool]) echoCall
           (context_of "/r" "/r" (Some (Some Canceled))) []
  = ((dq "{'ok':false,'error':{'message':'tool execution cancelled'},'meta':{'allowed_root':'/r','cwd':'/r','tool':'Echo'}}",
      true), [], []).
Proof. by vm_compute. Qed.

Example deadline_context_text :
  Execute_ (NewRegistry [echoTool]) echoCall
           (context_of "/r" "/r" (Some (Some DeadlineExceeded))) []
  = ((dq "{'ok':false,'error':{'message':'tool execution context error: context deadline exceeded'},'meta':{'allowed_root':'/r','cwd':'/r','tool':'Echo'}}",
      true), [], []).
Proof. by vm_compute. Qed.

(** With a live context the tool is called, once. *)
Example live_context_invokes :
  Execute_ (NewRegistry [echoTool]) echoCall (context_of "/r" "/r" (Some None)) []
  = ((dq "{'ok':true,'data':'{}','meta':{'allowed_root':'/r','cwd':'/r','tool':'Echo'}}",
      true), ["{}"],
     [{| invoked_tool := "Echo";
         invoked_ctx := context_of "/r" "/r" (Some None);
         invoked_arguments := "{}" |}]).
Proof. by vm_compute. Qed.

Example unknown_tool_unmatched :
  Execute_ (NewRegistry [echoTool])
           {| Llm.ID := "call_2"; Llm.Name := "Nope"; Llm.Arguments := "{}" |}
           (context_of "" "" None) []
  = (("", false), [], []).
Proof. by vm_compute. Qed.

Example cancellation_message :
  context_message Canceled = msgCancelled
  /\ context_message DeadlineExceeded
     = "tool execution context error: context deadline exceeded".
Proof. by vm_compute. Qed.

Lemma echo_registered :
  NewRegistry [echoTool] !! Llm.Name echoCall = Some echoTool.
Proof. vm_compute. reflexivity. Defined.

Lemma Execute_early_exit_witness :
  Execute_ (NewRegistry [echoTool]) echoCall (context_of "" "/r" None) []
  = ((ErrorEnvelope msgInvalidContext
        (build_meta echoTool (context_of "" "/r" None)), true), [], [])
  /\ Execute_ (NewRegistry [echoTool]) echoCall
              (context_of "/r" "/r" (Some (Some Canceled))) []
     = ((ErrorEnvelope (context_message Canceled)
           (build_meta echoTool (context_of "/r" "/r" (Some (Some Canceled)))),
         true), [], []).
Proof.
  split.
  - pose proof (Execute_early_exit [echoTool] echoCall
                  (context_of "" "/r" None) [] echoTool echo_registered) as H.
    cbv zeta in H. apply (proj1 H). left. vm_compute. reflexivity.
  - pose proof (Execute_early_exit [echoTool] echoCall
                  (context_of "/r" "/r" (Some (Some Canceled))) [] echoTool
                  echo_registered) as H.
    cbv zeta in H. apply (proj1 (proj2 H) Canceled).
    + intros [H0|H0]; vm_compute in H0; discriminate H0.
    + reflexivity.
Defined.

End RegistryExamples.

(* ===================================================================== *)
(** * Properties: turn runner, tool budget and turn limit                  *)
(* ===================================================================== *)

Section RunnerFacts.
Import Go Llm Agent.

Context {World : Type}.
Variable ctx_Err : World -> option error.
Variable complete :
  CompletionRequest -> World -> (error + CompletionResponse) * World.
Variable execute : string -> ToolCall -> World -> string * World.
Variable runner : Runner (World := World).
Variable correlationID : string.

Local Abbreviation step := (turn ctx_Err complete execute runner correlationID).
Local Abbreviation policy := (RunnerPolicy runner).

(** The state in which [RunPrompt] enters its loop. *)
Definition initial (messageHistory : list Message) (prompt : string) (w : World)
  : loop_state :=
  {| turnNumber := 1; toolCallsUsed := 0; lastAssistantText := "";
     messageHistory :=
       messageHistory ++ [{| Role_ := RoleUser; Content := prompt;
                             ToolCallID := ""; ToolCalls := [] |}];
     world := w; executed := [] |}.

(** [turns n st st']: [n] rounds of the loop, none of which returns, lead
    from [st] to [st']. *)
Inductive turns : nat -> loop_state -> loop_state -> Prop :=
  | turns_O st : turns O st st
  | turns_S n st st' st'' :
      step st = NextTurn st' -> turns n st' st'' -> turns (S n) st st''.

(** The request the runner sends in the state [st]. *)
Definition request (st : @loop_state World) : CompletionRequest :=
  {| Model := RunnerModel runner; Messages := messageHistory st;
     Tools := ToolDefinitions runner |}.


Definition requested (message : Message) : Z :=
  Z.of_nat (List.length (ToolCalls (prune message))).














Definition userMessage (prompt : string) : Message :=
  {| Role_ := RoleUser; Content := prompt; ToolCallID := ""; ToolCalls := [] |}.



End RunnerFacts.

Section RunnerExamples.
Import Go Llm Agent.

(** A world for running the loop: the replies the client will give, in
    order, and the state of the context. *)
Record sim := Sim {
  queued : list (error + CompletionResponse);
  done : option error;
}.

Definition sim_Err (w : sim) : option error := done w.

Definition sim_complete (_ : CompletionRequest) (w : sim)
  : (error + CompletionResponse) * sim :=
  match queued w with
  | [] => (inl (ErrNew "no reply queued"), w)
  | reply :: rest => (reply, Sim rest (done w))
  end.

Definition sim_execute (_ : string) (toolCall : ToolCall) (w : sim)
  : string * sim :=
  ("ran " +:+ Name toolCall, w).

(** An executor that cancels the context while it runs. *)
Definition cancelling_execute (_ : string) (toolCall : ToolCall) (w : sim)
  : string * sim :=
  ("ran " +:+ Name toolCall, Sim (queued w) (Some Tools.Canceled)).

Definition sim_runner (execute : string -> ToolCall -> sim -> string * sim)
    (maxTurns maxToolCalls : Z) : Runner :=
  {| LLMClient := Some sim_complete; RunnerModel := "model";
     ToolDefinitions := []; ExecuteTool := Some execute;
     RunnerPolicy := {| MaxTurns := maxTurns; MaxToolCalls := maxToolCalls |} |}.

Definition call (id name : string) : ToolCall :=
  {| ID := id; Name := name; Arguments := "{}" |}.

Definition assistant (content : string) (toolCalls : list ToolCall) : Message :=
  {| Role_ := RoleAssistant; Content := content; ToolCallID := "";
     ToolCalls := toolCalls |}.

Definition toolMessage (id content : string) : Message :=
  {| Role_ := RoleTool; Content := content; ToolCallID := id; ToolCalls := [] |}.

Definition reply (finishReason content : string) (toolCalls : list ToolCall)
  : CompletionResponse :=
  {| Choices := [{| FinishReason := finishReason;
                    Message_ := assistant content toolCalls |}] |}.

Definition two_calls : list ToolCall := [call "c1" "Read"; call "c2" "Write"].

(** [MaxToolCalls = 1] and two calls asked for in one round: the budget
    error, and nothing executed. *)
Example budget_one_two_requested :
  RunPrompt sim_Err 3 (sim_runner sim_execute 0 1)
            (Sim [inr (reply "tool_calls" "" two_calls)] None) [] "go" "corr"
  = Some {| text := ""; err := Some (errToolBudget 1 0 2);
            final_history := [userMessage "go"; assistant "" two_calls];
            final_world := Sim [] None;
            executions := [] |}
  /\ Error (errToolBudget 1 0 2)
     = "tool call budget exceeded: limit=1 used=0 requested=2".
Proof. by vm_compute. Qed.

(** The budget counts the calls of earlier rounds. *)
Example budget_spent_in_earlier_round :
  RunPrompt sim_Err 3 (sim_runner sim_execute 0 2)
            (Sim [inr (reply "tool_calls" "" [call "c1" "Read"]);
                  inr (reply "tool_calls" "" two_calls)] None) [] "go" "corr"
  = Some {| text := ""; err := Some (errToolBudget 2 1 2);
            final_history := [userMessage "go"; assistant "" [call "c1" "Read"];
                              toolMessage "c1" "ran Read"; assistant "" two_calls];
            final_world := Sim [] None;
            executions := [call "c1" "Read"] |}.
Proof. by vm_compute. Qed.

(** A call without an id is dropped before the calls are counted. *)
Example pruned_call_not_counted :
  RunPrompt sim_Err 3 (sim_runner sim_execute 0 1)
            (Sim [inr (reply "tool_calls" "" [call " " "Read"; call "c2" "Write"]);
                  inr (reply "stop" "done" [])] None) [] "go" "corr"
  = Some {| text := "done"; err := None;
            final_history := [userMessage "go"; assistant "" [call "c2" "Write"];
                              toolMessage "c2" "ran Write"; assistant "done" []];
            final_world := Sim [] None;
            executions := [call "c2" "Write"] |}.
Proof. by vm_compute. Qed.



(** [MaxTurns = 1]: the call of the first round is run and its message
    added, then the limit stops the run. *)
Example max_turns_one_runs_first_round :
  RunPrompt sim_Err 3 (sim_runner sim_execute 1 0)
            (Sim [inr (reply "tool_calls" "" [call "c1" "Read"])] None)
            [] "go" "corr"
  = Some {| text := ""; err := Some (errMaxTurns 1);
            final_history := [userMessage "go"; assistant "" [call "c1" "Read"];
                              toolMessage "c1" "ran Read"];
            final_world := Sim [] None;
            executions := [call "c1" "Read"] |}
  /\ Error (errMaxTurns 1) = "max turns exceeded: limit=1".
Proof. by vm_compute. Qed.

(** No limit: the run goes on to the second round. *)
Example max_turns_zero_unlimited :
  RunPrompt sim_Err 3 (sim_runner sim_execute 0 0)
            (Sim [inr (reply "tool_calls" "" [call "c1" "Read"]);
                  inr (reply "stop" "done" [])] None)
            [] "go" "corr"
  = Some {| text := "done"; err := None;
            final_history := [userMessage "go"; assistant "" [call "c1" "Read"];
                              toolMessage "c1" "ran Read"; assistant "done" []];
            final_world := Sim [] None;
            executions := [call "c1" "Read"] |}.
Proof. by vm_compute. Qed.

(** A context cancelled while the first call runs: the second call is not
    run and the error is that of the context. *)
Example max_turns_one_cancelled_between_calls :
  RunPrompt sim_Err 3 (sim_runner cancelling_execute 1 0)
            (Sim [inr (reply "tool_calls" "" two_calls)] None) [] "go" "corr"
  = Some {| text := ""; err := Some Tools.Canceled;
            final_history := [userMessage "go"; assistant "" two_calls;
                              toolMessage "c1" "ran Read"];
            final_world := Sim [] (Some Tools.Canceled);
            executions := [call "c1" "Read"] |}.
Proof. by vm_compute. Qed.




End RunnerExamples.

(* ===================================================================== *)
(** * Properties: outbound network policy                                  *)
(* ===================================================================== *)

Section AddressClasses.
Import Go Network.
Local Open Scope N_scope.

(** A property of bytes checked on each of the 256 values. *)
Lemma byte_cases (P : N -> bool) :
  forallb P (N.of_nat <$> seq 0 256) = true ->
  forall a, a < 256 -> P a = true.
Proof.
  intros Hall a Ha. rewrite forallb_forall in Hall. apply Hall.
  apply list_elem_of_In, list_elem_of_fmap. exists (N.to_nat a).
  split; [by rewrite N2Nat.id|]. apply elem_of_seq. lia.
Qed.

Ltac by_byte_cases a Ha :=
  apply eqb_prop;
  revert a Ha;
  match goal with |- forall a, _ -> @?P a = true => apply (byte_cases P) end;
  vm_compute; reflexivity.

Lemma land_f0_10 b :
  b < 256 -> (N.land b 0xf0 =? 16) = (16 <=? b) && (b <=? 31).
Proof. intros Hb. by_byte_cases b Hb. Qed.

Lemma land_f0_e0 a :
  a < 256 -> (N.land a 0xf0 =? 0xe0) = (224 <=? a) && (a <=? 239).
Proof. intros Ha. by_byte_cases a Ha. Qed.

Lemma land_fe_fc a :
  a < 256 -> (N.land a 0xfe =? 0xfc) = (a =? 0xfc) || (a =? 0xfd).
Proof. intros Ha. by_byte_cases a Ha. Qed.

Lemma land_c0_80 b :
  b < 256 -> (N.land b 0xc0 =? 0x80) = (0x80 <=? b) && (b <=? 0xbf).
Proof. intros Hb. by_byte_cases b Hb. Qed.

(** The IPv4 addresses the policy names, by their ranges: 127.0.0.0/8,
    10.0.0.0/8, 172.16.0.0/12, 192.168.0.0/16, 169.254.0.0/16,
    224.0.0.0/4, 0.0.0.0 and 100.64.0.0/10. *)
Definition disallowed_v4 (a b c d : N) : bool :=
  (a =? 127)
  || (a =? 10) || ((a =? 172) && (16 <=? b) && (b <=? 31))
  || ((a =? 192) && (b =? 168))
  || ((a =? 169) && (b =? 254))
  || ((224 <=? a) && (a <=? 239))
  || ((a =? 0) && (b =? 0) && (c =? 0) && (d =? 0))
  || ((a =? 100) && (64 <=? b) && (b <=? 127)).

(** The sixteen-byte addresses outside ::ffff:0:0/96 that the code
    refuses: ::1, ::, fe80::/10, ff00::/8 and fc00::/7. *)
Definition disallowed_v6 (ip : list N) : bool :=
  bool_decide (ip = IPv6loopback)
  || bool_decide (ip = IPv6unspecified)
  || ((at_ ip 0 =? 0xfe) && (0x80 <=? at_ ip 1) && (at_ ip 1 <=? 0xbf))
  || (at_ ip 0 =? 0xff)
  || (at_ ip 0 =? 0xfc) || (at_ ip 0 =? 0xfd).

Lemma To4_v4 a b c d : To4 [a; b; c; d] = Some [a; b; c; d].
Proof. reflexivity. Qed.

Lemma To4_mapped a b c d :
  To4 (v4InV6Prefix ++ [a; b; c; d]) = Some [a; b; c; d].
Proof. reflexivity. Qed.

Lemma zero_v4 a b c d :
  bool_decide ([a; b; c; d] = [0; 0; 0; 0])
  = (a =? 0) && (b =? 0) && (c =? 0) && (d =? 0).
Proof.
  destruct (N.eqb_spec a 0), (N.eqb_spec b 0), (N.eqb_spec c 0), (N.eqb_spec d 0);
    subst; cbn [andb];
    first [ by apply bool_decide_eq_true_2
          | apply bool_decide_eq_false_2; congruence ].
Qed.

Lemma IsUnspecified_v4 a b c d :
  IsUnspecified [a; b; c; d] = (a =? 0) && (b =? 0) && (c =? 0) && (d =? 0).
Proof.
  rewrite <- zero_v4. unfold IsUnspecified.
  change (Equal [a; b; c; d] IPv4zero)
    with (bool_decide ([a; b; c; d] = [0; 0; 0; 0])).
  change (Equal [a; b; c; d] IPv6unspecified) with false.
  apply orb_false_r.
Qed.

Lemma mapped_zero a b c d :
  bool_decide (v4InV6Prefix ++ [a; b; c; d] = IPv4zero)
  = bool_decide ([a; b; c; d] = [0; 0; 0; 0]).
Proof.
  apply bool_decide_ext. unfold IPv4zero. split; [|by intros ->].
  by intros ?%app_inv_head.
Qed.

Lemma IsUnspecified_mapped a b c d :
  IsUnspecified (v4InV6Prefix ++ [a; b; c; d])
  = (a =? 0) && (b =? 0) && (c =? 0) && (d =? 0).
Proof.
  rewrite <- zero_v4, <- mapped_zero. unfold IsUnspecified.
  change (Equal (v4InV6Prefix ++ [a; b; c; d]) IPv4zero)
    with (bool_decide (v4InV6Prefix ++ [a; b; c; d] = IPv4zero)).
  replace (Equal (v4InV6Prefix ++ [a; b; c; d]) IPv6unspecified) with false;
    [apply orb_false_r|].
  symmetry. unfold Equal.
  change (List.length (v4InV6Prefix ++ [a; b; c; d])) with 16%nat.
  change (List.length IPv6unspecified) with 16%nat.
  destruct (decide (16%nat = 16%nat)); [|done].
  apply bool_decide_eq_false_2. intros H.
  apply (f_equal (fun l => l !! 10%nat)) in H. discriminate H.
Qed.

Ltac split_atoms :=
  repeat (cbn [andb orb];
          match goal with
          | |- context [N.eqb ?x ?y] =>
              destruct (N.eqb_spec x y); try (exfalso; lia)
          | |- context [N.leb ?x ?y] =>
              destruct (N.leb_spec x y); try (exfalso; lia)
          end);
  cbn [andb orb]; try reflexivity.

(** Four-byte addresses and their sixteen-byte form are classified by
    the ranges of [disallowed_v4]. *)
Lemma classify_v4 (ip : list N) a b c d :
  To4 ip = Some [a; b; c; d] ->
  IsUnspecified ip = (a =? 0) && (b =? 0) && (c =? 0) && (d =? 0) ->
  a < 256 -> b < 256 ->
  isPrivateOrLocalIP (Some ip) = disallowed_v4 a b c d.
Proof.
  intros HTo4 Hzero Ha Hb.
  unfold isPrivateOrLocalIP, IsLoopback, IsPrivate, IsLinkLocalUnicast,
    IsLinkLocalMulticast, IsMulticast, disallowed_v4.
  rewrite HTo4, Hzero.
  change (at_ [a; b; c; d] 0) with a. change (at_ [a; b; c; d] 1) with b.
  change (at_ [a; b; c; d] 2) with c.
  rewrite (land_f0_10 b Hb), (land_f0_e0 a Ha).
  split_atoms.
Qed.

Lemma To4_v6 (ip : list N) :
  List.length ip = 16%nat -> take 12 ip <> v4InV6Prefix -> To4 ip = None.
Proof.
  intros Hlen Hprefix. unfold To4. rewrite Hlen.
  destruct (decide (16%nat = 4%nat)); [done|].
  by rewrite (bool_decide_eq_false_2 _ Hprefix), andb_false_r.
Qed.

Lemma Equal_same_length (ip x : list N) :
  List.length ip = List.length x -> Equal ip x = bool_decide (ip = x).
Proof. intros Hlen. unfold Equal. by destruct (decide _). Qed.

(** Sixteen-byte addresses outside ::ffff:0:0/96 are classified by
    [disallowed_v6]. *)
Lemma classify_v6 (ip : list N) :
  List.length ip = 16%nat -> take 12 ip <> v4InV6Prefix ->
  at_ ip 0 < 256 -> at_ ip 1 < 256 ->
  isPrivateOrLocalIP (Some ip) = disallowed_v6 ip.
Proof.
  intros Hlen Hprefix H0 H1.
  unfold isPrivateOrLocalIP, IsLoopback, IsPrivate, IsLinkLocalUnicast,
    IsLinkLocalMulticast, IsMulticast, IsUnspecified, disallowed_v6.
  rewrite (To4_v6 ip Hlen Hprefix), !Equal_same_length by done.
  rewrite (bool_decide_eq_true_2 _ Hlen).
  rewrite (bool_decide_eq_false_2 (ip = IPv4zero))
    by (intros ->; by apply Hprefix).
  rewrite (land_fe_fc _ H0), (land_c0_80 _ H1).
  destruct (bool_decide (ip = IPv6loopback)),
    (bool_decide (ip = IPv6unspecified)),
    (N.land (at_ ip 1) 15 =? 2);
    split_atoms.
Qed.

(** What [isPrivateOrLocalIP] refuses, by address ranges. *)
Definition disallowed (ip : IP) : bool :=
  match ip with
  | None => true
  | Some bytes =>
      match To4 bytes with
      | Some [a; b; c; d] => disallowed_v4 a b c d
      | _ => disallowed_v6 bytes
      end
  end.

(** An address as [net] makes them: four or sixteen bytes. *)
Definition well_formed (ip : IP) : Prop :=
  match ip with
  | None => True
  | Some bytes =>
      (List.length bytes = 4%nat \/ List.length bytes = 16%nat)
      /\ Forall (fun b => b < 256) bytes
  end.

Lemma isPrivateOrLocalIP_disallowed (ip : IP) :
  well_formed ip -> isPrivateOrLocalIP ip = disallowed ip.
Proof.
  destruct ip as [bytes|]; [|done]. intros [Hlen Hbytes]. unfold disallowed.
  destruct Hlen as [Hlen|Hlen].
  - destruct bytes as [|a [|b [|c [|d [|]]]]]; try done.
    rewrite To4_v4. apply classify_v4; [done|apply IsUnspecified_v4|..].
    + by inversion Hbytes.
    + inversion Hbytes as [|? ? _ Hrest]. by inversion Hrest.
  - destruct (decide (take 12 bytes = v4InV6Prefix)) as [Hprefix|Hprefix].
    + assert (exists tail, bytes = v4InV6Prefix ++ tail) as [tail ->]
        by (exists (drop 12 bytes); rewrite <- Hprefix; symmetry; apply take_drop).
      clear Hprefix. rewrite length_app in Hlen.
      destruct tail as [|a [|b [|c [|d [|]]]]]; try done.
      rewrite To4_mapped.
      apply classify_v4; [done|apply IsUnspecified_mapped|..].
      * apply Forall_app in Hbytes as [_ Hbytes]. by inversion Hbytes.
      * apply Forall_app in Hbytes as [_ Hbytes].
        inversion Hbytes as [|? ? _ Hrest]. by inversion Hrest.
    + rewrite (To4_v6 bytes Hlen Hprefix). apply classify_v6; try done.
      * destruct bytes as [|a ?]; [done|]. by inversion Hbytes.
      * destruct bytes as [|a [|b ?]]; try done.
        inversion Hbytes as [|? ? _ Hrest]. by inversion Hrest.
Qed.

End AddressClasses.

Section EgressFacts.
Import Go Network.

Variable env : Env.

(** The override: the variable holds "true", in any case and with blanks
    around it allowed. *)
Definition override : Prop :=
  EqualFold_true (TrimSpace (Getenv env allowPrivateEgressEnv)) = true.

Definition supported_scheme (u : URL) : Prop :=
  ToLower (TrimSpace (Scheme u)) = "http"
  \/ ToLower (TrimSpace (Scheme u)) = "https".

Definition host (u : URL) : string := TrimSpace (Hostname u).

(** The addresses of the host all pass: the host is an address that
    passes, or it resolves to at least one address and every one passes. *)
Definition addresses_pass (hostname : string) : Prop :=
  match ParseIP env hostname with
  | Some ip => isPrivateOrLocalIP (Some ip) = false
  | None =>
      exists ipAddrs, resolveIPAddrs env hostname = inr ipAddrs
        /\ ipAddrs <> []
        /\ forall ip, ip ∈ ipAddrs -> isPrivateOrLocalIP ip = false
  end.

Lemma supported_scheme_test (u : URL) :
  negb (String.eqb (ToLower (TrimSpace (Scheme u))) "http")
  && negb (String.eqb (ToLower (TrimSpace (Scheme u))) "https") = false
  <-> supported_scheme u.
Proof.
  unfold supported_scheme.
  destruct (String.eqb_spec (ToLower (TrimSpace (Scheme u))) "http") as [->|H1];
    [by split; [left|]|].
  destruct (String.eqb_spec (ToLower (TrimSpace (Scheme u))) "https") as [->|H2];
    [by split; [right|]|].
  cbn. split; [done|]. by intros [?|?].
Qed.

Lemma existsb_false_all (ipAddrs : list IP) :
  existsb isPrivateOrLocalIP ipAddrs = false
  <-> forall ip, ip ∈ ipAddrs -> isPrivateOrLocalIP ip = false.
Proof.
  split.
  - intros H ip Hin. destruct (isPrivateOrLocalIP ip) eqn:Hip; [|done].
    rewrite <- H. symmetry. apply existsb_exists. exists ip.
    split; [by apply list_elem_of_In | done].
  - intros H. destruct (existsb isPrivateOrLocalIP ipAddrs) eqn:Hex; [|done].
    apply existsb_exists in Hex as (ip & Hin%list_elem_of_In & Hip).
    by rewrite (H ip Hin) in Hip.
Qed.

(** Without the override, the URLs that pass. *)
Lemma EnsureOutboundURLAllowed_passes (rawURL : string) :
  ~ override ->
  EnsureOutboundURLAllowed env rawURL = None
  <-> exists u, url_Parse env (TrimSpace rawURL) = inr u
        /\ supported_scheme u
        /\ host u <> ""
        /\ isLocalHostname (host u) = false
        /\ addresses_pass (host u).
Proof.
  intros Hover. apply not_true_is_false in Hover.
  unfold EnsureOutboundURLAllowed, addresses_pass. rewrite Hover.
  destruct (url_Parse env (TrimSpace rawURL)) as [e|u];
    [split; [done | by intros (? & ? & _)]|].
  fold (host u).
  destruct (negb _ && negb _) eqn:Hscheme.
  { split; [done|]. intros (? & [= <-] & Hs%supported_scheme_test & _).
    congruence. }
  apply supported_scheme_test in Hscheme.
  destruct (decide (host u = "")) as [Hempty|Hhost];
    [split; [done | by intros (? & [= <-] & _ & ? & _)]|].
  destruct (isLocalHostname (host u)) eqn:Hlocal;
    [split; [done | intros (? & [= <-] & _ & _ & ? & _); congruence]|].
  split.
  - intros Hnone. exists u. repeat split; try done.
    destruct (ParseIP env (host u)) as [ip|].
    + by destruct (isPrivateOrLocalIP (Some ip)).
    + destruct (resolveIPAddrs env (host u)) as [e|ipAddrs]; [done|].
      destruct (decide (ipAddrs = [])); [done|].
      destruct (existsb isPrivateOrLocalIP ipAddrs) eqn:Hex; [done|].
      exists ipAddrs. repeat split; try done. by apply existsb_false_all.
  - intros (? & [= <-] & _ & _ & _ & Hpass).
    destruct (ParseIP env (host u)) as [ip|].
    + by rewrite Hpass.
    + destruct Hpass as (ipAddrs & -> & Hsome & Hall%existsb_false_all).
      destruct (decide (ipAddrs = [])); [done|]. by rewrite Hall.
Qed.

(** C2.  With the override, every URL passes.  Without it, a URL passes
    exactly when it parses, its scheme is http or https, its host is not
    empty and not a local name, and the host's addresses all pass; so the
    check fails for another scheme, for a local host name, for a refused
    address given as the host, when the resolver fails or finds no
    address, and when one of the addresses found is refused.  The refused
    addresses are the nil address and those in the ranges of
    [disallowed]. *)
Theorem EnsureOutboundURLAllowed_policy (rawURL : string) :
  (override -> EnsureOutboundURLAllowed env rawURL = None)
  /\ (~ override ->
      (EnsureOutboundURLAllowed env rawURL = None
       <-> exists u, url_Parse env (TrimSpace rawURL) = inr u
             /\ supported_scheme u
             /\ host u <> ""
             /\ isLocalHostname (host u) = false
             /\ addresses_pass (host u))
      /\ forall u, url_Parse env (TrimSpace rawURL) = inr u ->
          (~ supported_scheme u -> EnsureOutboundURLAllowed env rawURL <> None)
          /\ (isLocalHostname (host u) = true ->
              EnsureOutboundURLAllowed env rawURL <> None)
          /\ (forall ip, ParseIP env (host u) = Some ip ->
                isPrivateOrLocalIP (Some ip) = true ->
                EnsureOutboundURLAllowed env rawURL <> None)
          /\ (ParseIP env (host u) = None ->
              (forall e, resolveIPAddrs env (host u) = inl e ->
                 EnsureOutboundURLAllowed env rawURL <> None)
              /\ (resolveIPAddrs env (host u) = inr [] ->
                  EnsureOutboundURLAllowed env rawURL <> None)
              /\ (forall ipAddrs ip,
                    resolveIPAddrs env (host u) = inr ipAddrs ->
                    ip ∈ ipAddrs -> isPrivateOrLocalIP ip = true ->
                    EnsureOutboundURLAllowed env rawURL <> None)))
  /\ (forall ip, well_formed ip -> isPrivateOrLocalIP ip = disallowed ip).
Proof.
  split; [|split; [|apply isPrivateOrLocalIP_disallowed]].
  - unfold override, EnsureOutboundURLAllowed. by intros ->.
  - intros Hover. split; [by apply EnsureOutboundURLAllowed_passes|].
    intros u Hparse.
    assert (EnsureOutboundURLAllowed env rawURL = None ->
            supported_scheme u /\ isLocalHostname (host u) = false
            /\ addresses_pass (host u)) as Hpass.
    { intros (u' & Hparse' & ? & _ & ? & ?)%EnsureOutboundURLAllowed_passes; [|done].
      rewrite Hparse in Hparse'. by injection Hparse' as <-. }
    unfold addresses_pass in Hpass.
    split; [|split; [|split]].
    + intros Hscheme (? & _)%Hpass. done.
    + intros Hlocal (_ & ? & _)%Hpass. congruence.
    + intros ip Hip Hclass (_ & _ & Hok)%Hpass. rewrite Hip in Hok. congruence.
    + intros Hip. split; [|split].
      * intros e Hres (_ & _ & Hok)%Hpass. rewrite Hip, Hres in Hok.
        by destruct Hok as (? & ? & _).
      * intros Hres (_ & _ & Hok)%Hpass. rewrite Hip, Hres in Hok.
        by destruct Hok as (? & [= <-] & ? & _).
      * intros ipAddrs ip Hres Hin Hclass (_ & _ & Hok)%Hpass.
        rewrite Hip, Hres in Hok. destruct Hok as (? & [= <-] & _ & Hall).
        specialize (Hall ip Hin). congruence.
Qed.

End EgressFacts.

Section EgressExamples.
Import Go Network.

Definition v4 (a b c d : N) : IP := Some (v4InV6Prefix ++ [a; b; c; d]).

(** fd00::1 *)
Definition fd00_1 : list N := ([0xfd] ++ replicate 14 0 ++ [1])%N.


Fixpoint lookup_table {A} (table : list (string * A)) (key : string) : option A :=
  match table with
  | [] => None
  | (k, v) :: rest => if String.eqb k key then Some v else lookup_table rest key
  end.

(** What [url.Parse] makes of the URLs of the examples. *)
Definition sample_urls : list (string * URL) :=
  [ ("http://localhost:8080/", {| Scheme := "http"; Hostname := "localhost" |});
    ("http://api.LOCALHOST/", {| Scheme := "http"; Hostname := "api.LOCALHOST" |});
    ("http://10.0.0.1/", {| Scheme := "http"; Hostname := "10.0.0.1" |});
    ("http://127.0.0.1:8080/", {| Scheme := "http"; Hostname := "127.0.0.1" |});
    ("http://169.254.169.254/", {| Scheme := "http"; Hostname := "169.254.169.254" |});
    ("http://100.64.0.1/", {| Scheme := "http"; Hostname := "100.64.0.1" |});
    ("http://8.8.8.8/", {| Scheme := "http"; Hostname := "8.8.8.8" |});
    ("http://[fd00::1]/", {| Scheme := "http"; Hostname := "fd00::1" |});
    ("http:///path", {| Scheme := "http"; Hostname := "" |});
    ("ftp://example.com/", {| Scheme := "ftp"; Hostname := "example.com" |});
    ("HTTPS://example.com/", {| Scheme := "https"; Hostname := "example.com" |});
    ("https://intranet.example/", {| Scheme := "https"; Hostname := "intranet.example" |});
    ("https://nowhere.example/", {| Scheme := "https"; Hostname := "nowhere.example" |});
    ("https://missing.example/", {| Scheme := "https"; Hostname := "missing.example" |}) ].

Definition sample_addresses : list (string * IP) :=
  [ ("10.0.0.1", v4 10 0 0 1); ("127.0.0.1", v4 127 0 0 1);
    ("169.254.169.254", v4 169 254 169 254); ("100.64.0.1", v4 100 64 0 1);
    ("8.8.8.8", v4 8 8 8 8); ("fd00::1", Some fd00_1) ]%N.

Definition sample_hosts : list (string * (error + list IP)) :=
  [ ("example.com", inr [v4 93 184 216 34]);
    ("intranet.example", inr [v4 93 184 216 34; v4 192 168 1 7]);
    ("nowhere.example", inr []) ]%N.

Definition sample_net (flag : string) : Env :=
  {| Getenv := fun name =>
       if String.eqb name allowPrivateEgressEnv then flag else "";
     url_Parse := fun raw =>
       match lookup_table sample_urls raw with
       | Some u => inr u
       | None => inl (ErrNew "parse error")
       end;
     ParseIP := fun s => default None (lookup_table sample_addresses s);
     resolveIPAddrs := fun hostname =>
       default (inl (ErrNew "no such host")) (lookup_table sample_hosts hostname) |}.

Example egress_refused :
  Forall (fun rawURL => EnsureOutboundURLAllowed (sample_net "") rawURL <> None)
    [ "http://localhost:8080/"; "http://api.LOCALHOST/"; "http://10.0.0.1/";
      "http://127.0.0.1:8080/"; "http://169.254.169.254/"; "http://100.64.0.1/";
      "ftp://example.com/"; "https://intranet.example/";
      "https://nowhere.example/"; "https://missing.example/" ].
Proof. repeat constructor; by vm_compute. Qed.

Example egress_allowed :
  Forall (fun rawURL => EnsureOutboundURLAllowed (sample_net "") rawURL = None)
    [ "http://8.8.8.8/"; "HTTPS://example.com/"; " HTTPS://example.com/ " ].
Proof. repeat constructor. Qed.

Example egress_override :
  Forall (fun flag =>
            EnsureOutboundURLAllowed (sample_net flag) "http://127.0.0.1:8080/" = None)
    [ "true"; " TRUE "; "True" ]
  /\ Forall (fun flag =>
               EnsureOutboundURLAllowed (sample_net flag) "http://127.0.0.1:8080/"
               = Some errBlockedIP)
       [ ""; "1"; "yes" ].
Proof. split; repeat constructor. Qed.

(** C2, as first stated, fails: three URLs are refused that are in none
    of the cases it lists.  The host fd00::1 is no IPv4 address and is
    not loopback, link-local, multicast or unspecified; it is refused as
    private, being in fc00::/7.  A URL with an empty host and a text that
    is no URL are refused as well. *)
Lemma egress_refused_outside_listed_classes :
  ~ override (sample_net "")
  /\ EnsureOutboundURLAllowed (sample_net "") "http://[fd00::1]/" = Some errBlockedIP
  /\ ParseIP (sample_net "") "fd00::1" = Some fd00_1
  /\ To4 fd00_1 = None
  /\ IsLoopback fd00_1 = false
  /\ IsLinkLocalUnicast fd00_1 = false
  /\ IsLinkLocalMulticast fd00_1 = false
  /\ IsMulticast fd00_1 = false
  /\ IsUnspecified fd00_1 = false
  /\ IsPrivate fd00_1 = true
  /\ EnsureOutboundURLAllowed (sample_net "") "http:///path" = Some errInvalidHost
  /\ EnsureOutboundURLAllowed (sample_net "") "http://a b/"
     = Some (wrap "invalid URL" (ErrNew "parse error")).
Proof. split; [by vm_compute|]. repeat split. Qed.

End EgressExamples.

(* ===================================================================== *)
(** * Properties: EditPatch, counting and replacing occurrences            *)
(* ===================================================================== *)

Section Occurrences.
Import Go EditPatch.

Variable old : list ascii.
Hypothesis old_nonempty : old <> [].

(** [old] occurs in [s] after the prefix [pre]. *)
Definition occurs_at (pre s : list ascii) : Prop :=
  exists post, s = pre ++ old ++ post.

Definition absent (s : list ascii) : Prop := forall pre, ~ occurs_at pre s.

(** The first occurrence of [old] in [s] is the one after [pre]. *)
Definition leftmost (pre s : list ascii) : Prop :=
  occurs_at pre s
  /\ forall pre', occurs_at pre' s -> (List.length pre <= List.length pre')%nat.

(** [s] cut at its occurrences of [old], taken from the left and without
    overlap: the pieces between them. *)
Inductive splits : list ascii -> list (list ascii) -> Prop :=
  | splits_last s : absent s -> splits s [s]
  | splits_more pre post pieces :
      leftmost pre (pre ++ old ++ post) -> splits post pieces ->
      splits (pre ++ old ++ post) (pre :: pieces).

Fixpoint glue (sep : list ascii) (pieces : list (list ascii)) : list ascii :=
  match pieces with
  | [] => []
  | [piece] => piece
  | piece :: rest => piece ++ sep ++ glue sep rest
  end.

Lemma glue_cons sep piece rest :
  rest <> [] -> glue sep (piece :: rest) = piece ++ sep ++ glue sep rest.
Proof. by destruct rest. Qed.

Lemma splits_nonempty s pieces : splits s pieces -> pieces <> [].
Proof. by destruct 1. Qed.

Lemma splits_glue s pieces : splits s pieces -> glue old pieces = s.
Proof.
  induction 1 as [s _|pre post pieces _ Hrest IH]; [done|].
  rewrite glue_cons by (by eapply splits_nonempty). by rewrite IH.
Qed.

Lemma head_occurrence s : prefixb old s = true <-> occurs_at [] s.
Proof. apply prefixb_spec. Qed.

Lemma absent_head s : absent s -> prefixb old s = false.
Proof.
  intros Habsent. apply not_true_is_false. intros H%head_occurrence.
  by apply (Habsent []).
Qed.

Lemma absent_tail c s : absent (c :: s) -> absent s.
Proof. intros Habsent pre [post ->]. apply (Habsent (c :: pre)). by exists post. Qed.

Lemma leftmost_head c pre s : leftmost (c :: pre) s -> prefixb old s = false.
Proof.
  intros [_ Hfirst]. apply not_true_is_false. intros H%head_occurrence.
  apply Hfirst in H. cbn in H. lia.
Qed.

Lemma leftmost_tail c pre s : leftmost (c :: pre) (c :: s) -> leftmost pre s.
Proof.
  intros [[post Hpost] Hfirst]. split.
  - exists post. by injection Hpost.
  - intros pre' [post' ->].
    specialize (Hfirst (c :: pre') ltac:(by exists post')). cbn in Hfirst. lia.
Qed.

(** Every string has no occurrence or a first one. *)
Lemma absent_or_leftmost s :
  absent s \/ exists pre post, s = pre ++ old ++ post /\ leftmost pre s.
Proof.
  induction s as [|c s IH].
  - left. intros pre [post H]. symmetry in H.
    apply app_eq_nil in H as [_ [H _]%app_eq_nil]. done.
  - destruct (prefixb old (c :: s)) eqn:Hhead.
    + right. apply head_occurrence in Hhead as Hocc. destruct Hocc as [post Hpost].
      exists [], post. split; [done|]. split; [by exists post|].
      intros; cbn; lia.
    + assert (~ occurs_at [] (c :: s)) as Hnot
        by (intros H%head_occurrence; congruence).
      destruct IH as [Habsent|(pre & post & -> & Hleft)].
      * left. intros [|c' pre] [post Hpost]; [by apply Hnot; exists post|].
        injection Hpost as -> Hs. apply (Habsent pre). by exists post.
      * right. exists (c :: pre), post. split; [done|]. split; [by exists post|].
        intros [|c' pre'] [post' Hpost]; [by destruct Hnot; exists post'|].
        injection Hpost as -> Hs. destruct Hleft as [_ Hfirst].
        specialize (Hfirst pre' ltac:(by exists post')). cbn. lia.
Qed.

(** Every string can be cut. *)
Lemma splits_total s : exists pieces, splits s pieces.
Proof.
  remember (List.length s) as n eqn:Hn. revert s Hn.
  induction n as [n IH] using lt_wf_ind. intros s ->.
  destruct (absent_or_leftmost s) as [Habsent|(pre & post & -> & Hleft)].
  - exists [s]. by constructor.
  - destruct (IH (List.length post)) with (s := post) as [pieces Hpieces]; [|done|].
    + rewrite !length_app. destruct old; [done|]. cbn. lia.
    + exists (pre :: pieces). by constructor.
Qed.

Lemma count_from_skip skip s :
  count_from old skip s = count_from old 0 (drop skip s).
Proof.
  revert skip. induction s as [|c s IH]; intros [|skip]; try done.
  cbn [count_from drop]. apply IH.
Qed.

Lemma replace_from_skip new n skip s :
  replace_from old new n skip s = replace_from old new n 0 (drop skip s).
Proof.
  revert skip. induction s as [|c s IH]; intros [|skip]; try done.
  cbn [replace_from drop]. apply IH.
Qed.

Lemma skip_rest post :
  exists c rest, old = c :: rest
    /\ old ++ post = c :: (rest ++ post)
    /\ drop (List.length old - 1) (rest ++ post) = post.
Proof.
  destruct old as [|c rest]; [done|]. exists c, rest.
  repeat split. cbn [List.length]. rewrite Nat.sub_succ, Nat.sub_0_r.
  by rewrite drop_app_length.
Qed.

Lemma count_from_leftmost pre post :
  leftmost pre (pre ++ old ++ post) ->
  count_from old 0 (pre ++ old ++ post) = 1 + count_from old 0 post.
Proof.
  induction pre as [|c pre IH]; intros Hleft.
  - destruct (skip_rest post) as (c & rest & Hold & Hs & Hdrop).
    cbn [app]. rewrite Hs. cbn [count_from]. rewrite <- Hs.
    rewrite (proj2 (head_occurrence _)) by (by exists post).
    by rewrite count_from_skip, Hdrop.
  - cbn [app count_from]. change (c :: pre ++ old ++ post) with ((c :: pre) ++ old ++ post).
    rewrite (leftmost_head _ _ _ Hleft). apply IH. by eapply leftmost_tail.
Qed.

Lemma replace_from_leftmost new n pre post :
  n <> 0 ->
  leftmost pre (pre ++ old ++ post) ->
  replace_from old new n 0 (pre ++ old ++ post)
  = pre ++ new ++ replace_from old new (n - 1) 0 post.
Proof.
  intros Hn. apply Z.eqb_neq in Hn.
  induction pre as [|c pre IH]; intros Hleft.
  - destruct (skip_rest post) as (c & rest & Hold & Hs & Hdrop).
    cbn [app]. rewrite Hs. cbn [replace_from]. rewrite <- Hs, Hn.
    rewrite (proj2 (head_occurrence _)) by (by exists post).
    cbn [negb andb]. by rewrite replace_from_skip, Hdrop.
  - cbn [app replace_from].
    change (c :: pre ++ old ++ post) with ((c :: pre) ++ old ++ post).
    rewrite (leftmost_head _ _ _ Hleft), andb_false_r.
    f_equal. apply IH. by eapply leftmost_tail.
Qed.

Lemma count_from_absent s : absent s -> count_from old 0 s = 0.
Proof.
  induction s as [|c s IH]; intros Habsent; [done|].
  cbn [count_from]. rewrite (absent_head _ Habsent). by eapply IH, absent_tail.
Qed.

Lemma replace_from_absent new n s : absent s -> replace_from old new n 0 s = s.
Proof.
  induction s as [|c s IH]; intros Habsent; [done|].
  cbn [replace_from]. rewrite (absent_head _ Habsent), andb_false_r.
  f_equal. by eapply IH, absent_tail.
Qed.

Lemma replace_from_none new s : replace_from old new 0 0 s = s.
Proof. induction s as [|c s IH]; [done|]. cbn. by f_equal. Qed.

(** [strings.Count] counts the cuts. *)
Lemma count_from_splits s pieces :
  splits s pieces -> count_from old 0 s = Z.of_nat (List.length pieces) - 1.
Proof.
  induction 1 as [s Habsent|pre post pieces Hleft _ IH].
  - by apply count_from_absent.
  - rewrite (count_from_leftmost _ _ Hleft), IH. cbn [List.length]. lia.
Qed.

(** [strings.ReplaceAll] puts [new] at every cut. *)
Lemma replace_all_splits new n s pieces :
  n < 0 -> splits s pieces -> replace_from old new n 0 s = glue new pieces.
Proof.
  intros Hn Hsplits. revert n Hn.
  induction Hsplits as [s Habsent|pre post pieces Hleft Hrest IH]; intros n Hn.
  - by apply replace_from_absent.
  - rewrite (replace_from_leftmost _ n _ _ ltac:(lia) Hleft), IH by lia.
    by rewrite glue_cons by (by eapply splits_nonempty).
Qed.

(** [strings.Replace] with the count 1 puts [new] at the first cut. *)
Lemma replace_first_leftmost new pre post :
  leftmost pre (pre ++ old ++ post) ->
  replace_from old new 1 0 (pre ++ old ++ post) = pre ++ new ++ post.
Proof.
  intros Hleft.
  by rewrite (replace_from_leftmost _ 1 _ _ ltac:(lia) Hleft), replace_from_none.
Qed.

End Occurrences.

Section EditPatchFacts.
Import Go Os Tools Envelope EditPatch.

Variable json_Unmarshal : string -> error + editPatchArgs.

Lemma count_from_nonneg old skip s : 0 <= count_from old skip s.
Proof.
  revert skip. induction s as [|c s IH]; intros skip; cbn [count_from]; [done|].
  destruct skip; [|done]. destruct (prefixb old (c :: s)); [|done].
  specialize (IH (List.length old - 1)%nat). lia.
Qed.

Lemma bytes_of_nonempty s : s <> "" -> bytes_of s <> [].
Proof. intros Hs H. apply Hs. by apply bytes_of_inj. Qed.

(** The answer of a successful edit. *)
Definition edited (args : editPatchArgs) (replacements occurrences : Z) : value :=
  VMap [("file_path", VString (TrimSpace (FilePath args)));
        ("replacements", VInt replacements);
        ("replace_all", VBool (ReplaceAll_ args));
        ("total_matches", VInt occurrences)].

(** C8.  For arguments that decode: with an empty [old_string] the call
    fails and the files are left alone.  With a path that is set and
    allowed and a file that can be read: if [old_string] does not occur in
    the content the call fails; otherwise, the content being cut into
    [pieces] at the occurrences, the number of occurrences is one less
    than the number of pieces and is reported as [total_matches]; without
    [replace_all] the file is written with the first occurrence replaced
    and [replacements] is 1, with [replace_all] with every occurrence
    replaced and [replacements] is the number of occurrences.  Every
    content can be cut into pieces. *)
Theorem EditPatch_Execute_replaces
    (ctx : ToolContext) (arguments : string) (os : state) (args : editPatchArgs) :
  json_Unmarshal arguments = inr args ->
  let path := ResolvePath ctx (TrimSpace (FilePath args)) in
  let old := bytes_of (OldString args) in
  let new := bytes_of (NewString args) in
  (OldString args = "" ->
   exists e, Execute json_Unmarshal ctx arguments os = (failed e, os))
  /\ (TrimSpace (FilePath args) <> "" -> OldString args <> "" ->
      EnsurePathAllowed os ctx path = None ->
      forall content os1, ReadFile os path = (inr content, os1) ->
        (absent old (bytes_of content) ->
         Execute json_Unmarshal ctx arguments os
         = (failed (ErrNew "old_string not found in file"), os1))
        /\ (forall pre post pieces os2,
              bytes_of content = pre ++ old ++ post ->
              leftmost old pre (bytes_of content) ->
              splits old (bytes_of content) pieces ->
              let occurrences := Z.of_nat (List.length pieces) - 1 in
              WriteFile os1 path
                (if ReplaceAll_ args then str (glue new pieces)
                 else str (pre ++ new ++ post)) = (None, os2) ->
              1 <= occurrences
              /\ Execute json_Unmarshal ctx arguments os
                 = ((edited args (if ReplaceAll_ args then occurrences else 1)
                       occurrences, None), os2))
        /\ exists pieces, splits old (bytes_of content) pieces).
Proof.
  intros Hdecode. cbv zeta. split; [|intros Hpath Hold Hallowed content os1 Hread].
  - intros Hold. unfold Execute. rewrite Hdecode.
    destruct (decide (TrimSpace (FilePath args) = "")); [by eexists|].
    destruct (decide (OldString args = "")); [by eexists|done].
  - pose proof (bytes_of_nonempty _ Hold) as Hne.
    assert (forall occurrences,
      Count content (OldString args) = occurrences ->
      Execute json_Unmarshal ctx arguments os
      = if occurrences =? 0
        then (failed (ErrNew "old_string not found in file"), os1)
        else
          let '(newContent, replacements) :=
            if ReplaceAll_ args
            then (ReplaceAll content (OldString args) (NewString args), occurrences)
            else (Replace content (OldString args) (NewString args) 1, 1) in
          match WriteFile os1 (ResolvePath ctx (TrimSpace (FilePath args))) newContent with
          | (Some err, os) => (failed (wrap "error writing file" err), os)
          | (None, os) => ((edited args replacements occurrences, None), os)
          end) as Hrun.
    { intros occurrences <-. unfold Execute. rewrite Hdecode.
      destruct (decide (TrimSpace (FilePath args) = "")); [done|].
      destruct (decide (OldString args = "")); [done|].
      rewrite Hallowed, Hread. reflexivity. }
    split; [|split; [|by apply splits_total]].
    + intros Habsent. rewrite (Hrun 0); [done|].
      by apply count_from_absent.
    + intros pre post pieces os2 Hcontent Hleft Hsplits Hwrite.
      assert (Count content (OldString args) = Z.of_nat (List.length pieces) - 1)
        as Hcount by (by apply count_from_splits).
      assert (1 <= Z.of_nat (List.length pieces) - 1) as Hpos.
      { rewrite <- Hcount. unfold Count. rewrite Hcontent in Hleft |- *.
        rewrite (count_from_leftmost _ Hne _ _ Hleft).
        pose proof (count_from_nonneg (bytes_of (OldString args)) 0 post). lia. }
      split; [done|]. rewrite (Hrun _ Hcount).
      replace (Z.of_nat (List.length pieces) - 1 =? 0) with false
        by (symmetry; apply Z.eqb_neq; lia).
      destruct (ReplaceAll_ args).
      * unfold ReplaceAll, Replace.
        rewrite (replace_all_splits _ Hne _ (-1) _ _ eq_refl Hsplits).
        by rewrite Hwrite.
      * unfold Replace. rewrite Hcontent in Hleft |- *.
        rewrite (replace_first_leftmost _ Hne _ _ _ Hleft).
        by rewrite Hwrite.
Qed.

End EditPatchFacts.

Section EditPatchExamples.
Import Go Os Tools Envelope EditPatch.

(** Without an occurrence counted there is none. *)
Lemma count_from_zero_absent old s :
  old <> [] -> count_from old 0 s = 0 -> absent old s.
Proof.
  intros Hne Hcount.
  destruct (absent_or_leftmost old Hne s) as [?|(pre & post & -> & Hleft)]; [done|].
  rewrite (count_from_leftmost old Hne _ _ Hleft) in Hcount.
  pose proof (count_from_nonneg old 0 post). lia.
Qed.

Lemma leftmost_start old post : leftmost old [] (old ++ post).
Proof. split; [by exists post|]. intros; cbn; lia. Qed.

Definition replacing (path old new : string) (all : bool) : editPatchArgs :=
  {| FilePath := path; OldString := old; NewString := new; ReplaceAll_ := all |}.

(** What [json.Unmarshal] makes of the argument texts of the examples. *)
Definition sample_arguments : list (string * editPatchArgs) :=
  [ (dq "{'file_path':'f.txt','old_string':'hello','new_string':'hola'}",
     replacing "f.txt" "hello" "hola" false);
    (dq "{'file_path':'f.txt','old_string':'o','new_string':'0','replace_all':true}",
     replacing "f.txt" "o" "0" true);
    (dq "{'file_path':'f.txt','old_string':'o','new_string':'0'}",
     replacing "f.txt" "o" "0" false);
    (dq "{'file_path':'f.txt','old_string':'','new_string':'x'}",
     replacing "f.txt" "" "x" false);
    (dq "{'file_path':'f.txt','old_string':'bye','new_string':'x'}",
     replacing "f.txt" "bye" "x" false);
    (dq "{'file_path':'link-out/secret.txt','old_string':'secret','new_string':'x'}",
     replacing "link-out/secret.txt" "secret" "x" false) ].

Definition decode (arguments : string) : error + editPatchArgs :=
  match lookup_table sample_arguments arguments with
  | Some args => inr args
  | None => inl (ErrNew "unexpected end of JSON input")
  end.

Definition run (arguments : string) : (value * option error) * state :=
  Execute decode sample_ctx arguments sample_tree.

Definition content_after (arguments : string) : error + string :=
  (ReadFile (run arguments).2 "/r/f.txt").1.

(** The case of the test: "hello world" with "hello" replaced by "hola". *)
Example hello_replaced :
  let arguments := dq "{'file_path':'f.txt','old_string':'hello','new_string':'hola'}" in
  (run arguments).1
  = (VMap [("file_path", VString "f.txt"); ("replacements", VInt 1);
           ("replace_all", VBool false); ("total_matches", VInt 1)], None)
  /\ content_after arguments = inr "hola world"
  /\ accesses (run arguments).2
     = [AccReadFile "/r/f.txt"; AccWriteFile "/r/f.txt" "hola world"].
Proof. by vm_compute. Qed.

Example every_occurrence_replaced :
  let arguments :=
    dq "{'file_path':'f.txt','old_string':'o','new_string':'0','replace_all':true}" in
  (run arguments).1
  = (VMap [("file_path", VString "f.txt"); ("replacements", VInt 2);
           ("replace_all", VBool true); ("total_matches", VInt 2)], None)
  /\ content_after arguments = inr "hell0 w0rld".
Proof. by vm_compute. Qed.

Example first_of_two_replaced :
  let arguments := dq "{'file_path':'f.txt','old_string':'o','new_string':'0'}" in
  (run arguments).1
  = (VMap [("file_path", VString "f.txt"); ("replacements", VInt 1);
           ("replace_all", VBool false); ("total_matches", VInt 2)], None)
  /\ content_after arguments = inr "hell0 world".
Proof. by vm_compute. Qed.

Example edit_refused :
  run (dq "{'file_path':'f.txt','old_string':'','new_string':'x'}")
  = (failed (ErrNew "old_string must be a non-empty string"), sample_tree)
  /\ (run (dq "{'file_path':'f.txt','old_string':'bye','new_string':'x'}")).1
     = failed (ErrNew "old_string not found in file")
  /\ content_after (dq "{'file_path':'f.txt','old_string':'bye','new_string':'x'}")
     = inr "hello world"
  /\ run (dq "{'file_path':'link-out/secret.txt','old_string':'secret','new_string':'x'}")
     = (failed (wrap "path policy violation" errOutsideAllowedRoot), sample_tree)
  /\ run "{" = (failed (wrap "error parsing arguments"
                          (ErrNew "unexpected end of JSON input")), sample_tree).
Proof. by vm_compute. Qed.

(** Occurrences are counted from the left and do not overlap. *)
Example overlapping_occurrences :
  Count "aaaa" "aa" = 2 /\ Count "aaa" "aa" = 1
  /\ ReplaceAll "aaa" "aa" "b" = "ba" /\ Replace "abab" "ab" "" 1 = "ab".
Proof. by vm_compute. Qed.

Definition hello_arguments : string :=
  dq "{'file_path':'f.txt','old_string':'hello','new_string':'hola'}".

Definition hello_read : state := record (AccReadFile "/r/f.txt") sample_tree.

Definition hello_written : state := (WriteFile hello_read "/r/f.txt" "hola world").2.

Lemma EditPatch_Execute_replaces_witness :
  Execute decode sample_ctx hello_arguments sample_tree
  = ((edited (replacing "f.txt" "hello" "hola" false) 1 1, None), hello_written).
Proof.
  pose proof (EditPatch_Execute_replaces decode sample_ctx hello_arguments
                sample_tree (replacing "f.txt" "hello" "hola" false) eq_refl)
    as [_ H].
  cbv zeta in H.
  assert (TrimSpace "f.txt" <> "") as Hpath by (vm_compute; discriminate).
  assert ("hello" <> "") as Hold by discriminate.
  assert (EnsurePathAllowed sample_tree sample_ctx
            (ResolvePath sample_ctx (TrimSpace "f.txt")) = None) as Hallowed
    by (vm_compute; reflexivity).
  assert (ReadFile sample_tree (ResolvePath sample_ctx (TrimSpace "f.txt"))
          = (inr "hello world", hello_read)) as Hread
    by (vm_compute; reflexivity).
  destruct (H Hpath Hold Hallowed "hello world" hello_read Hread) as (_ & Hedit & _).
  apply (Hedit [] (bytes_of " world") [[]; bytes_of " world"] hello_written).
  - reflexivity.
  - apply (leftmost_start (bytes_of "hello")).
  - apply (splits_more (bytes_of "hello") [] (bytes_of " world")).
    + apply (leftmost_start (bytes_of "hello")).
    + apply splits_last, count_from_zero_absent; [discriminate | reflexivity].
  - vm_compute. reflexivity.
Defined.

End EditPatchExamples.

(* ===================================================================== *)
(** * Further properties: trimming                                         *)
(* ===================================================================== *)

Section TrimFacts.
Import Go.

Lemma space_width_le l : (space_width l <= List.length l)%nat.
Proof.
  destruct l as [|c [|d [|e r]]]; [done|..];
    unfold space_width; destruct (ascii_space c); cbn [List.length map]; try lia;
    generalize (byte c); intros n; repeat case_match; lia.
Qed.

Lemma space_width_rev_le l : (space_width_rev l <= List.length l)%nat.
Proof.
  destruct l as [|c [|d [|e r]]]; [done|..];
    unfold space_width_rev; destruct (ascii_space c); cbn [List.length map]; try lia;
    destruct (negb _); try lia;
    generalize (byte c); intros n; repeat case_match; lia.
Qed.

Lemma strip_width_zero (width : list ascii -> nat) fuel l :
  (forall l, (width l <= List.length l)%nat) ->
  (List.length l <= fuel)%nat ->
  width (strip width fuel l) = 0%nat.
Proof.
  intros Hle. revert l. induction fuel as [|fuel IH]; intros l Hfuel.
  - destruct l; [|cbn in Hfuel; lia]. specialize (Hle []). cbn in *. lia.
  - cbn [strip]. destruct (width l) as [|w] eqn:Hw; [done|].
    apply IH. rewrite length_drop. specialize (Hle l). lia.
Qed.

Lemma strip_suffix (width : list ascii -> nat) fuel l :
  exists k, strip width fuel l = drop k l.
Proof.
  revert l. induction fuel as [|fuel IH]; intros l; [by exists 0%nat|].
  cbn [strip]. destruct (width l) as [|w]; [by exists 0%nat|].
  destruct (IH (drop (S w) l)) as [k ->]. exists (S w + k)%nat.
  by rewrite drop_drop.
Qed.

(** A string that does not start with a white-space rune has no prefix
    that does. *)
Lemma space_width_prefix t s :
  space_width (t ++ s) = 0%nat -> space_width t = 0%nat.
Proof.
  destruct t as [|c [|d [|e t]]]; [done|..]; cbn [app];
    unfold space_width; destruct (ascii_space c); try done; cbn [map];
    generalize (byte c); intros n H; repeat case_match; congruence.
Qed.

Lemma rev_is_reverse {A} (l : list A) : rev l = reverse l.
Proof. apply rev_alt. Qed.

Lemma trim_right_prefix l : exists k, trim_right l = take k l.
Proof.
  unfold trim_right.
  destruct (strip_suffix space_width_rev (List.length l) (rev l)) as [k ->].
  exists (List.length l - k)%nat.
  rewrite !rev_is_reverse.
  by rewrite drop_reverse, reverse_involutive.
Qed.

(** The result of [strings.TrimSpace] neither starts nor ends with a
    white-space rune. *)
Lemma TrimSpace_trimmed s :
  space_width (bytes_of (TrimSpace s)) = 0%nat
  /\ space_width_rev (rev (bytes_of (TrimSpace s))) = 0%nat.
Proof.
  unfold TrimSpace. rewrite bytes_of_str. split.
  - destruct (trim_right_prefix (trim_left (bytes_of s))) as [k ->].
    apply (space_width_prefix _ (drop k (trim_left (bytes_of s)))).
    rewrite take_drop. apply strip_width_zero; [apply space_width_le | done].
  - unfold trim_right. rewrite rev_involutive.
    apply strip_width_zero; [apply space_width_rev_le|].
    by rewrite length_rev.
Qed.

Lemma TrimSpace_idempotent s : TrimSpace (TrimSpace s) = TrimSpace s.
Proof.
  destruct (TrimSpace_trimmed s) as [Hl Hr].
  rewrite <- (str_bytes_of (TrimSpace s)). by apply TrimSpace_fixed.
Qed.

End TrimFacts.

(* ===================================================================== *)
(** * Further properties: argument normalizer                              *)
(* ===================================================================== *)

Section NormalizerMore.
Import Go Normalizer.

Lemma extract_loop_trimmed o c input rest index start depth inString escaped s :
  extract_loop o c input rest index start depth inString escaped = (s, true) ->
  exists x, s = TrimSpace x.
Proof.
  revert index start depth inString escaped.
  induction rest as [|r rest IH]; intros index start depth inString escaped;
    cbn [extract_loop]; [done|].
  repeat case_match; try (by apply IH). intros [= <-]. eauto.
Qed.

Lemma extractBalancedJSON_trimmed input o c s :
  extractBalancedJSON input o c = (s, true) -> TrimSpace s = s.
Proof.
  intros [x ->]%extract_loop_trimmed. apply TrimSpace_idempotent.
Qed.

Lemma normalize_valid_text s :
  TrimSpace s = s -> json_Valid s = true -> NormalizeJSONArguments s = (s, true).
Proof.
  intros Htrim Hvalid. unfold NormalizeJSONArguments. cbn zeta. rewrite Htrim, Hvalid.
  destruct (String.eqb_spec s "") as [->|_]; [done|done].
Qed.

(** What the normalizer returns: valid JSON without blanks around it, or
    the empty text. *)
Lemma normalize_output (raw s : string) (valid : bool) :
  NormalizeJSONArguments raw = (s, valid) ->
  if valid then json_Valid s = true /\ TrimSpace s = s else s = "".
Proof.
  unfold NormalizeJSONArguments. cbn zeta.
  destruct (String.eqb (TrimSpace raw) "").
  { intros [= <- <-]. by vm_compute. }
  destruct (json_Valid (TrimSpace raw)) eqn:Hvalid.
  { intros [= <- <-]. split; [done | apply TrimSpace_idempotent]. }
  destruct (extractBalancedJSON (TrimSpace raw) "{" "}") as [e1 ok1] eqn:H1.
  destruct (ok1 && json_Valid e1) eqn:Hok1.
  { intros [= <- <-]. apply andb_true_iff in Hok1 as [-> Hv]. split; [done|].
    by eapply extractBalancedJSON_trimmed. }
  destruct (extractBalancedJSON (TrimSpace raw) "[" "]") as [e2 ok2] eqn:H2.
  destruct (ok2 && json_Valid e2) eqn:Hok2.
  { intros [= <- <-]. apply andb_true_iff in Hok2 as [-> Hv]. split; [done|].
    by eapply extractBalancedJSON_trimmed. }
  by intros [= <- <-].
Qed.

(** X1.  What [NormalizeJSONArguments] reports as valid is valid JSON and
    is left as it is when normalized again; what it reports as invalid
    comes with the empty text. *)
Theorem NormalizeJSONArguments_idempotent (raw s : string) (valid : bool) :
  NormalizeJSONArguments raw = (s, valid) ->
  if valid
  then json_Valid s = true /\ NormalizeJSONArguments s = (s, true)
  else s = "".
Proof.
  intros H%normalize_output. destruct valid; [|done].
  destruct H as [Hvalid Htrim]. split; [done|]. by apply normalize_valid_text.
Qed.

Lemma NormalizeJSONArguments_idempotent_witness :
  json_Valid "{}" = true /\ NormalizeJSONArguments "{}" = ("{}", true).
Proof.
  assert (NormalizeJSONArguments "  see {} here " = ("{}", true)) as H
    by (vm_compute; reflexivity).
  exact (NormalizeJSONArguments_idempotent "  see {} here " "{}" true H).
Defined.

Lemma find_open_lookup o (ml : list (ascii * bool)) i :
  find_open o ml = Some i -> exists flag, ml !! i = Some (o, flag).
Proof.
  revert i. induction ml as [|m ml IH]; intros i; cbn [find_open]; [done|].
  unfold is_struct at 1. destruct m as [a flag]. cbn.
  destruct flag; cbn.
  - destruct (Ascii.eqb_spec a o) as [->|_].
    + intros [= <-]. eauto.
    + destruct (find_open o ml) as [j|]; [|done]. intros [= <-]. by apply IH.
  - destruct (find_open o ml) as [j|]; [|done]. intros [= <-]. by apply IH.
Qed.

Lemma close_offset_lookup o c (ml : list (ascii * bool)) depth n :
  close_offset o c ml depth = Some n -> exists flag, ml !! n = Some (c, flag).
Proof.
  revert depth n. induction ml as [|m ml IH]; intros depth n;
    cbn [close_offset]; [done|].
  destruct (is_struct o m).
  { destruct (close_offset o c ml (S depth)) as [j|] eqn:Hj; [|done].
    intros [= <-]. by eapply IH. }
  destruct (is_struct c m) eqn:Hc.
  - destruct depth as [|[|d]]; [done|..].
    + intros [= <-]. unfold is_struct in Hc. destruct m as [a flag].
      cbn in Hc. apply andb_true_iff in Hc as [_ Hc].
      apply Ascii.eqb_eq in Hc as ->. cbn. eauto.
    + destruct (close_offset o c ml (S d)) as [j|] eqn:Hj; [|done].
      intros [= <-]. by eapply IH.
  - destruct (close_offset o c ml depth) as [j|] eqn:Hj; [|done].
    intros [= <-]. by eapply IH.
Qed.

(** X2.  The span [extractBalancedJSON] returns is a piece of the input
    that starts with the opening and ends with the closing delimiter. *)
Theorem extractBalancedJSON_piece (input : string) (o c : ascii) (s : string) :
  delimiter o -> delimiter c ->
  extractBalancedJSON input o c = (s, true) ->
  exists pre mid post,
    bytes_of input = pre ++ (o :: mid ++ [c]) ++ post
    /\ bytes_of s = o :: mid ++ [c].
Proof.
  intros Ho Hc. rewrite extractBalancedJSON_span by done.
  unfold first_balanced_span. cbn zeta.
  set (l := bytes_of input). set (ml := zip l (outside_literals false false l)).
  destruct (find_open o ml) as [i|] eqn:Hi; [|done]. cbn.
  destruct (close_offset o c (drop (S i) ml) 1) as [n|] eqn:Hn; [|done]. cbn.
  intros [= <-].
  apply find_open_lookup in Hi as [f1 Hi].
  apply close_offset_lookup in Hn as [f2 Hn]. rewrite lookup_drop in Hn.
  assert (l !! i = Some o) as Hio.
  { unfold ml in Hi.
    apply lookup_zip_with_Some in Hi as (a & b & [= -> ->] & Ha & _). done. }
  assert (l !! (S i + n)%nat = Some c) as Hic.
  { unfold ml in Hn.
    apply lookup_zip_with_Some in Hn as (a & b & [= -> ->] & Ha & _). done. }
  destruct (slice_delimited l i (S i + n) o c Hio Hic ltac:(lia)) as [mid Hmid].
  replace (S i + n + 1 - i)%nat with (n + 2)%nat in Hmid by lia.
  exists (take i l), mid, (drop (n + 2) (drop i l)).
  rewrite bytes_of_str. split; [|done].
  rewrite <- (take_drop i l) at 1. f_equal.
  rewrite <- (take_drop (n + 2) (drop i l)) at 1. by rewrite Hmid.
Qed.

Lemma extractBalancedJSON_piece_witness :
  exists pre mid post,
    bytes_of "say [1, 2] now" = pre ++ ("["%char :: mid ++ ["]"%char]) ++ post
    /\ bytes_of "[1, 2]" = "["%char :: mid ++ ["]"%char].
Proof.
  assert (extractBalancedJSON "say [1, 2] now" "[" "]" = ("[1, 2]", true)) as H
    by (vm_compute; reflexivity).
  exact (extractBalancedJSON_piece "say [1, 2] now" "[" "]" "[1, 2]"
           (or_intror (or_intror (or_introl eq_refl)))
           (or_intror (or_intror (or_intror eq_refl))) H).
Defined.

End NormalizerMore.

(* ===================================================================== *)
(** * Further properties: registry and dispatch                            *)
(* ===================================================================== *)

Section EnvelopeMore.
Import Go Envelope.

(** Every envelope is the text of an object that starts with the field
    [ok]; the field is true only for an envelope built as a success, and
    an envelope that says false carries an error when it was built with
    one. *)
Lemma encodeEnvelope_object (e : ResponseEnvelope) :
  exists fields ok,
    object_text (encodeEnvelope e) fields
    /\ field "ok" fields = Some (JBool ok)
    /\ (ok = true -> OK e = true)
    /\ (ok = false -> (OK e = false -> is_Some (Error e)) ->
        is_Some (field "error" fields)).
Proof.
  unfold encodeEnvelope. destruct (marshal_envelope e) as [j|] eqn:E.
  - destruct (marshal_envelope_fields e j E) as (d & m & -> & Hd & _).
    eexists _, (OK e). split; [reflexivity|]. split; [reflexivity|].
    split; [done|]. intros Hfalse Herror. destruct (Herror Hfalse) as [re Hre].
    rewrite Hre.
    destruct (omit_data (Data e)); [subst d | destruct Hd as (dj & -> & _)];
      vm_compute; eauto.
  - eexists _, false. split; [apply fallbackEnvelope_text|].
    split; [reflexivity|]. split; [done|]. intros _ _. vm_compute. eauto.
Qed.

End EnvelopeMore.

Section RegistryMore.
Import Go Tools Envelope Registry Normalizer.

Context {World : Type}.

(** The envelope behind every answer for a registered tool. *)
Lemma Execute_encoded (registry : gmap string (Tool World))
    (toolCall : Llm.ToolCall) (ctx : ToolContext) (w : World) (tool : Tool World)
    out matched w' called :
  registry !! Llm.Name toolCall = Some tool ->
  Execute_ registry toolCall ctx w = ((out, matched), w', called) ->
  matched = true
  /\ exists e,
       out = encodeEnvelope e
       /\ (OK e = false -> is_Some (Error e))
       /\ (OK e = true ->
           exists args result,
             called = [{| invoked_tool := Name tool; invoked_ctx := ctx;
                          invoked_arguments := args |}]
             /\ Execute tool ctx args w = ((result, None), w')).
Proof.
  intros Hreg. unfold Execute_. rewrite Hreg.
  destruct (_ || _).
  { intros [= <- <- <- <-]. split; [done|]. eexists. split; [reflexivity|].
    cbn. split; [eauto | done]. }
  assert (forall message,
    exists e, ErrorEnvelope message (build_meta tool ctx) = encodeEnvelope e
      /\ (OK e = false -> is_Some (Error e))
      /\ (OK e = true ->
          exists args result,
            @nil invocation
            = [{| invoked_tool := Name tool; invoked_ctx := ctx;
                  invoked_arguments := args |}]
            /\ Execute tool ctx args w = ((result, None), w))) as Herr.
  { intros message. eexists. split; [reflexivity|]. cbn. split; [eauto | done]. }
  destruct (Context ctx) as [[err|]|].
  - destruct (decide (err = Canceled)); intros [= <- <- <- <-]; split; try done;
      apply Herr.
  - destruct (NormalizeJSONArguments (Llm.Arguments toolCall)) as [args valid].
    destruct valid; cbn [negb].
    + destruct (Execute tool ctx args w) as [[result [err|]] w1] eqn:Hrun;
        intros [= <- <- <- <-]; (split; [done|]);
        (eexists; split; [reflexivity|]); cbn.
      * split; [eauto | done].
      * split; [done|]. intros _. by exists args, result.
    + intros [= <- <- <- <-]. split; [done|]. apply Herr.
  - destruct (NormalizeJSONArguments (Llm.Arguments toolCall)) as [args valid].
    destruct valid; cbn [negb].
    + destruct (Execute tool ctx args w) as [[result [err|]] w1] eqn:Hrun;
        intros [= <- <- <- <-]; (split; [done|]);
        (eexists; split; [reflexivity|]); cbn.
      * split; [eauto | done].
      * split; [done|]. intros _. by exists args, result.
    + intros [= <- <- <- <-]. split; [done|]. apply Herr.
Qed.

(** X3.  [Registry.Execute] calls the tool at most once, and only with a
    context whose working directory and allowed root are set and that is
    not done, and with arguments that [NormalizeJSONArguments] accepted,
    which are valid JSON.  When the tool is not called the world is left
    as it was. *)
Theorem Execute_calls_tool_with_valid_arguments
    (registry : gmap string (Tool World)) (toolCall : Llm.ToolCall)
    (ctx : ToolContext) (w : World) out matched w' called :
  Execute_ registry toolCall ctx w = ((out, matched), w', called) ->
  (called = [] /\ w' = w)
  \/ exists tool args,
       registry !! Llm.Name toolCall = Some tool
       /\ called = [{| invoked_tool := Name tool; invoked_ctx := ctx;
                       invoked_arguments := args |}]
       /\ NormalizeJSONArguments (Llm.Arguments toolCall) = (args, true)
       /\ json_Valid args = true
       /\ ~ blank ctx
       /\ (forall err, Context ctx <> Some (Some err))
       /\ w' = (Execute tool ctx args w).2.
Proof.
  unfold Execute_.
  destruct (registry !! Llm.Name toolCall) as [tool|]; [|intros [= <- <- <- <-]; by left].
  destruct (bool_decide (TrimSpace (CWD ctx) = "")
            || bool_decide (TrimSpace (AllowedRoot ctx) = "")) eqn:Hblank;
    [intros [= <- <- <- <-]; by left|].
  assert (~ blank ctx) as Hnot.
  { apply orb_false_iff in Hblank as [?%bool_decide_eq_false ?%bool_decide_eq_false].
    by intros [?|?]. }
  assert (forall done,
    Context ctx = done -> (forall err, done <> Some (Some err)) ->
    (let '(normalizedArguments, valid) :=
       NormalizeJSONArguments (Llm.Arguments toolCall) in
     if negb valid
     then ((ErrorEnvelope (Name tool +:+ ": invalid JSON arguments")
              (build_meta tool ctx), true), w, [])
     else
       let '((result, err), w1) := Execute tool ctx normalizedArguments w in
       let called := [{| invoked_tool := Name tool; invoked_ctx := ctx;
                         invoked_arguments := normalizedArguments |}] in
       match err with
       | Some err =>
           ((ErrorEnvelope (Name tool +:+ ": " +:+ Go.Error err)
               (build_meta tool ctx), true), w1, called)
       | None => ((SuccessEnvelope result (build_meta tool ctx), true), w1, called)
       end) = ((out, matched), w', called) ->
    (called = [] /\ w' = w)
    \/ exists tool' args,
         Some tool = Some tool'
         /\ called = [{| invoked_tool := Name tool'; invoked_ctx := ctx;
                         invoked_arguments := args |}]
         /\ NormalizeJSONArguments (Llm.Arguments toolCall) = (args, true)
         /\ json_Valid args = true
         /\ ~ blank ctx
         /\ (forall err, Context ctx <> Some (Some err))
         /\ w' = (Execute tool' ctx args w).2) as Hlive.
  { intros done Hctx Hdone.
    destruct (NormalizeJSONArguments (Llm.Arguments toolCall)) as [args valid] eqn:Hn.
    destruct valid; cbn [negb]; [|intros [= <- <- <- <-]; by left].
    apply normalize_output in Hn as Hvalid. destruct Hvalid as [Hvalid _].
    destruct (Execute tool ctx args w) as [[result err] w1] eqn:Hrun.
    intros H. right. exists tool, args.
    assert (called = [{| invoked_tool := Name tool; invoked_ctx := ctx;
                         invoked_arguments := args |}] /\ w' = w1) as [-> ->]
      by (destruct err; by injection H as <- <- <- <-).
    split; [done|]. split; [done|]. split; [done|]. split; [done|].
    split; [done|]. split; [by rewrite Hctx|]. by rewrite Hrun. }
  destruct (Context ctx) as [[err|]|] eqn:Hctx.
  - destruct (decide (err = Canceled)); intros [= <- <- <- <-]; by left.
  - by apply (Hlive (Some None)).
  - by apply (Hlive None).
Qed.

(** X4.  For a registered tool [Registry.Execute] always answers, with an
    envelope: the text of an object with the field [ok].  The field is
    true only when the tool was called and returned no error; when it is
    false the object has the field [error]. *)
Theorem Execute_registered_answers_envelope
    (registry : gmap string (Tool World)) (toolCall : Llm.ToolCall)
    (ctx : ToolContext) (w : World) (tool : Tool World) :
  registry !! Llm.Name toolCall = Some tool ->
  exists out w' called fields ok,
    Execute_ registry toolCall ctx w = ((out, true), w', called)
    /\ object_text out fields
    /\ field "ok" fields = Some (JBool ok)
    /\ (ok = true ->
        exists args result,
          called = [{| invoked_tool := Name tool; invoked_ctx := ctx;
                       invoked_arguments := args |}]
          /\ Execute tool ctx args w = ((result, None), w'))
    /\ (ok = false -> is_Some (field "error" fields)).
Proof.
  intros Hreg.
  destruct (Execute_ registry toolCall ctx w) as [[[out matched] w'] called] eqn:Hrun.
  destruct (Execute_encoded _ _ _ _ _ _ _ _ _ Hreg Hrun)
    as (-> & e & -> & Herror & Hok).
  destruct (encodeEnvelope_object e) as (fields & ok & Htext & Hfield & Htrue & Hfalse).
  exists (encodeEnvelope e), w', called, fields, ok.
  repeat split; try done.
  - intros ->. by apply Hok, Htrue.
  - intros ->. by apply Hfalse.
Qed.

End RegistryMore.

Section DispatchFacts.
Import Go Tools Envelope Registry Appcore.

Context {World : Type}.

(** X5.  [DispatchToolCall] always answers with an envelope, the text of
    an object with the field [ok], and with the field [error] when [ok] is
    false.  Without a registry, or for a name the registry does not know,
    the answer is the error envelope of the unknown tool, whose meta data
    name the tool; nothing is called and the world is left as it was. *)
Theorem DispatchToolCall_answers_envelope
    (toolRegistry : option (gmap string (Tool World)))
    (ctx : ToolContext) (toolCall : Llm.ToolCall) (w : World) :
  exists fields ok,
    object_text (DispatchToolCall toolRegistry ctx toolCall w).1.1 fields
    /\ field "ok" fields = Some (JBool ok)
    /\ (ok = false -> is_Some (field "error" fields))
    /\ ((forall registry, toolRegistry = Some registry ->
                          registry !! Llm.Name toolCall = None) ->
        DispatchToolCall toolRegistry ctx toolCall w
        = (ErrorEnvelope ("unknown tool '" +:+ Llm.Name toolCall +:+ "'")
                         {[ "tool" := VString (Llm.Name toolCall) ]}, w, [])
        /\ ok = false
        /\ field "error" fields
           = Some (error_object ("unknown tool '" +:+ Llm.Name toolCall +:+ "'"))
        /\ exists mf, field "meta" fields = Some (JObject mf)
                      /\ field "tool" mf = Some (JString (Llm.Name toolCall))).
Proof.
  assert (exists fields,
    object_text (ErrorEnvelope ("unknown tool '" +:+ Llm.Name toolCall +:+ "'")
                               {[ "tool" := VString (Llm.Name toolCall) ]}) fields
    /\ field "ok" fields = Some (JBool false)
    /\ field "error" fields
       = Some (error_object ("unknown tool '" +:+ Llm.Name toolCall +:+ "'"))
    /\ exists mf, field "meta" fields = Some (JObject mf)
                  /\ field "tool" mf = Some (JString (Llm.Name toolCall)))
    as (uf & Hutext & Huok & Huerr & Humeta).
  { destruct (ErrorEnvelope_meta
                ("unknown tool '" +:+ Llm.Name toolCall +:+ "'")
                {[ "tool" := VString (Llm.Name toolCall) ]} "tool"
                (VString (Llm.Name toolCall)))
      as (fields & mf & H1 & H2 & H3 & _ & H5 & H6).
    - apply map_Forall_singleton. left. eauto.
    - apply lookup_singleton_eq.
    - exists fields. split; [exact H1|]. split; [exact H2|]. split; [exact H3|].
      exists mf. split; [exact H5 | exact H6]. }
  unfold DispatchToolCall. cbn zeta.
  remember (ErrorEnvelope ("unknown tool '" +:+ Llm.Name toolCall +:+ "'")
                          {[ "tool" := VString (Llm.Name toolCall) ]})
    as unknown eqn:Hunknown.
  clear Hunknown.
  destruct toolRegistry as [registry|].
  - destruct (registry !! Llm.Name toolCall) as [tool|] eqn:Hreg.
    + destruct (Execute_ registry toolCall ctx w) as [[[out matched] w'] called]
        eqn:Hrun.
      destruct (Execute_encoded _ _ _ _ _ _ _ _ _ Hreg Hrun)
        as (-> & e & -> & Herror & _).
      destruct (encodeEnvelope_object e) as (fields & ok & Ht & Hf & _ & Hfalse).
      exists fields, ok. cbn [fst].
      split; [exact Ht|]. split; [exact Hf|].
      split; [intros ->; by apply Hfalse|].
      intros H. specialize (H registry eq_refl). congruence.
    + unfold Execute_. rewrite Hreg. exists uf, false. cbn [fst].
      split; [exact Hutext|]. split; [exact Huok|].
      split; [intros _; rewrite Huerr; eauto|].
      intros _. split; [reflexivity|]. split; [reflexivity|].
      split; [exact Huerr | exact Humeta].
  - exists uf, false. cbn [fst].
    split; [exact Hutext|]. split; [exact Huok|].
    split; [intros _; rewrite Huerr; eauto|].
    intros _. split; [reflexivity|]. split; [reflexivity|].
    split; [exact Huerr | exact Humeta].
Qed.

End DispatchFacts.

Section RegistryMoreExamples.
Import Go Tools Envelope Registry Appcore Normalizer.

(** A tool that fails. *)
Definition failingTool : Tool (list string) :=
  {| Name := "Fail";
     Execute := fun _ arguments w =>
       ((VString "", Some (ErrNew "boom")), w ++ [arguments]) |}.

Definition failCall (arguments : string) : Llm.ToolCall :=
  {| Llm.ID := "call_9"; Llm.Name := "Fail"; Llm.Arguments := arguments |}.

Definition live_ctx : ToolContext := context_of "/r" "/r" (Some None).

Example tool_error_in_envelope :
  Execute_ (NewRegistry [echoTool; failingTool]) (failCall "noise {} noise")
           live_ctx []
  = ((dq "{'ok':false,'error':{'message':'Fail: boom'},'meta':{'allowed_root':'/r','cwd':'/r','tool':'Fail'}}",
      true), ["{}"],
     [{| invoked_tool := "Fail"; invoked_ctx := live_ctx;
         invoked_arguments := "{}" |}]).
Proof. by vm_compute. Qed.

Example invalid_arguments_not_passed :
  Execute_ (NewRegistry [echoTool; failingTool]) (failCall "{oops") live_ctx []
  = ((dq "{'ok':false,'error':{'message':'Fail: invalid JSON arguments'},'meta':{'allowed_root':'/r','cwd':'/r','tool':'Fail'}}",
      true), [], []).
Proof. by vm_compute. Qed.

Definition unknown_fail_text : string :=
  dq "{'ok':false,'error':{'message':'unknown tool " +:+ "'Fail'"
  +:+ dq "'},'meta':{'tool':'Fail'}}".

Example unknown_tool_dispatch :
  DispatchToolCall (Some (NewRegistry [echoTool])) live_ctx (failCall "{}") []
  = (unknown_fail_text, [], [])
  /\ DispatchToolCall (World := list string) None live_ctx (failCall "{}") []
     = (unknown_fail_text, [], []).
Proof. by vm_compute. Qed.

Definition fail_invocation : invocation :=
  {| invoked_tool := "Fail"; invoked_ctx := live_ctx; invoked_arguments := "{}" |}.

Definition fail_text : string :=
  dq "{'ok':false,'error':{'message':'Fail: boom'},'meta':{'allowed_root':'/r','cwd':'/r','tool':'Fail'}}".

Lemma fail_run :
  Execute_ (NewRegistry [echoTool; failingTool]) (failCall "noise {} noise")
           live_ctx []
  = ((fail_text, true), ["{}"], [fail_invocation]).
Proof. vm_compute. reflexivity. Qed.

Lemma Execute_calls_tool_with_valid_arguments_witness :
  ([fail_invocation] = [] /\ ["{}"] = [])
  \/ exists tool args,
       NewRegistry [echoTool; failingTool] !! Llm.Name (failCall "noise {} noise")
       = Some tool
       /\ [fail_invocation]
          = [{| invoked_tool := Name tool; invoked_ctx := live_ctx;
                invoked_arguments := args |}]
       /\ NormalizeJSONArguments (Llm.Arguments (failCall "noise {} noise"))
          = (args, true)
       /\ json_Valid args = true
       /\ ~ blank live_ctx
       /\ (forall err, Context live_ctx <> Some (Some err))
       /\ ["{}"] = (Execute tool live_ctx args []).2.
Proof.
  exact (Execute_calls_tool_with_valid_arguments
           (NewRegistry [echoTool; failingTool]) (failCall "noise {} noise")
           live_ctx [] fail_text true ["{}"] [fail_invocation] fail_run).
Defined.

Lemma fail_registered :
  NewRegistry [echoTool; failingTool] !! Llm.Name (failCall "{oops")
  = Some failingTool.
Proof. vm_compute. reflexivity. Qed.

Lemma Execute_registered_answers_envelope_witness :
  exists out w' called fields ok,
    Execute_ (NewRegistry [echoTool; failingTool]) (failCall "{oops") live_ctx []
    = ((out, true), w', called)
    /\ object_text out fields
    /\ field "ok" fields = Some (JBool ok)
    /\ (ok = true ->
        exists args result,
          called = [{| invoked_tool := Name failingTool; invoked_ctx := live_ctx;
                       invoked_arguments := args |}]
          /\ Execute failingTool live_ctx args [] = ((result, None), w'))
    /\ (ok = false -> is_Some (field "error" fields)).
Proof.
  exact (Execute_registered_answers_envelope
           (NewRegistry [echoTool; failingTool]) (failCall "{oops") live_ctx []
           failingTool fail_registered).
Defined.

End RegistryMoreExamples.

(* ===================================================================== *)
(** * Further properties: the turn runner along a whole run                *)
(* ===================================================================== *)

Section RunnerMore.
Import Go Llm Agent Normalizer.

Context {World : Type}.
Variable ctx_Err : World -> option error.
Variable complete :
  CompletionRequest -> World -> (error + CompletionResponse) * World.
Variable execute : string -> ToolCall -> World -> string * World.
Variable runner : Runner (World := World).
Variable correlationID : string.

Local Abbreviation step := (turn ctx_Err complete execute runner correlationID).
Local Abbreviation policy := (RunnerPolicy runner).

(** A tool call the runner lets through: identifier and name are set and
    the arguments are valid JSON. *)
Definition well_formed_call (toolCall : ToolCall) : Prop :=
  TrimSpace (ID toolCall) <> "" /\ TrimSpace (Name toolCall) <> ""
  /\ json_Valid (Arguments toolCall) = true.

(** A tool message that answers the call. *)
Definition answers (message : Message) (toolCall : ToolCall) : Prop :=
  Role_ message = RoleTool /\ ToolCallID message = ID toolCall.

Lemma prune_step_keeps message acc toolCall :
  Forall well_formed_call (ToolCalls acc) -> Role_ acc = RoleAssistant ->
  Forall well_formed_call (ToolCalls (prune_step message acc toolCall))
  /\ Role_ (prune_step message acc toolCall) = RoleAssistant.
Proof.
  intros Hwf Hrole. unfold prune_step.
  destruct (NormalizeJSONArguments (Arguments toolCall)) as [args valid] eqn:Hn.
  cbn [ID Name Arguments].
  destruct (bool_decide (TrimSpace (Content acc) = "") && _);
    destruct (bool_decide (TrimSpace (ID toolCall) = "")
              || bool_decide (TrimSpace (Name toolCall) = "")) eqn:Hblank;
    cbn [ToolCalls Role_]; try done.
  all: split; [|done]; apply Forall_app; split; [done|];
    apply Forall_singleton;
    apply orb_false_iff in Hblank as [?%bool_decide_eq_false ?%bool_decide_eq_false];
    (split; [done|]); (split; [done|]); cbn [Arguments];
    apply normalize_output in Hn; destruct valid; [by destruct Hn | by vm_compute].
Qed.

(** What [prune] keeps is well formed, and the message is the
    assistant's. *)
Lemma prune_well_formed message :
  Forall well_formed_call (ToolCalls (prune message))
  /\ Role_ (prune message) = RoleAssistant.
Proof.
  unfold prune.
  assert (forall l acc,
    Forall well_formed_call (ToolCalls acc) -> Role_ acc = RoleAssistant ->
    Forall well_formed_call (ToolCalls (foldl (prune_step message) acc l))
    /\ Role_ (foldl (prune_step message) acc l) = RoleAssistant) as Hfold.
  { induction l as [|toolCall l IH]; intros acc Hwf Hrole; [done|].
    cbn [foldl]. destruct (prune_step_keeps message acc toolCall Hwf Hrole).
    by apply IH. }
  by apply Hfold.
Qed.

(** The loop over the calls runs a first part of them, all of them when
    it ends without an error, and adds one tool message for each call it
    ran. *)
Lemma dispatch_effect toolCalls st r st' :
  dispatch ctx_Err execute correlationID toolCalls st = (r, st') ->
  exists done messages,
    done `prefix_of` toolCalls
    /\ (r = None -> done = toolCalls)
    /\ executed st' = executed st ++ done
    /\ messageHistory st' = messageHistory st ++ messages
    /\ Forall2 answers messages done
    /\ turnNumber st' = turnNumber st
    /\ toolCallsUsed st' = toolCallsUsed st
    /\ lastAssistantText st' = lastAssistantText st.
Proof.
  revert st. induction toolCalls as [|toolCall rest IH]; intros st; cbn [dispatch].
  - intros [= <- <-]. exists [], []. rewrite !app_nil_r. by repeat split.
  - destruct (ctx_Err (world st)).
    { intros [= <- <-]. exists [], []. rewrite !app_nil_r.
      repeat split; try done. apply prefix_nil. }
    destruct (execute correlationID toolCall (world st)) as [toolResponse w].
    intros (done & messages & Hpre & Hall & Hex & Hhist & Hans & H1 & H2 & H3)%IH.
    cbn in *.
    exists (toolCall :: done),
           ({| Role_ := RoleTool; Content := toolResponse;
               ToolCallID := ID toolCall; ToolCalls := [] |} :: messages).
    split; [by apply prefix_cons|]. split; [by intros ->%Hall|].
    split; [by rewrite Hex, <- app_assoc|]. split; [by rewrite Hhist, <- app_assoc|].
    split; [by constructor|]. done.
Qed.

Definition outcome_history (o : @outcome World) : list Message :=
  match o with
  | NextTurn st => messageHistory st
  | Return r => final_history r
  end.

Definition outcome_executed (o : @outcome World) : list ToolCall :=
  match o with
  | NextTurn st => executed st
  | Return r => executions r
  end.

(** What one round adds to the history and to the calls executed. *)
Lemma step_effect st :
  exists said done messages,
    outcome_history (step st) = messageHistory st ++ said ++ messages
    /\ outcome_executed (step st) = executed st ++ done
    /\ Forall (fun m => Role_ m = RoleAssistant) said
    /\ Forall2 answers messages done
    /\ Forall well_formed_call done
    /\ (0 < MaxToolCalls policy ->
        toolCallsUsed st + Z.of_nat (List.length done) <= MaxToolCalls policy
        \/ done = [])
    /\ match step st with
       | NextTurn st' =>
           toolCallsUsed st' = toolCallsUsed st + Z.of_nat (List.length done)
           /\ done <> []
           /\ turnNumber st' = turnNumber st + 1
           /\ ~ (0 < MaxTurns policy /\ MaxTurns policy < turnNumber st)
       | Return _ => True
       end.
Proof.
  assert (exists said done messages,
    outcome_history (Return (finish st (lastAssistantText st) None))
    = messageHistory st ++ said ++ messages
    /\ executed st = executed st ++ done
    /\ Forall (fun m => Role_ m = RoleAssistant) said
    /\ Forall2 answers messages done
    /\ Forall well_formed_call done
    /\ (0 < MaxToolCalls policy ->
        toolCallsUsed st + Z.of_nat (List.length done) <= MaxToolCalls policy
        \/ done = [])
    /\ True) as Hnothing.
  { exists [], [], []. cbn. rewrite !app_nil_r. repeat split; eauto. }
  unfold turn.
  destruct (ctx_Err (world st)); [exact Hnothing|].
  destruct ((0 <? MaxTurns policy) && (MaxTurns policy <? turnNumber st)) eqn:Hturns;
    [exact Hnothing|].
  destruct (complete _ (world st)) as [[e|resp] w]; [exact Hnothing|].
  destruct (Choices resp) as [|choice rest]; [exact Hnothing|].
  destruct (prune_well_formed (Message_ choice)) as [Hwf Hrole].
  set (a := prune (Message_ choice)) in *.
  destruct (String.eqb (FinishReason choice) "stop" || _) eqn:Hstop.
  { exists [a], [], []. cbn. rewrite !app_nil_r.
    repeat split; eauto. }
  destruct ((0 <? MaxToolCalls policy) && _) eqn:Hbudget.
  { exists [a], [], []. cbn. rewrite !app_nil_r.
    repeat split; eauto. }
  destruct (dispatch _ _ _ _ _) as [r st1] eqn:Hd.
  apply dispatch_effect in Hd
    as (done & messages & Hpre & Hall & Hex & Hhist & Hans & H1 & H2 & H3).
  cbn in Hex, Hhist, H1, H2, H3.
  assert (Forall well_formed_call done) as Hdone.
  { destruct Hpre as [k Hk]. rewrite Hk in Hwf. by apply Forall_app in Hwf as [? _]. }
  assert (0 < MaxToolCalls policy ->
          toolCallsUsed st + Z.of_nat (List.length done) <= MaxToolCalls policy
          \/ done = []) as Hwithin.
  { intros Hpos. left.
    apply andb_false_iff in Hbudget as [Hb|Hb]; apply Z.ltb_ge in Hb; [lia|].
    cbn in Hb. apply prefix_length in Hpre. lia. }
  exists [a], done, messages.
  destruct r as [e|].
  - cbn. rewrite Hhist, Hex, <- app_assoc. repeat split; eauto.
  - cbn. rewrite Hhist, Hex, <- app_assoc, H1, H2.
    pose proof (Hall eq_refl) as Hd2. rewrite Hd2 in *. clear Hd2.
    apply orb_false_iff in Hstop as [_ Hcount%Z.eqb_neq].
    apply andb_false_iff in Hturns.
    repeat split; eauto.
    + intros Hnil. apply Hcount. by rewrite Hnil.
    + intros [? ?]. destruct Hturns as [?%Z.ltb_ge|?%Z.ltb_ge]; lia.
Qed.

(** The identifiers the tool messages of a history answer, in order. *)
Definition is_tool_message (message : Message) : bool :=
  match Role_ message with RoleTool => true | _ => false end.

Definition answered (history : list Message) : list string :=
  ToolCallID <$> List.filter is_tool_message history.

Lemma answered_app h1 h2 : answered (h1 ++ h2) = answered h1 ++ answered h2.
Proof. unfold answered. by rewrite List.filter_app, fmap_app. Qed.

Lemma answered_assistant said :
  Forall (fun m => Role_ m = RoleAssistant) said -> answered said = [].
Proof.
  induction 1 as [|m said Hm _ IH]; [done|].
  unfold answered, is_tool_message in *. cbn. by rewrite Hm.
Qed.

Lemma answered_answers messages done :
  Forall2 answers messages done -> answered messages = ID <$> done.
Proof.
  induction 1 as [|m c messages done [Hrole Hid] _ IH]; [done|].
  unfold answered, is_tool_message in *. cbn. rewrite Hrole. cbn.
  by rewrite Hid, IH.
Qed.

(** What holds of a state of the loop that started in [st0]. *)
Definition reached (st0 st : @loop_state World) : Prop :=
  exists added done,
    messageHistory st = messageHistory st0 ++ added
    /\ executed st = executed st0 ++ done
    /\ answered added = ID <$> done
    /\ Forall well_formed_call done
    /\ toolCallsUsed st = toolCallsUsed st0 + Z.of_nat (List.length done).

(** What holds of the result of a loop that started in [st0]. *)
Definition returned (st0 : @loop_state World) (r : @result World) : Prop :=
  exists added done,
    final_history r = messageHistory st0 ++ added
    /\ executions r = executed st0 ++ done
    /\ answered added = ID <$> done
    /\ Forall well_formed_call done
    /\ (0 < MaxToolCalls policy -> toolCallsUsed st0 <= MaxToolCalls policy ->
        toolCallsUsed st0 + Z.of_nat (List.length done) <= MaxToolCalls policy).

Lemma run_loop_returned st0 fuel st r :
  reached st0 st ->
  (0 < MaxToolCalls policy -> toolCallsUsed st <= MaxToolCalls policy) ->
  run_loop ctx_Err fuel complete execute runner correlationID st = Some r ->
  returned st0 r.
Proof.
  revert st. induction fuel as [|fuel IH]; intros st Hreached Hused; [done|].
  cbn [run_loop].
  destruct Hreached as (added & done & Hh & He & Ha & Hw & Hu).
  destruct (step_effect st)
    as (said & done' & messages & Hh' & He' & Hsaid & Hans & Hwf & Hbudget & Hnext).
  assert (answered (added ++ said ++ messages) = ID <$> (done ++ done')) as Hanswered.
  { rewrite !answered_app, fmap_app, Ha, (answered_assistant _ Hsaid).
    by rewrite (answered_answers _ _ Hans). }
  assert (0 < MaxToolCalls policy ->
          toolCallsUsed st + Z.of_nat (List.length done') <= MaxToolCalls policy)
    as Hwithin.
  { intros Hpos. destruct (Hbudget Hpos) as [?| ->]; [done|].
    specialize (Hused Hpos). cbn. lia. }
  destruct (step st) as [st'|r'] eqn:Hstep; cbn in Hh', He'.
  - destruct Hnext as (Hu' & _ & _ & _). apply IH.
    + exists (added ++ said ++ messages), (done ++ done').
      rewrite Hh', He', Hh, He, <- !app_assoc.
      split; [done|]. split; [done|]. split; [done|].
      split; [by apply Forall_app|]. rewrite length_app. lia.
    + intros Hpos. specialize (Hwithin Hpos). lia.
  - intros [= <-]. exists (added ++ said ++ messages), (done ++ done').
    rewrite Hh', He', Hh, He, <- !app_assoc.
    split; [done|]. split; [done|]. split; [done|].
    split; [by apply Forall_app|].
    intros Hpos _. specialize (Hwithin Hpos). rewrite length_app. lia.
Qed.

(** The loop ends: within [MaxTurns] rounds and one more when the limit
    is set, and within one round for each call the budget still has, and
    one more, when the budget is set. *)
Lemma run_loop_ends_turns fuel st :
  0 < MaxTurns policy ->
  MaxTurns policy - turnNumber st + 2 <= Z.of_nat fuel -> (0 < fuel)%nat ->
  is_Some (run_loop ctx_Err fuel complete execute runner correlationID st).
Proof.
  intros Hpos. revert st. induction fuel as [|fuel IH]; intros st Hfuel Hone; [lia|].
  cbn [run_loop].
  destruct (step_effect st) as (said & done & messages & _ & _ & _ & _ & _ & _ & Hnext).
  destruct (step st) as [st'|r]; [|done].
  destruct Hnext as (_ & _ & Hturn & Hlimit). apply IH; lia.
Qed.

Lemma run_loop_ends_budget fuel st :
  0 < MaxToolCalls policy ->
  toolCallsUsed st <= MaxToolCalls policy ->
  MaxToolCalls policy - toolCallsUsed st + 1 <= Z.of_nat fuel ->
  is_Some (run_loop ctx_Err fuel complete execute runner correlationID st).
Proof.
  intros Hpos. revert st. induction fuel as [|fuel IH]; intros st Hused Hfuel; [lia|].
  cbn [run_loop].
  destruct (step_effect st)
    as (said & done & messages & _ & _ & _ & _ & _ & Hbudget & Hnext).
  destruct (step st) as [st'|r]; [|done].
  destruct Hnext as (Hu & Hdone & _ & _).
  destruct (Hbudget Hpos) as [?|?]; [|done].
  assert (0 < Z.of_nat (List.length done)) by (destruct done; [done | cbn; lia]).
  apply IH; lia.
Qed.

End RunnerMore.

Section RunnerRuns.
Import Go Llm Agent Normalizer.

Context {World : Type}.
Variable ctx_Err : World -> option error.
Variable runner : Runner (World := World).

Local Abbreviation policy := (RunnerPolicy runner).

(** What every result of [RunPrompt] satisfies. *)
Lemma RunPrompt_returned fuel w messages prompt correlationID r :
  RunPrompt ctx_Err fuel runner w messages prompt correlationID = Some r ->
  exists added done,
    final_history r = messages ++ added
    /\ executions r = done
    /\ answered added = ID <$> done
    /\ Forall well_formed_call done
    /\ (0 < MaxToolCalls policy ->
        Z.of_nat (List.length done) <= MaxToolCalls policy).
Proof.
  unfold RunPrompt. cbn zeta.
  assert (forall msg,
    exists added done,
      final_history {| text := ""; err := Some (ErrNew msg);
                       final_history := messages; final_world := w;
                       executions := [] |} = messages ++ added
      /\ @nil ToolCall = done
      /\ answered added = ID <$> done
      /\ Forall well_formed_call done
      /\ (0 < MaxToolCalls policy ->
          Z.of_nat (List.length done) <= MaxToolCalls policy)) as Hstop.
  { intros msg. exists [], []. cbn. rewrite app_nil_r.
    repeat split; try done. lia. }
  destruct (LLMClient runner) as [complete|]; [|intros [= <-]; apply Hstop].
  destruct (ExecuteTool runner) as [execute|]; [|intros [= <-]; apply Hstop].
  fold (initial messages prompt w). intros Hrun.
  eapply (run_loop_returned ctx_Err complete execute runner correlationID
            (initial messages prompt w)) in Hrun.
  - destruct Hrun as (added & done & Hh & He & Ha & Hw & Hb). cbn in Hh, He, Hb.
    exists (userMessage prompt :: added), done.
    split; [by rewrite Hh, <- app_assoc|]. split; [done|].
    split; [change (userMessage prompt :: added) with ([userMessage prompt] ++ added);
            by rewrite answered_app|].
    split; [done|]. intros Hpos. specialize (Hb Hpos). lia.
  - exists [], []. cbn. rewrite !app_nil_r. by repeat split.
  - cbn. lia.
Qed.

(** X6.  A run never executes more tool calls than the budget
    [MaxToolCalls] allows, when the budget is set. *)
Theorem RunPrompt_within_tool_budget fuel w messages prompt correlationID r :
  RunPrompt ctx_Err fuel runner w messages prompt correlationID = Some r ->
  0 < MaxToolCalls policy ->
  Z.of_nat (List.length (executions r)) <= MaxToolCalls policy.
Proof.
  intros (added & done & _ & -> & _ & _ & Hb)%RunPrompt_returned Hpos. by apply Hb.
Qed.


(** X8.  A run only adds to the history it is given, and the tool
    messages it adds answer the calls it executed, one for each call and
    in the order of the calls. *)
Theorem RunPrompt_history_answers_executions
    fuel w messages prompt correlationID r :
  RunPrompt ctx_Err fuel runner w messages prompt correlationID = Some r ->
  messages `prefix_of` final_history r
  /\ answered (drop (List.length messages) (final_history r))
     = ID <$> executions r.
Proof.
  intros (added & done & -> & -> & Ha & _)%RunPrompt_returned.
  split; [by apply prefix_app_r|]. by rewrite drop_app_length.
Qed.

(** X9.  A run ends: with a turn limit, [MaxTurns + 1] rounds are enough
    for [RunPrompt] to return; with a tool budget, [MaxToolCalls + 1]
    rounds are. *)
Theorem RunPrompt_ends (fuel : nat) w messages prompt correlationID :
  (0 < MaxTurns policy -> MaxTurns policy + 1 <= Z.of_nat fuel ->
   is_Some (RunPrompt ctx_Err fuel runner w messages prompt correlationID))
  /\ (0 < MaxToolCalls policy -> MaxToolCalls policy + 1 <= Z.of_nat fuel ->
      is_Some (RunPrompt ctx_Err fuel runner w messages prompt correlationID)).
Proof.
  unfold RunPrompt. cbn zeta.
  destruct (LLMClient runner) as [complete|]; [|by split].
  destruct (ExecuteTool runner) as [execute|]; [|by split].
  split; intros Hpos Hfuel.
  - apply run_loop_ends_turns; cbn; lia.
  - apply run_loop_ends_budget; cbn; lia.
Qed.

End RunnerRuns.

Section RunnerRunsExamples.
Import Go Llm Agent.

Definition two_rounds : sim :=
  Sim [inr (reply "tool_calls" "" [call "c1" "Read"]);
       inr (reply "tool_calls" "" two_calls)] None.

Definition two_rounds_result : result :=
  {| text := ""; err := Some (errToolBudget 2 1 2);
     final_history := [userMessage "go"; assistant "" [call "c1" "Read"];
                       toolMessage "c1" "ran Read"; assistant "" two_calls];
     final_world := Sim [] None;
     executions := [call "c1" "Read"] |}.

Lemma two_rounds_run :
  RunPrompt sim_Err 3 (sim_runner sim_execute 0 2) two_rounds [] "go" "corr"
  = Some two_rounds_result.
Proof. vm_compute. reflexivity. Qed.

Lemma RunPrompt_within_tool_budget_witness :
  Z.of_nat (List.length (executions two_rounds_result)) <= 2.
Proof.
  exact (RunPrompt_within_tool_budget sim_Err (sim_runner sim_execute 0 2) 3
           two_rounds [] "go" "corr" two_rounds_result two_rounds_run eq_refl).
Defined.


Lemma RunPrompt_history_answers_executions_witness :
  [] `prefix_of` final_history two_rounds_result
  /\ answered (drop (List.length (@nil Message)) (final_history two_rounds_result))
     = ID <$> executions two_rounds_result.
Proof.
  exact (RunPrompt_history_answers_executions sim_Err
           (sim_runner sim_execute 0 2) 3 two_rounds [] "go" "corr"
           two_rounds_result two_rounds_run).
Defined.

(** A client that asks for a tool call for ever: without limits the loop
    goes on as long as it is given rounds, with a limit it ends. *)
Definition insatiable (_ : CompletionRequest) (w : sim)
  : (error + CompletionResponse) * sim :=
  (inr (reply "tool_calls" "" [call "c1" "Read"]), w).

Definition insatiable_runner (maxTurns maxToolCalls : Z) : Runner :=
  {| LLMClient := Some insatiable; RunnerModel := "model";
     ToolDefinitions := []; ExecuteTool := Some sim_execute;
     RunnerPolicy := {| MaxTurns := maxTurns; MaxToolCalls := maxToolCalls |} |}.

Example unlimited_run_goes_on :
  RunPrompt sim_Err 50 (insatiable_runner 0 0) (Sim [] None) [] "go" "corr" = None
  /\ err <$> RunPrompt sim_Err 4 (insatiable_runner 3 0) (Sim [] None) [] "go" "corr"
     = Some (Some (errMaxTurns 3))
  /\ err <$> RunPrompt sim_Err 3 (insatiable_runner 0 2) (Sim [] None) [] "go" "corr"
     = Some (Some (errToolBudget 2 2 1)).
Proof. by vm_compute. Qed.

End RunnerRunsExamples.

(* ===================================================================== *)
(** * Further properties: files written and read back                     *)
(* ===================================================================== *)

Section FileFacts.
Import Go Os Tools.

(** A node without its content. *)
Definition kind (n : option node) : option node :=
  match n with
  | Some (Regular _) => Some (Regular "")
  | n => n
  end.

(** Two file trees with the same directories, links and files, the
    content of the files apart. *)
Definition same_tree (fs fs' : gmap (list string) node) : Prop :=
  forall p, kind (fs !! p) = kind (fs' !! p).

Lemma same_tree_node_at fs fs' p :
  same_tree fs fs' -> kind (node_at fs p) = kind (node_at fs' p).
Proof. intros H. unfold node_at. destruct (decide (p = [])); [done | apply H]. Qed.

Lemma same_tree_overwrite fs q content data :
  fs !! q = Some (Regular content) -> same_tree fs (<[q := Regular data]> fs).
Proof.
  intros Hq p. destruct (decide (q = p)) as [<-|Hne].
  - by rewrite lookup_insert_eq, Hq.
  - by rewrite lookup_insert_ne.
Qed.

Lemma walk_seg_same fs fs' follow_last cur todo :
  same_tree fs fs' ->
  walk_seg fs' follow_last cur todo = walk_seg fs follow_last cur todo.
Proof.
  intros Hsame. revert cur. induction todo as [|e rest IH]; intros cur; [done|].
  cbn [walk_seg]. repeat case_decide; try apply IH.
  pose proof (same_tree_node_at fs fs' (cur ++ [e]) Hsame) as Hk.
  destruct (node_at fs (cur ++ [e])) as [[| |]|],
           (node_at fs' (cur ++ [e])) as [[| |]|]; try done;
    first [apply IH | by injection Hk as ->].
Qed.

Lemma walk_same links fs fs' follow_last cur todo :
  same_tree fs fs' ->
  walk links fs' follow_last cur todo = walk links fs follow_last cur todo.
Proof.
  intros Hsame. revert cur todo.
  induction links as [|links IH]; intros cur todo; cbn [walk];
    rewrite (walk_seg_same fs fs') by done.
  { done. }
  destruct (walk_seg fs follow_last cur todo); done.
Qed.

(** Two states of the operating system that differ in the content of
    files and in the record of the calls only. *)
Definition same_files (os os' : state) : Prop :=
  cwd os' = cwd os /\ same_tree (files os) (files os').

Lemma resolve_same os os' follow_last p :
  same_files os os' -> resolve os' follow_last p = resolve os follow_last p.
Proof.
  intros [Hcwd Hsame]. unfold resolve. rewrite Hcwd.
  destruct (decide (p = "")); [done|]. by apply walk_same.
Qed.

(** [Lstat] gives the same answer, the content of a file apart. *)
Lemma Lstat_same os os' p :
  same_files os os' ->
  match Lstat os p, Lstat os' p with
  | inl e, inl e' => e = e'
  | inr n, inr n' => kind (Some n) = kind (Some n')
  | _, _ => False
  end.
Proof.
  intros Hsame. unfold Lstat. rewrite (resolve_same os os') by done.
  destruct (resolve os false p) as [q| | |]; try done.
  pose proof (same_tree_node_at _ _ q (proj2 Hsame)) as Hk.
  destruct (node_at (files os) q) as [[| |]|],
           (node_at (files os') q) as [[| |]|]; done.
Qed.

Lemma walkSymlinks_seg_same os os' rooted dest segs :
  same_files os os' ->
  walkSymlinks_seg os' rooted dest segs = walkSymlinks_seg os rooted dest segs.
Proof.
  intros Hsame. revert rooted dest.
  induction segs as [|e rest IH]; intros rooted dest; [done|].
  cbn [walkSymlinks_seg]. repeat case_decide; try apply IH;
    try (destruct (_ || _); apply IH).
  pose proof (Lstat_same os os' (raw_path rooted (dest ++ [e])) Hsame) as Hl.
  destruct (Lstat os (raw_path rooted (dest ++ [e]))) as [err|[| |]],
           (Lstat os' (raw_path rooted (dest ++ [e]))) as [err'|[| |]];
    try done;
    first [by subst | apply IH | by injection Hl as -> | by destruct rest; [apply IH | done] | idtac].
Qed.

Lemma EvalSymlinks_same os os' p :
  same_files os os' -> EvalSymlinks os' p = EvalSymlinks os p.
Proof.
  intros Hsame. unfold EvalSymlinks.
  generalize 255%nat (IsAbs p) (@nil string) (segments p).
  intros n. induction n as [|n IH]; intros rooted dest segs; cbn [walkSymlinks];
    rewrite (walkSymlinks_seg_same os os') by done.
  { done. }
  destruct (walkSymlinks_seg os rooted dest segs); done.
Qed.

Lemma findExistingParent_same os os' p :
  same_files os os' -> findExistingParent os' p = findExistingParent os p.
Proof.
  intros Hsame. unfold findExistingParent. cbn zeta. f_equal.
  generalize (findExistingParent_fuel (Clean p)). generalize (Clean p).
  intros current n. revert current.
  induction n as [|n IH]; intros current; [done|]. cbn [findExistingParent_loop].
  pose proof (Lstat_same os os' current Hsame) as Hl.
  destruct (Lstat os current) as [err|?], (Lstat os' current) as [err'|?];
    try done.
  subst err'. destruct (negb (IsNotExist err)); [done|].
  case_decide; [done | apply IH].
Qed.

Lemma resolveRealPath_same os os' p :
  same_files os os' -> resolveRealPath os' p = resolveRealPath os p.
Proof.
  intros Hsame. unfold resolveRealPath.
  rewrite (EvalSymlinks_same os os') by done.
  rewrite (findExistingParent_same os os') by done.
  destruct (EvalSymlinks os p); [|done].
  destruct (negb _); [done|].
  destruct (findExistingParent os p); [done|].
  by rewrite (EvalSymlinks_same os os').
Qed.

Lemma Abs_same os os' p : same_files os os' -> Abs os' p = Abs os p.
Proof. intros [Hcwd _]. unfold Abs, Getwd. by rewrite Hcwd. Qed.

(** The decision of [EnsurePathAllowed] depends on the directories, the
    links and the names of the files, not on what the files hold. *)
Lemma EnsurePathAllowed_same os os' ctx p :
  same_files os os' -> EnsurePathAllowed os' ctx p = EnsurePathAllowed os ctx p.
Proof.
  intros Hsame. unfold EnsurePathAllowed. cbn zeta.
  rewrite !(Abs_same os os') by done.
  rewrite (EvalSymlinks_same os os') by done.
  by rewrite (resolveRealPath_same os os').
Qed.

(** A path the walk finds missing has no node. *)
Lemma walk_seg_Fresh fs follow_last cur todo dir name :
  walk_seg fs follow_last cur todo = Fresh dir name ->
  fs !! (dir ++ [name]) = None.
Proof.
  revert cur. induction todo as [|e rest IH]; intros cur; [done|].
  cbn [walk_seg]. repeat case_decide; try apply IH.
  destruct (node_at fs (cur ++ [e])) as [[| |]|] eqn:E.
  - apply IH.
  - by destruct rest.
  - destruct rest; [destruct follow_last|]; by repeat case_decide.
  - destruct rest; [|done]. intros [= <- <-].
    unfold node_at in E. case_decide; [by destruct cur | done].
Qed.

Lemma walk_Fresh links fs follow_last cur todo dir name :
  walk links fs follow_last cur todo = Fresh dir name ->
  fs !! (dir ++ [name]) = None.
Proof.
  revert cur todo. induction links as [|links IH]; intros cur todo; cbn [walk];
    destruct (walk_seg fs follow_last cur todo) eqn:E; try done;
    try (intros [= <- <-]; by eapply walk_seg_Fresh).
  apply IH.
Qed.

(** A file created where there was none: every walk that ended on the
    missing name now ends on the file, the other walks that ended end as
    before. *)
Definition created (k : list string) (r : walk_result) : walk_result :=
  match r with
  | Fresh dir name => if decide (dir ++ [name] = k) then At k else r
  | r => r
  end.

Definition ended (r : walk_result) : Prop :=
  match r with Fail _ => False | _ => True end.

Lemma walk_seg_created fs k data follow_last cur todo :
  fs !! k = None ->
  ended (walk_seg fs follow_last cur todo) ->
  walk_seg (<[k := Regular data]> fs) follow_last cur todo
  = created k (walk_seg fs follow_last cur todo).
Proof.
  intros Hk. revert cur. induction todo as [|e rest IH]; intros cur; [done|].
  cbn [walk_seg]. repeat case_decide; try apply IH.
  assert (cur ++ [e] <> []) as Hne by (by destruct cur).
  unfold node_at. rewrite !decide_False by done.
  destruct (decide (cur ++ [e] = k)) as [<-|Hother].
  - rewrite lookup_insert_eq, Hk. destruct rest; [|done].
    intros _. cbn. by rewrite decide_True.
  - rewrite lookup_insert_ne by done.
    destruct (fs !! (cur ++ [e])) as [[| |]|] eqn:E.
    + apply IH.
    + by destruct rest.
    + intros _. destruct rest; [destruct follow_last|]; by repeat case_decide.
    + destruct rest; [|done]. intros _. cbn. by rewrite decide_False.
Qed.

Lemma walk_created links fs k data follow_last cur todo :
  fs !! k = None ->
  ended (walk links fs follow_last cur todo) ->
  walk links (<[k := Regular data]> fs) follow_last cur todo
  = created k (walk links fs follow_last cur todo).
Proof.
  intros Hk. revert cur todo.
  induction links as [|links IH]; intros cur todo; cbn [walk]; intros Hend.
  - rewrite walk_seg_created; [|done|by destruct (walk_seg fs follow_last cur todo)].
    by destruct (walk_seg fs follow_last cur todo) as [| | |]; cbn;
      repeat case_decide.
  - destruct (walk_seg fs follow_last cur todo) as [q|dir name|e|cur' todo'] eqn:E.
    + rewrite walk_seg_created, E; [done..|by rewrite E].
    + rewrite walk_seg_created, E; [|done|by rewrite E].
      cbn. by repeat case_decide.
    + done.
    + rewrite walk_seg_created, E; [|done|by rewrite E]. cbn. by apply IH.
Qed.

(** The file [os.WriteFile] opens: the file the path names, or the place
    of the file it creates. *)
Definition opened (os : state) (p : string) : option (list string) :=
  match resolve os true p with
  | At q =>
      match node_at (files os) q with
      | Some (Regular _) => Some q
      | _ => None
      end
  | Fresh dir name => Some (dir ++ [name])
  | _ => None
  end.

(** [os.WriteFile] fails before it opens a file, the files left alone, or
    opens one and writes to it. *)
Lemma WriteFile_cases os p data :
  (opened os p = None
   /\ exists err, WriteFile os p data = (Some err, record (AccWriteFile p data) os))
  \/ (exists q, opened os p = Some q
                /\ WriteFile os p data
                   = write_opened (record (AccWriteFile p data) os) q data).
Proof.
  unfold opened, WriteFile.
  destruct (resolve os true p) as [q|dir name| |]; eauto.
  destruct (node_at (files os) q) as [[| |]|]; eauto.
Qed.

(** What a file is left with by a write of [data] that may have failed:
    the first bytes of [data]. *)
Lemma write_opened_files os q data :
  exists written,
    bytes_of written `prefix_of` bytes_of data
    /\ files (write_opened os q data).2 = <[q := Regular written]> (files os)
    /\ ((write_opened os q data).1 = None -> written = data).
Proof.
  unfold write_opened.
  destruct (write_fault os (accesses os)) as [[n err]|]; cbn.
  - eexists. split; [|done]. rewrite bytes_of_str. apply prefix_take.
  - by exists data.
Qed.

(** The calls [os.WriteFile] adds to the record and what it leaves of the
    files: all of them, or all but the file it opened, which holds the
    first bytes of the data. *)
Lemma WriteFile_calls os p data :
  accesses (WriteFile os p data).2 = accesses os ++ [AccWriteFile p data]
  /\ cwd (WriteFile os p data).2 = cwd os
  /\ (files (WriteFile os p data).2 = files os
      \/ exists q written,
           opened os p = Some q
           /\ bytes_of written `prefix_of` bytes_of data
           /\ files (WriteFile os p data).2 = <[q := Regular written]> (files os)).
Proof.
  split; [apply WriteFile_added|].
  destruct (WriteFile_cases os p data) as [(_ & err & ->)|(q & Hq & ->)].
  { split; [done | by left]. }
  destruct (write_opened_files (record (AccWriteFile p data) os) q data)
    as (written & Hprefix & Hfiles & _).
  split; [|right; by exists q, written].
  unfold write_opened. by destruct (write_fault _ _) as [[n err]|].
Qed.

(** What [os.WriteFile] wrote, [os.ReadFile] reads at the same path,
    whether the file was there before or not. *)
Lemma WriteFile_ReadFile os p data os' :
  WriteFile os p data = (None, os') -> (ReadFile os' p).1 = inr data.
Proof.
  intros Hw.
  destruct (WriteFile_cases os p data) as [(_ & err & Hfail)|(q & Hq & Hopen)];
    [congruence|].
  rewrite Hw in Hopen.
  assert (os' = with_files (<[q := Regular data]> (files os))
                           (record (AccWriteFile p data) os)) as ->.
  { revert Hopen. unfold write_opened.
    destruct (write_fault _ _) as [[n err]|]; [done | by intros [= ->]]. }
  clear Hw Hopen. unfold ReadFile, opened in *.
  destruct (resolve os true p) as [q'|dir name| |] eqn:Er; [| |done..].
  - destruct (node_at (files os) q') as [[|content|]|] eqn:Eq; try done.
    injection Hq as ->.
    assert (q <> []) as Hne by (intros ->; done).
    unfold node_at in Eq. rewrite decide_False in Eq by done.
    rewrite (resolve_same os).
    2:{ split; [done|]. cbn. by eapply same_tree_overwrite. }
    rewrite Er. cbn. unfold node_at. rewrite decide_False by done.
    by rewrite lookup_insert_eq.
  - injection Hq as <-. unfold resolve in *. cbn [cwd files with_files record].
    destruct (decide (p = "")); [done|].
    rewrite walk_created, Er; [| by eapply walk_Fresh | by rewrite Er].
    cbn. rewrite decide_True by done. unfold node_at.
    rewrite decide_False by (by destruct dir). by rewrite lookup_insert_eq.
Qed.

(** Writing over a file that could be read, the write failing or not,
    changes the content of that file and nothing else of the tree. *)
Lemma WriteFile_over os p content data :
  (ReadFile os p).1 = inr content ->
  same_files os (WriteFile os p data).2
  /\ exists q old written,
       files os !! q = Some (Regular old)
       /\ files (WriteFile os p data).2 = <[q := Regular written]> (files os).
Proof.
  intros Hread.
  assert (exists q, resolve os true p = At q /\ q <> []
                    /\ files os !! q = Some (Regular content))
    as (q & Er & Hne & Eq).
  { revert Hread. unfold ReadFile.
    destruct (resolve os true p) as [q| | |] eqn:Er; [|done..].
    destruct (node_at (files os) q) as [[|c|]|] eqn:Eq; try done.
    intros [= ->]. exists q. split; [done|].
    assert (q <> []) as Hq by (intros ->; done).
    unfold node_at in Eq. by rewrite decide_False in Eq. }
  assert (opened os p = Some q) as Hopened.
  { unfold opened. rewrite Er. unfold node_at.
    by rewrite decide_False, Eq. }
  destruct (WriteFile_cases os p data) as [(Hnone & _)|(q' & Hq & ->)];
    [congruence|].
  assert (q' = q) as -> by congruence.
  destruct (write_opened_files (record (AccWriteFile p data) os) q data)
    as (written & _ & Hfiles & _).
  split; [|by exists q, content, written].
  split.
  - unfold write_opened. by destruct (write_fault _ _) as [[n err]|].
  - rewrite Hfiles. cbn. by eapply same_tree_overwrite.
Qed.

(** A second read of the same path gives what the first one gave. *)
Lemma ReadFile_again os p : (ReadFile (ReadFile os p).2 p).1 = (ReadFile os p).1.
Proof.
  unfold ReadFile at 2 3.
  destruct (resolve os true p) as [q| | |] eqn:Eq.
  - destruct (node_at (files os) q) as [[| |]|] eqn:En; cbn [snd fst];
      unfold ReadFile, resolve in *; cbn [files cwd record];
      by rewrite Eq, En.
  - cbn [snd fst]; unfold ReadFile, resolve in *; cbn [files cwd record];
      by rewrite Eq.
  - cbn [snd fst]; unfold ReadFile, resolve in *; cbn [files cwd record];
      by rewrite Eq.
  - cbn [snd fst]; unfold ReadFile, resolve in *; cbn [files cwd record];
      by rewrite Eq.
Qed.

Lemma ReadFile_files os p : same_files os (ReadFile os p).2.
Proof.
  unfold ReadFile.
  destruct (resolve os true p) as [q| | |]; [|done..].
  destruct (node_at (files os) q) as [[| |]|]; done.
Qed.

End FileFacts.

(* ===================================================================== *)
(** * Further properties: the file tools                                  *)
(* ===================================================================== *)

Section FileToolFacts.
Import Go Os Tools Envelope.

Section Read.
Import ReadTool.
Variable json_Unmarshal : string -> error + readArgs.

(** X10.  The tool [Read] either fails with the operating system left as
    it was, no file call made, or makes one call, [os.ReadFile] of the
    resolved path of the trimmed [file_path], and only after
    [EnsurePathAllowed] returned no error for that path.  The answer is
    then the content read, or the error of the read, wrapped. *)
Theorem ReadTool_reads_allowed_path_once (ctx : ToolContext)
    (arguments : string) (os os' : state) (r : value * option error) :
  Execute json_Unmarshal ctx arguments os = (r, os') ->
  (os' = os /\ r.1 = VString "" /\ is_Some r.2)
  \/ exists args,
       let path := ResolvePath ctx (TrimSpace (FilePath args)) in
       json_Unmarshal arguments = inr args
       /\ TrimSpace (FilePath args) <> ""
       /\ EnsurePathAllowed os ctx path = None
       /\ os' = record (AccReadFile path) os
       /\ match (ReadFile os path).1 with
          | inr content => r = (VString content, None)
          | inl err => r = (VString "", Some (wrap "error reading file" err))
          end.
Proof.
  unfold Execute.
  destruct (json_Unmarshal arguments) as [err|args] eqn:Eargs.
  { intros [= <- <-]. left. by eauto. }
  cbn zeta. case_decide as Hblank.
  { intros [= <- <-]. left. by eauto. }
  destruct (EnsurePathAllowed os ctx _) as [err|] eqn:Eallowed.
  { intros [= <- <-]. left. by eauto. }
  intros Hrun. right. exists args. cbn zeta.
  split; [done|]. split; [done|]. split; [done|].
  unfold ReadFile in *.
  destruct (resolve os true _) as [q| | |]; [|by injection Hrun as <- <-..].
  destruct (node_at (files os) q) as [[| |]|]; by injection Hrun as <- <-.
Qed.

End Read.

Section Write.
Import WriteTool.
Variable json_Unmarshal : string -> error + writeArgs.

(** X11.  The tool [Write] either fails with the operating system left
    as it was, no file call made, or makes one call, [os.WriteFile] of the
    resolved path of the trimmed [file_path] with the content given, and
    only after [EnsurePathAllowed] returned no error for that path.  When
    that call succeeds the answer names the trimmed path and the content,
    and reading the same path gives the content back.  When it fails the
    answer is its error, wrapped, and the files are as before or all but
    one are, the file the call opened, which is left with the first bytes
    of the content. *)
Theorem WriteTool_writes_allowed_path_once (ctx : ToolContext)
    (arguments : string) (os os' : state) (r : value * option error) :
  Execute json_Unmarshal ctx arguments os = (r, os') ->
  (os' = os /\ r.1 = VString "" /\ is_Some r.2)
  \/ exists args,
       let filePath := TrimSpace (FilePath args) in
       let path := ResolvePath ctx filePath in
       json_Unmarshal arguments = inr args
       /\ filePath <> ""
       /\ EnsurePathAllowed os ctx path = None
       /\ accesses os' = accesses os ++ [AccWriteFile path (Content args)]
       /\ cwd os' = cwd os
       /\ match r.2 with
          | None =>
              r.1 = VMap [("file_path", VString filePath);
                          ("content", VString (Content args))]
              /\ (ReadFile os' path).1 = inr (Content args)
          | Some err =>
              r.1 = VString ""
              /\ (exists cause,
                    (WriteFile os path (Content args)).1 = Some cause
                    /\ err = wrap "error writing file" cause)
              /\ (files os' = files os
                  \/ exists q written,
                       opened os path = Some q
                       /\ bytes_of written `prefix_of` bytes_of (Content args)
                       /\ files os' = <[q := Regular written]> (files os))
          end.
Proof.
  unfold Execute.
  destruct (json_Unmarshal arguments) as [err|args] eqn:Eargs.
  { intros [= <- <-]. left. by eauto. }
  cbn zeta. case_decide as Hblank.
  { intros [= <- <-]. left. by eauto. }
  destruct (EnsurePathAllowed os ctx _) as [err|] eqn:Eallowed.
  { intros [= <- <-]. left. by eauto. }
  intros Hrun. right. exists args. cbn zeta.
  split; [done|]. split; [done|]. split; [done|].
  pose proof (WriteFile_calls os (ResolvePath ctx (TrimSpace (FilePath args)))
                (Content args)) as (Hadded & Hcwd & Hfiles).
  destruct (WriteFile os _ (Content args)) as [[cause|] os1] eqn:Ew;
    injection Hrun as <- <-; cbn [fst snd] in *.
  - split; [done|]. split; [done|]. split; [done|].
    split; [by exists cause | done].
  - split; [done|]. split; [done|]. split; [done|].
    by eapply WriteFile_ReadFile.
Qed.

End Write.

Section Edit.
Import EditPatch.
Variable edit_Unmarshal : string -> error + editPatchArgs.
Variable read_Unmarshal : string -> error + ReadTool.readArgs.

(** X12.  After a successful [EditPatch] the tool [Read], asked for the
    same trimmed path under the same context, answers with the edited
    content: the content [Read] answered with before the edit, the first
    instance of [old_string] replaced, or every instance when
    [replace_all] is set. *)
Theorem Read_after_EditPatch (ctx : ToolContext) (arguments reading : string)
    (args : editPatchArgs) (rargs : ReadTool.readArgs)
    (os os' : state) (v : value) :
  edit_Unmarshal arguments = inr args ->
  read_Unmarshal reading = inr rargs ->
  TrimSpace (ReadTool.FilePath rargs) = TrimSpace (FilePath args) ->
  Execute edit_Unmarshal ctx arguments os = ((v, None), os') ->
  exists content,
    (ReadTool.Execute read_Unmarshal ctx reading os).1 = (VString content, None)
    /\ (ReadTool.Execute read_Unmarshal ctx reading os').1
       = (VString (if ReplaceAll_ args
                   then ReplaceAll content (OldString args) (NewString args)
                   else Replace content (OldString args) (NewString args) 1),
          None).
Proof.
  intros Eargs Erargs Hpath. unfold Execute, ReadTool.Execute.
  rewrite Eargs, Erargs. cbn zeta. rewrite Hpath.
  case_decide as Hblank; [done|]. case_decide as Hold; [done|].
  destruct (EnsurePathAllowed os ctx _) as [err|] eqn:Eallowed; [done|].
  pose proof (ReadFile_files os (ResolvePath ctx (TrimSpace (FilePath args))))
    as Hread.
  destruct (ReadFile os _) as [[err|content] os1] eqn:Er; [done|].
  cbn [snd] in Hread.
  destruct (Count content (OldString args) =? 0); [done|].
  assert ((ReadFile os1 (ResolvePath ctx (TrimSpace (FilePath args)))).1
          = inr content) as Hr1.
  { pose proof (ReadFile_again os (ResolvePath ctx (TrimSpace (FilePath args))))
      as Hagain. by rewrite Er in Hagain. }
  assert (forall newContent,
    WriteFile os1 (ResolvePath ctx (TrimSpace (FilePath args))) newContent
    = (None, os') ->
    (let '(r, _) := ReadFile os' (ResolvePath ctx (TrimSpace (FilePath args))) in
     match r with
     | inl err => ReadTool.failed (wrap "error reading file" err)
     | inr content => (VString content, None)
     end) = (VString newContent, None)
    /\ EnsurePathAllowed os' ctx (ResolvePath ctx (TrimSpace (FilePath args)))
       = None) as Hafter.
  { intros newContent Hw.
    assert (same_files os os') as Hsame.
    { pose proof (WriteFile_over _ _ _ newContent Hr1) as [[Hc Ht] _].
      rewrite Hw in Hc, Ht. cbn [snd] in Hc, Ht.
      destruct Hread as [Hc1 Ht1]. split; [congruence|].
      intros p. by rewrite Ht1, Ht. }
    rewrite (EnsurePathAllowed_same os os') by done. split; [|done].
    pose proof (WriteFile_ReadFile _ _ _ _ Hw) as Hback.
    destruct (ReadFile os' _) as [[err|back] os2]; cbn in Hback; [done|].
    by injection Hback as ->. }
  intros Hrun. exists content. split; [done|].
  destruct (ReplaceAll_ args);
    destruct (WriteFile os1 _ _) as [[?|] os2] eqn:Ew; try done;
    injection Hrun as _ <-;
    destruct (Hafter _ Ew) as [Hback ->];
    destruct (ReadFile os2 _) as [[err|back] os3]; cbn in *; congruence.
Qed.

End Edit.

End FileToolFacts.

Section FileToolExamples.
Import Go Os Tools Envelope.

(** What [json.Unmarshal] makes of the argument texts of the examples. *)
Definition decode_read (arguments : string) : error + ReadTool.readArgs :=
  match lookup_table
          [ (dq "{'file_path':'f.txt'}", {| ReadTool.FilePath := "f.txt" |});
            (dq "{'file_path':' nested/ok.txt '}",
             {| ReadTool.FilePath := " nested/ok.txt " |});
            (dq "{'file_path':'link-out/secret.txt'}",
             {| ReadTool.FilePath := "link-out/secret.txt" |});
            (dq "{'file_path':'nested'}", {| ReadTool.FilePath := "nested" |});
            (dq "{'file_path':'/r/link-out/../out/secret.txt'}",
             {| ReadTool.FilePath := "/r/link-out/../out/secret.txt" |});
            (dq "{'file_path':'  '}", {| ReadTool.FilePath := "  " |}) ]
          arguments with
  | Some args => inr args
  | None => inl (ErrNew "unexpected end of JSON input")
  end.

Definition decode_write (arguments : string) : error + WriteTool.writeArgs :=
  match lookup_table
          [ (dq "{'file_path':'nested/new.txt','content':'fresh'}",
             {| WriteTool.FilePath := "nested/new.txt";
                WriteTool.Content := "fresh" |});
            (dq "{'file_path':'f.txt','content':'again'}",
             {| WriteTool.FilePath := "f.txt"; WriteTool.Content := "again" |});
            (dq "{'file_path':'nested','content':'x'}",
             {| WriteTool.FilePath := "nested"; WriteTool.Content := "x" |});
            (dq "{'file_path':'/r/link-out/../out/new.txt','content':'x'}",
             {| WriteTool.FilePath := "/r/link-out/../out/new.txt";
                WriteTool.Content := "x" |});
            (dq "{'file_path':'link-out/new.txt','content':'x'}",
             {| WriteTool.FilePath := "link-out/new.txt";
                WriteTool.Content := "x" |}) ]
          arguments with
  | Some args => inr args
  | None => inl (ErrNew "unexpected end of JSON input")
  end.

Definition read_run (arguments : string) : (value * option error) * state :=
  ReadTool.Execute decode_read sample_ctx arguments sample_tree.

Definition write_run (arguments : string) : (value * option error) * state :=
  WriteTool.Execute decode_write sample_ctx arguments sample_tree.

Example read_answers :
  (read_run (dq "{'file_path':' nested/ok.txt '}")).1 = (VString "ok", None)
  /\ accesses (read_run (dq "{'file_path':' nested/ok.txt '}")).2
     = [AccReadFile "/r/nested/ok.txt"]
  /\ (read_run (dq "{'file_path':'link-out/secret.txt'}")).1
     = ReadTool.failed (wrap "path policy violation" errOutsideAllowedRoot)
  /\ accesses (read_run (dq "{'file_path':'link-out/secret.txt'}")).2 = []
  /\ (read_run (dq "{'file_path':'  '}")).1
     = ReadTool.failed (ErrNew "file_path must be a non-empty string")
  /\ (read_run (dq "{'file_path':'nested'}")).1
     = ReadTool.failed (wrap "error reading file"
                          (ErrPath "read" "/r/nested" EISDIR)).
Proof. repeat split; vm_compute; reflexivity. Qed.

Example write_answers :
  (write_run (dq "{'file_path':'nested/new.txt','content':'fresh'}")).1
  = (VMap [("file_path", VString "nested/new.txt");
           ("content", VString "fresh")], None)
  /\ files (write_run (dq "{'file_path':'nested/new.txt','content':'fresh'}")).2
       !! ["r"; "nested"; "new.txt"] = Some (Regular "fresh")
  /\ (write_run (dq "{'file_path':'link-out/new.txt','content':'x'}")).1
     = WriteTool.failed (wrap "path policy violation" errOutsideAllowedRoot)
  /\ accesses (write_run (dq "{'file_path':'link-out/new.txt','content':'x'}")).2
     = []
  /\ (write_run (dq "{'file_path':'nested','content':'x'}")).1
     = WriteTool.failed (wrap "error writing file"
                           (ErrPath "open" "/r/nested" EISDIR)).
Proof. repeat split; vm_compute; reflexivity. Qed.

Lemma ReadTool_reads_allowed_path_once_witness :
  ((read_run (dq "{'file_path':' nested/ok.txt '}")).2 = sample_tree
   /\ (read_run (dq "{'file_path':' nested/ok.txt '}")).1.1 = VString ""
   /\ is_Some (read_run (dq "{'file_path':' nested/ok.txt '}")).1.2)
  \/ exists args,
       let path := ResolvePath sample_ctx (TrimSpace (ReadTool.FilePath args)) in
       decode_read (dq "{'file_path':' nested/ok.txt '}") = inr args
       /\ TrimSpace (ReadTool.FilePath args) <> ""
       /\ EnsurePathAllowed sample_tree sample_ctx path = None
       /\ (read_run (dq "{'file_path':' nested/ok.txt '}")).2
          = record (AccReadFile path) sample_tree
       /\ match (ReadFile sample_tree path).1 with
          | inr content =>
              (read_run (dq "{'file_path':' nested/ok.txt '}")).1
              = (VString content, None)
          | inl err =>
              (read_run (dq "{'file_path':' nested/ok.txt '}")).1
              = (VString "", Some (wrap "error reading file" err))
          end.
Proof.
  exact (ReadTool_reads_allowed_path_once decode_read sample_ctx
           (dq "{'file_path':' nested/ok.txt '}") sample_tree _ _
           (surjective_pairing _)).
Defined.

Lemma WriteTool_writes_allowed_path_once_witness :
  (ReadFile (write_run (dq "{'file_path':'nested/new.txt','content':'fresh'}")).2
            "/r/nested/new.txt").1 = inr "fresh".
Proof.
  pose proof (WriteTool_writes_allowed_path_once decode_write sample_ctx
                (dq "{'file_path':'nested/new.txt','content':'fresh'}")
                sample_tree _ _ (surjective_pairing _)) as [H|H].
  - exfalso. destruct H as (_ & H & _). vm_compute in H. discriminate.
  - destruct H as (args & Hargs & _ & _ & _ & _ & H).
    injection Hargs as <-. exact (proj2 H).
Defined.

Lemma Read_after_EditPatch_witness :
  exists content,
    (read_run (dq "{'file_path':'f.txt'}")).1 = (VString content, None)
    /\ (ReadTool.Execute decode_read sample_ctx (dq "{'file_path':'f.txt'}")
          hello_written).1
       = (VString (EditPatch.Replace content "hello" "hola" 1), None).
Proof.
  exact (Read_after_EditPatch decode decode_read sample_ctx hello_arguments
           (dq "{'file_path':'f.txt'}") (replacing "f.txt" "hello" "hola" false)
           {| ReadTool.FilePath := "f.txt" |} sample_tree hello_written
           (edited (replacing "f.txt" "hello" "hola" false) 1 1)
           eq_refl eq_refl eq_refl eq_refl).
Defined.

(** A device that fails every write after three bytes. *)
Definition failing_device : state :=
  {| files := files sample_tree; cwd := cwd sample_tree; accesses := [];
     write_fault := fun _ => Some (3%nat, ErrNew "no space left on device") |}.

(** A write that fails on the way leaves the file with what was written:
    the old content is gone. *)
Example failed_write_truncates :
  let run := WriteTool.Execute decode_write sample_ctx
               (dq "{'file_path':'f.txt','content':'again'}") failing_device in
  run.1 = WriteTool.failed (wrap "error writing file"
                              (ErrNew "no space left on device"))
  /\ files failing_device !! ["r"; "f.txt"] = Some (Regular "hello world")
  /\ files run.2 !! ["r"; "f.txt"] = Some (Regular "aga").
Proof. repeat split; vm_compute; reflexivity. Qed.

Example failed_edit_truncates :
  let run := EditPatch.Execute decode sample_ctx hello_arguments failing_device in
  run.1 = EditPatch.failed (wrap "error writing file"
                              (ErrNew "no space left on device"))
  /\ files run.2 !! ["r"; "f.txt"] = Some (Regular "hol").
Proof. repeat split; vm_compute; reflexivity. Qed.

Lemma outside_root : ~ within "/r" "/out/secret.txt".
Proof.
  unfold within. intros H.
  apply (bool_decide_eq_true_2 _) in H. by vm_compute in H.
Qed.

(** C1.  The check and the file opened disagree.  [/r/link-out] is a link
    in the root [/r] to the directory [/out] outside it.  Given the path
    [/r/link-out/../out/secret.txt], [EnsurePathAllowed] works on the path
    as [filepath.Abs] cleans it, [/r/out/secret.txt], where nothing is,
    and accepts; the operating system, given the path as it is written,
    follows the link before it goes up and opens [/out/secret.txt],
    outside the root.  So [Read] answers with the content of that file,
    and [Write] makes a file beside it. *)
Lemma EnsurePathAllowed_accepts_escape_through_parent :
  let p := "/r/link-out/../out/secret.txt" in
  Lstat sample_tree "/r/link-out" = inr (Symlink "/out")
  /\ ResolvePath sample_ctx p = p
  /\ Abs sample_tree p = "/r/out/secret.txt"
  /\ EnsurePathAllowed sample_tree sample_ctx p = None
  /\ resolve sample_tree true p = At ["out"; "secret.txt"]
  /\ ~ within "/r" "/out/secret.txt"
  /\ (ReadFile sample_tree p).1 = inr "secret"
  /\ (read_run (dq "{'file_path':'/r/link-out/../out/secret.txt'}")).1
     = (VString "secret", None)
  /\ (write_run (dq "{'file_path':'/r/link-out/../out/new.txt','content':'x'}")).1.2
     = None
  /\ files (write_run
              (dq "{'file_path':'/r/link-out/../out/new.txt','content':'x'}")).2
       !! ["out"; "new.txt"] = Some (Regular "x").
Proof.
  cbv zeta.
  split; [vm_compute; reflexivity|]. split; [vm_compute; reflexivity|].
  split; [vm_compute; reflexivity|]. split; [vm_compute; reflexivity|].
  split; [vm_compute; reflexivity|]. split; [exact outside_root|].
  split; [vm_compute; reflexivity|]. split; [vm_compute; reflexivity|].
  split; vm_compute; reflexivity.
Qed.

Example read_after_edit :
  (ReadTool.Execute decode_read sample_ctx (dq "{'file_path':'f.txt'}")
     hello_written).1 = (VString "hola world", None).
Proof. by vm_compute. Qed.

End FileToolExamples.

(* ===================================================================== *)
(** * Further properties: a session saved and loaded                      *)
(* ===================================================================== *)

Section SessionMore.
Import Go Os Session.

Variable json_Unmarshal : string -> error + list Llm.Message.
Variable json_MarshalIndent : string -> list Llm.Message -> error + string.

(** X13.  A history [Save] stored under an id that is not blank is the
    history [Load] gives for that id afterwards, as long as decoding undoes
    the encoding of that history. *)
Theorem Save_then_Load (store : JSONFileStore) (sessionID : string)
    (history : list Llm.Message) (os os' : state) :
  TrimSpace sessionID <> "" ->
  (forall id payload,
     json_MarshalIndent id history = inr payload ->
     json_Unmarshal payload = inr history) ->
  Save json_MarshalIndent store sessionID history os = (None, os') ->
  (Load json_Unmarshal store sessionID os').1 = inr history.
Proof.
  intros Hid Hcodec. unfold Save, Load, sessionFilePath.
  destruct (normalizeSessionID_cases sessionID)
    as [(Hblank & _)|[(_ & _ & ->)|(_ & Hvalid & ->)]]; [done..|].
  rewrite !decide_False by done.
  rewrite (normalizeSessionID_valid _ Hvalid).
  destruct (json_MarshalIndent (TrimSpace sessionID) history)
    as [err|payload] eqn:Epayload; [done|].
  destruct (MkdirAll os _) as [[err|] os1]; [done|].
  intros Hwrite. pose proof (WriteFile_ReadFile _ _ _ _ Hwrite) as Hread.
  destruct (ReadFile os' _) as [[err|bytes] os2]; cbn [fst] in Hread; [done|].
  injection Hread as ->. by rewrite (Hcodec _ _ Epayload).
Qed.

End SessionMore.

Section SessionMoreExamples.
Import Go Os Session.

(** Stand-ins for the JSON encoder and decoder of the stored sessions: a
    history of one message of the user is stored as its content. *)
Definition content_payload (id : string) (history : list Llm.Message)
  : error + string :=
  match history with
  | [m] => inr (Llm.Content m)
  | _ => inl (ErrNew "json: unsupported value")
  end.

Definition content_messages (data : string) : error + list Llm.Message :=
  inr [userMessage data].

(** A store with no directory yet. *)
Definition no_sessions : state :=
  {| files := ∅; cwd := []; accesses := [];
     write_fault := fun _ => None |}.

Lemma Save_then_Load_witness :
  (Load content_messages sample_store " abc "
     (Save content_payload sample_store " abc " [userMessage "hi"]
        no_sessions).2).1
  = inr [userMessage "hi"].
Proof.
  refine (Save_then_Load content_messages content_payload sample_store " abc "
            [userMessage "hi"] no_sessions _ _ _ _).
  - vm_compute. discriminate.
  - intros id payload [= <-]. reflexivity.
  - vm_compute. reflexivity.
Defined.

Example saved_session_file :
  let saved := (Save content_payload sample_store " abc " [userMessage "hi"]
                  no_sessions).2 in
  files saved !! ["sessions"; "abc.json"] = Some (Regular "hi")
  /\ files saved !! ["sessions"] = Some Directory
  /\ accesses saved
     = [AccMkdirAll "/sessions"; AccWriteFile "/sessions/abc.json" "hi"].
Proof. repeat split; vm_compute; reflexivity. Qed.

End SessionMoreExamples.

(* ===================================================================== *)
(** * Further properties: the policy lists and the tool [Bash]            *)
(* ===================================================================== *)

Section PolicyListFacts.
Import Go Bash.

(** No byte of [l] separates the patterns of a policy list. *)
Definition unseparated (l : list ascii) : Prop :=
  Forall (λ c, policy_separator c = false) l.

Lemma fields_unseparated cur l :
  unseparated cur -> Forall unseparated (fields cur l).
Proof.
  unfold unseparated.
  revert cur. induction l as [|c l IH]; intros cur Hcur; cbn [fields].
  - destruct cur; [by constructor|]. constructor; [|by constructor].
    rewrite rev_is_reverse. by apply Forall_reverse.
  - destruct (policy_separator c) eqn:Ec.
    + destruct cur.
      * apply IH. by constructor.
      * constructor; [|apply IH; by constructor].
        rewrite rev_is_reverse. by apply Forall_reverse.
    + apply IH. by constructor.
Qed.

(** The bytes [strings.TrimSpace] keeps are a piece of the bytes given. *)
Lemma TrimSpace_piece s :
  exists j k, bytes_of (TrimSpace s) = take k (drop j (bytes_of s)).
Proof.
  unfold TrimSpace, trim_left. rewrite bytes_of_str.
  destruct (strip_suffix space_width (List.length (bytes_of s)) (bytes_of s))
    as [j ->].
  destruct (trim_right_prefix (drop j (bytes_of s))) as [k ->]. by exists j, k.
Qed.

(** X14.  Every pattern [splitPolicyList] gives is not empty, has no
    white space around it, and holds no comma, semicolon or line feed:
    a pattern written with one of these, as [a{1,3}], is cut in two. *)
Theorem splitPolicyList_patterns (raw : string) :
  Forall (λ v, v <> "" /\ TrimSpace v = v /\ unseparated (bytes_of v))
         (splitPolicyList raw).
Proof.
  unfold splitPolicyList. apply Forall_forall. intros v Hv.
  apply list_elem_of_filter in Hv as [Hne Hv].
  apply list_elem_of_fmap in Hv as (f & -> & Hf).
  apply list_elem_of_fmap in Hf as (l & -> & Hl).
  split; [done|]. split; [apply TrimSpace_idempotent|].
  destruct (TrimSpace_piece (str l)) as (j & k & ->). rewrite bytes_of_str.
  apply Forall_take, Forall_drop.
  assert (Forall unseparated (fields [] (bytes_of raw))) as Hall
    by (apply fields_unseparated; constructor).
  rewrite Forall_forall in Hall. by apply Hall.
Qed.

Example pattern_with_comma_is_cut :
  splitPolicyList "a{1,3} ; ^ls\b" = ["a{1"; "3}"; "^ls\b"].
Proof. by vm_compute. Qed.

End PolicyListFacts.

Section BashToolFacts.
Import Go Tools ToolHelpers Envelope Bash BashTool.

Context {World Regexp : Type}.
Variable json_Unmarshal : string -> error + bashArgs.
Variable regexp_Compile : string -> error + Regexp.
Variable MatchString : Regexp -> string -> bool.
Variable Getenv : string -> string.
Variable CombinedOutput : spawn -> World -> finished * World.
Variable Duration_String : Z -> string.

(** A command the policy lets pass: no pattern of the fixed block list
    matches it, both lists compile, no pattern of the deny list matches
    it, and the allow list is empty or has a pattern that matches it. *)
Definition permitted (command : string) : Prop :=
  let deny := policy_list Getenv bashDenylistEnv in
  let allow := policy_list Getenv bashAllowlistEnv in
  listed regexp_Compile MatchString blockedCommandSources command = false
  /\ malformed regexp_Compile deny = false
  /\ listed regexp_Compile MatchString deny command = false
  /\ malformed regexp_Compile allow = false
  /\ (allow = [] \/ listed regexp_Compile MatchString allow command = true).

Lemma compile_all_wellformed parts patterns :
  compile_all regexp_Compile parts = inr patterns ->
  malformed regexp_Compile parts = false.
Proof.
  intros H. destruct (malformed regexp_Compile parts) eqn:Hm; [|done].
  apply compile_all_malformed in Hm as [? ?]. congruence.
Qed.

Lemma validateCommandPolicy_permitted command :
  validateCommandPolicy regexp_Compile MatchString Getenv command = None ->
  permitted command.
Proof.
  unfold validateCommandPolicy, permitted. cbn zeta.
  rewrite !compilePolicyPatterns_list.
  change (existsb (matches_source regexp_Compile MatchString command)
            blockedCommandSources)
    with (listed regexp_Compile MatchString blockedCommandSources command).
  destruct (listed _ _ blockedCommandSources command); [done|].
  destruct (compile_all regexp_Compile (policy_list Getenv bashDenylistEnv))
    as [e|dps] eqn:Hdeny; [done|].
  destruct (compile_all_listed regexp_Compile MatchString _ dps command Hdeny)
    as [-> _].
  destruct (listed _ _ (policy_list Getenv bashDenylistEnv) command); [done|].
  destruct (compile_all regexp_Compile (policy_list Getenv bashAllowlistEnv))
    as [e|aps] eqn:Hallow; [done|].
  destruct (compile_all_listed regexp_Compile MatchString _ aps command Hallow)
    as [Hal Hnil].
  intros Hpass. split; [done|].
  split; [by eapply compile_all_wellformed|]. split; [done|].
  split; [by eapply compile_all_wellformed|].
  destruct aps as [|a aps]; [left; by apply Hnil|]. right.
  rewrite <- Hal. by destruct (existsb _ (a :: aps)).
Qed.

(** X15.  The tool [Bash] either fails with no process started, or
    starts one process: the trimmed command, which is not empty and which
    the command policy lets pass, under a time-out that is the time-out
    of the context when that is positive and 30 seconds otherwise.  The
    answer is then a success exactly when the deadline did not pass and
    the run gave no error, and it holds the command run and its output. *)
Theorem BashTool_runs_permitted_command_once (ctx : ToolContext)
    (arguments : string) (w w' : World) (r : value * option error)
    (spawned : list spawn) :
  Execute json_Unmarshal regexp_Compile MatchString Getenv CombinedOutput
          Duration_String ctx arguments w = (r, w', spawned) ->
  (spawned = [] /\ w' = w /\ r.1 = VString "" /\ is_Some r.2)
  \/ exists args cmd,
       json_Unmarshal arguments = inr args
       /\ spawned = [cmd]
       /\ spawn_command cmd = TrimSpace (Command args)
       /\ spawn_command cmd <> ""
       /\ permitted (spawn_command cmd)
       /\ spawn_timeout cmd
          = (if 0 <? Timeout ctx then Timeout ctx else 30 * second)
       /\ 0 < spawn_timeout cmd
       /\ w' = (CombinedOutput cmd w).2
       /\ (r.2 = None <->
           context_error (CombinedOutput cmd w).1 <> Some DeadlineExceeded
           /\ run_error (CombinedOutput cmd w).1 = None)
       /\ (r.2 = None ->
           r.1 = VMap [("command", VString (spawn_command cmd));
                       ("output", VString (output (CombinedOutput cmd w).1))]).
Proof.
  unfold Execute.
  destruct (json_Unmarshal arguments) as [err|args] eqn:Eargs.
  { intros [= <- <- <-]. left. by eauto. }
  cbn zeta. case_decide as Hblank.
  { intros [= <- <- <-]. left. by eauto. }
  destruct (validateCommandPolicy _ _ _ _) as [err|] eqn:Epolicy.
  { intros [= <- <- <-]. left. by eauto. }
  apply validateCommandPolicy_permitted in Epolicy.
  set (cmd := Build_spawn _ _ _ _).
  intros Hrun. right. exists args, cmd.
  split; [done|].
  assert (0 < spawn_timeout cmd) as Hpositive.
  { cbn. unfold EffectiveTimeout, second.
    destruct (0 <? Timeout ctx) eqn:E; lia. }
  destruct (CombinedOutput cmd w) as [done w1] eqn:Erun. cbn [fst snd].
  case_decide as Hdeadline.
  { injection Hrun as <- <- <-.
    split; [done|]. split; [done|]. split; [done|]. split; [done|].
    split; [done|]. split; [done|]. split; [done|].
    split; [|done]. split; [done|]. by intros [? _]. }
  destruct (run_error done) as [err|] eqn:Eerror; injection Hrun as <- <- <-.
  - split; [done|]. split; [done|]. split; [done|]. split; [done|].
    split; [done|]. split; [done|]. split; [done|].
    split; [|done]. split; [done|]. by intros [_ ?].
  - split; [done|]. split; [done|]. split; [done|]. split; [done|].
    split; [done|]. split; [done|]. split; [done|]. done.
Qed.

End BashToolFacts.

Section BashToolExamples.
Import Go Tools ToolHelpers Envelope Bash BashTool.

(** What [json.Unmarshal] makes of the argument texts of the examples. *)
Definition decode_bash (arguments : string) : error + bashArgs :=
  match lookup_table
          [ (dq "{'command':' echo ok '}", {| Command := " echo ok " |});
            (dq "{'command':'echo hello'}", {| Command := "echo hello" |});
            (dq "{'command':'rm -rf /'}", {| Command := "rm -rf /" |});
            (dq "{'command':'sleep 60'}", {| Command := "sleep 60" |}) ]
          arguments with
  | Some args => inr args
  | None => inl (ErrNew "unexpected end of JSON input")
  end.

(** A stand-in for the shell: [echo ok] prints [ok], [sleep 60] passes the
    deadline; the world counts the processes started. *)
Definition sample_shell (cmd : spawn) (started : nat) : finished * nat :=
  (if String.eqb (spawn_command cmd) "echo ok"
   then {| output := "ok" +:+ String "010" EmptyString; run_error := None;
           context_error := None |}
   else {| output := ""; run_error := Some (ErrNew "signal: killed");
           context_error := Some DeadlineExceeded |},
   S started).

Definition seconds (d : Z) : string := pretty (d / second) +:+ "s".

Definition bash_run (env : string -> string) (arguments : string)
  : (value * option error) * nat * list spawn :=
  Execute decode_bash Regex.Compile Regex.MatchString env sample_shell seconds
          sample_ctx arguments 0%nat.

Example bash_answers :
  bash_run no_env (dq "{'command':' echo ok '}")
  = ((VMap [("command", VString "echo ok");
            ("output", VString ("ok" +:+ String "010" EmptyString))], None),
     1%nat,
     [ {| spawn_command := "echo ok"; spawn_dir := Some "/r";
          spawn_timeout := 30 * second; spawn_parent := None |} ])
  /\ bash_run no_env (dq "{'command':'rm -rf /'}")
     = (failed errBlocked, 0%nat, [])
  /\ bash_run sample_env (dq "{'command':'echo hello'}")
     = (failed errDenylist, 0%nat, [])
  /\ bash_run sample_env (dq "{'command':'sleep 60'}")
     = (failed errAllowlist, 0%nat, [])
  /\ (bash_run no_env (dq "{'command':'sleep 60'}")).1.1
     = failed (ErrNew "bash command timed out after 30s").
Proof. repeat split; vm_compute; reflexivity. Qed.

Lemma BashTool_runs_permitted_command_once_witness :
  let run := bash_run sample_env (dq "{'command':' echo ok '}") in
  (run.2 = [] /\ run.1.2 = 0%nat /\ run.1.1.1 = VString ""
   /\ is_Some run.1.1.2)
  \/ exists args cmd,
       decode_bash (dq "{'command':' echo ok '}") = inr args
       /\ run.2 = [cmd]
       /\ spawn_command cmd = TrimSpace (Command args)
       /\ spawn_command cmd <> ""
       /\ permitted Regex.Compile Regex.MatchString sample_env (spawn_command cmd)
       /\ spawn_timeout cmd
          = (if 0 <? Timeout sample_ctx then Timeout sample_ctx else 30 * second)
       /\ 0 < spawn_timeout cmd
       /\ run.1.2 = (sample_shell cmd 0%nat).2
       /\ (run.1.1.2 = None <->
           context_error (sample_shell cmd 0%nat).1 <> Some DeadlineExceeded
           /\ run_error (sample_shell cmd 0%nat).1 = None)
       /\ (run.1.1.2 = None ->
           run.1.1.1
           = VMap [("command", VString (spawn_command cmd));
                   ("output", VString (output (sample_shell cmd 0%nat).1))]).
Proof.
  exact (BashTool_runs_permitted_command_once decode_bash Regex.Compile
           Regex.MatchString sample_env sample_shell seconds sample_ctx
           (dq "{'command':' echo ok '}") 0%nat _ _ _
           (eq_trans (surjective_pairing _)
              (f_equal (λ p, (p, _)) (surjective_pairing _)))).
Defined.

End BashToolExamples.

(* ===================================================================== *)
(** * Further properties: the command line                                *)
(* ===================================================================== *)

Section InteractiveFacts.
Import Go Cli.

Context {World : Type}.
Variable runTurn : string -> World -> (string * option error) * World.

(** The inputs of a session: the lines read, trimmed, the blank ones
    left out. *)
Definition inputs (lines : list string) : list string :=
  filter (λ input, input <> "") (TrimSpace <$> lines).

(** The inputs before the first [:exit] or [:quit]. *)
Fixpoint before_exit (l : list string) : list string :=
  match l with
  | [] => []
  | input :: l' =>
      if String.eqb input ":exit" || String.eqb input ":quit" then []
      else input :: before_exit l'
  end.

(** What is printed for the turns, one after the other, each turn run in
    the world the turn before left. *)
Fixpoint replies (turns : list string) (w : World) : list written :=
  match turns with
  | [] => []
  | input :: turns' =>
      let '((responseText, runErr), w1) := runTurn input w in
      match runErr with
      | Some err => Stderr ("error: " +:+ Error err +:+ newline)
      | None => Stdout ("assistant> " +:+ responseText +:+ newline)
      end :: replies turns' w1
  end.

Definition prompt : written := Stdout "you> ".

Definition is_prompt (x : written) : bool :=
  match x with
  | Stdout text => String.eqb text "you> "
  | Stderr _ => false
  end.

Lemma interact_turns lines w :
  let '(w', out, turns) := interact runTurn lines w in
  turns = before_exit (inputs lines)
  /\ w' = foldl (λ w input, (runTurn input w).2) w turns
  /\ filter (λ x, is_prompt x = false) out = replies turns w
  /\ is_prompt <$> head out = Some true.
Proof.
  revert w. unfold inputs.
  induction lines as [|line rest IH]; intros w; cbn [interact]; [done|].
  rewrite fmap_cons.
  destruct (decide (TrimSpace line = "")) as [Hblank|Hinput].
  { specialize (IH w). destruct (interact runTurn rest w) as [[w' out] turns].
    rewrite (filter_cons_False _ (TrimSpace line)) by (intros H; by apply H).
    destruct IH as (-> & -> & Hout & _). by rewrite filter_cons_False. }
  rewrite (filter_cons_True _ (TrimSpace line)) by done.
  cbn [before_exit]. unfold dispatchLocalCommand.
  destruct (String.eqb (TrimSpace line) ":exit" || String.eqb (TrimSpace line) ":quit");
    [done|].
  cbn [replies foldl].
  destruct (runTurn (TrimSpace line) w) as [[responseText runErr] w1] eqn:Eturn.
  specialize (IH w1). destruct (interact runTurn rest w1) as [[w' out] turns].
  destruct IH as (-> & -> & Hout & _). cbn [foldl replies]. rewrite Eturn.
  split; [done|]. split; [done|]. split; [|done].
  rewrite filter_cons_False by done.
  rewrite filter_cons_True; [by rewrite Hout|].
  by destruct runErr.
Qed.

(** X16.  [RunInteractive] hands to the turn runner the lines read,
    trimmed, the blank ones left out, up to the first [:exit] or [:quit],
    each once and in order, a turn that fails not ending the loop; it
    prints one answer or one error for each, after the line of the
    session when the session id is not blank; and it returns the error
    of the scanner. *)
Theorem RunInteractive_turns (sessionID : string) (lines : list string)
    (scanErr : option error) (w : World) :
  let '(err, w', out, turns) := RunInteractive runTurn sessionID lines scanErr w in
  err = scanErr
  /\ turns = before_exit (inputs lines)
  /\ w' = foldl (λ w input, (runTurn input w).2) w turns
  /\ filter (λ x, is_prompt x = false) out
     = (if decide (TrimSpace sessionID = "") then []
        else [Stderr ("session: " +:+ sessionID +:+ newline)])
       ++ replies turns w.
Proof.
  unfold RunInteractive. pose proof (interact_turns lines w) as H.
  destruct (interact runTurn lines w) as [[w' out] turns].
  destruct H as (-> & -> & Hout & _).
  split; [done|]. split; [done|]. split; [done|].
  rewrite filter_app, Hout. f_equal.
  destruct (decide (TrimSpace sessionID = "")) as [Hblank|Hid].
  - by rewrite decide_False by (by intros []).
  - by rewrite decide_True by done.
Qed.

End InteractiveFacts.

Section InteractiveExamples.
Import Go Cli.

(** A runner that fails on the input [boom] and echoes every other
    input; the world counts the turns. *)
Definition echo_turn (input : string) (n : nat) : (string * option error) * nat :=
  if String.eqb input "boom" then (("", Some (ErrNew "turn failed")), S n)
  else ((input, None), S n).

Example interactive_session :
  RunInteractive echo_turn "s1" ["  hi  "; ""; "boom"; "again"; " :quit "; "late"]
                 None 0%nat
  = (None, 3%nat,
     [Stderr ("session: s1" +:+ newline); Stdout "you> ";
      Stdout ("assistant> hi" +:+ newline); Stdout "you> "; Stdout "you> ";
      Stderr ("error: turn failed" +:+ newline); Stdout "you> ";
      Stdout ("assistant> again" +:+ newline); Stdout "you> "],
     ["hi"; "boom"; "again"]).
Proof. by vm_compute. Qed.

End InteractiveExamples.

Section ConfigFacts.
Import Go Appcore Cli.

(** [strings.ToLower] *)
Variable ToLower : string -> string.

Lemma one_of_level (l : string) :
  one_of l [""; "error"; "warn"; "warning"; "info"; "debug"]
  = String.eqb l "error" || (String.eqb l "warn" || String.eqb l "warning")
    || (String.eqb l "info" || String.eqb l "") || String.eqb l "debug".
Proof.
  unfold one_of. cbn [existsb].
  destruct (String.eqb l ""), (String.eqb l "error"), (String.eqb l "warn"),
    (String.eqb l "warning"), (String.eqb l "info"), (String.eqb l "debug");
    reflexivity.
Qed.

Lemma parseLogLevel_accepts (level : string) :
  (parseLogLevel ToLower level).2 = None
  <-> one_of (ToLower (TrimSpace level))
             [""; "error"; "warn"; "warning"; "info"; "debug"] = true.
Proof.
  rewrite one_of_level. unfold parseLogLevel. cbn zeta.
  destruct (String.eqb _ "error"); [done|].
  destruct (String.eqb _ "warn" || String.eqb _ "warning"); [done|].
  destruct (String.eqb _ "info" || String.eqb _ ""); [done|].
  destruct (String.eqb _ "debug"); done.
Qed.

(** X17.  [validateConfig] accepts a configuration exactly when
    [parseLogLevel] accepts its log level, its sink is empty or one of
    stderr, stdout and json-file in any case and with blanks around it
    allowed, a file is named when the sink is json-file, both time-outs
    are positive and both budgets are not negative. *)
Theorem validateConfig_accepts_iff (config : Config) :
  let sink := ToLower (TrimSpace (LogSink config)) in
  validateConfig ToLower config = None
  <-> (parseLogLevel ToLower (LogLevel config)).2 = None
      /\ sink ∈ [""; "stderr"; "stdout"; "json-file"]
      /\ (sink = "json-file" -> TrimSpace (LogFile config) <> "")
      /\ 0 < TurnTimeout config /\ 0 < ToolTimeout config
      /\ 0 <= MaxTurns config /\ 0 <= MaxToolCalls config.
Proof.
  cbn zeta. rewrite parseLogLevel_accepts. unfold validateConfig. cbn zeta.
  destruct (one_of (ToLower (TrimSpace (LogLevel config))) _);
    [|split; [done | by intros [? _]]].
  assert (one_of (ToLower (TrimSpace (LogSink config)))
                 [""; "stderr"; "stdout"; "json-file"] = true
          <-> ToLower (TrimSpace (LogSink config))
              ∈ [""; "stderr"; "stdout"; "json-file"]) as Hsink.
  { unfold one_of. rewrite existsb_exists. split.
    - intros (x & Hx%list_elem_of_In & ->%String.eqb_eq). done.
    - intros Hin. eexists. split; [by apply list_elem_of_In|].
      apply String.eqb_refl. }
  destruct (one_of (ToLower (TrimSpace (LogSink config))) _) eqn:Esink; cbn [negb].
  2:{ split; [done|]. intros (_ & Hin%Hsink & _). done. }
  destruct (String.eqb_spec (ToLower (TrimSpace (LogSink config))) "json-file")
    as [Hjson|Hother]; cbn [andb].
  - case_bool_decide as Hfile.
    { split; [done|]. intros (_ & _ & Hnamed & _). by destruct Hnamed. }
    destruct (Z.leb_spec (TurnTimeout config) 0);
      [split; [done|]; intros; lia|].
    destruct (Z.leb_spec (ToolTimeout config) 0);
      [split; [done|]; intros; lia|].
    destruct (Z.ltb_spec (MaxTurns config) 0);
      [split; [done|]; intros; lia|].
    destruct (Z.ltb_spec (MaxToolCalls config) 0);
      [split; [done|]; intros; lia|].
    split; [|done]. intros _. split; [done|]. split; [by apply Hsink|].
    split; [done|]. lia.
  - destruct (Z.leb_spec (TurnTimeout config) 0);
      [split; [done|]; intros; lia|].
    destruct (Z.leb_spec (ToolTimeout config) 0);
      [split; [done|]; intros; lia|].
    destruct (Z.ltb_spec (MaxTurns config) 0);
      [split; [done|]; intros; lia|].
    destruct (Z.ltb_spec (MaxToolCalls config) 0);
      [split; [done|]; intros; lia|].
    split; [|done]. intros _. split; [done|]. split; [by apply Hsink|].
    split; [done|]. lia.
Qed.

End ConfigFacts.

Section ConfigExamples.
Import Go Appcore Cli.

Example config_examples :
  let config level sink file :=
    {| Prompt := ""; SessionID := ""; Interactive := false; LogEnabled := true;
       LogLevel := level; LogSink := sink; LogFile := file;
       TurnTimeout := 1; ToolTimeout := 1; MaxTurns := 0; MaxToolCalls := 0 |} in
  validateConfig Go.ToLower (config " Warning " "STDOUT" "") = None
  /\ parseLogLevel Go.ToLower " Warning " = (LogLevelWarn, None)
  /\ is_Some (validateConfig Go.ToLower (config "trace" "" ""))
  /\ is_Some (parseLogLevel Go.ToLower "trace").2
  /\ is_Some (validateConfig Go.ToLower (config "" "json-file" " "))
  /\ validateConfig Go.ToLower (config "" "json-file" "log.json") = None.
Proof. repeat split; vm_compute; eauto. Qed.

End ConfigExamples.

(* ===================================================================== *)
(** * Further properties: the registry and the files [EditPatch] leaves   *)
(* ===================================================================== *)

Section RegistryLookup.
Import Go Tools Envelope Registry.

Context {World : Type}.

Lemma NewRegistry_snoc (toolList : list (Tool World)) (tool : Tool World) :
  NewRegistry (toolList ++ [tool]) = <[Name tool := tool]> (NewRegistry toolList).
Proof. unfold NewRegistry. by rewrite foldl_app. Qed.

(** X18.  A registry built from a list of tools holds, under a name, the
    last tool of the list with that name, and nothing under a name no
    tool of the list has. *)
Theorem NewRegistry_lookup (toolList : list (Tool World)) (name : string) :
  NewRegistry toolList !! name
  = last (filter (λ tool, Name tool = name) toolList).
Proof.
  induction toolList as [|tool toolList IH] using rev_ind; [done|].
  rewrite NewRegistry_snoc, filter_app, filter_cons, filter_nil.
  destruct (decide (Name tool = name)) as [<-|Hother].
  - by rewrite lookup_insert_eq, last_snoc.
  - by rewrite lookup_insert_ne, app_nil_r.
Qed.

End RegistryLookup.

Section EditPatchFiles.
Import Go Os Tools Envelope EditPatch.

Variable json_Unmarshal : string -> error + editPatchArgs.

Lemma same_files_refl os : same_files os os.
Proof. done. Qed.

Lemma same_files_trans os1 os2 os3 :
  same_files os1 os2 -> same_files os2 os3 -> same_files os1 os3.
Proof.
  intros [Hc1 Ht1] [Hc2 Ht2]. split; [congruence|].
  intros p. by rewrite Ht1, Ht2.
Qed.

(** X19.  [EditPatch] creates and removes nothing: after the call the
    directories, the links and the names of the files are the same, and
    so is the working directory; the content of at most one file, one
    that was there, has changed.  When the call fails, the files are as
    before unless the failure is that of the write, which can leave that
    one file cut short.  The file calls it makes are none, or one read, or
    one read and then one write, of one path, made only after
    [EnsurePathAllowed] returned no error for that path. *)
Theorem EditPatch_keeps_tree (ctx : ToolContext) (arguments : string)
    (os os' : state) (r : value * option error) :
  Execute json_Unmarshal ctx arguments os = (r, os') ->
  same_files os os'
  /\ (files os' = files os
      \/ exists q old new,
           files os !! q = Some (Regular old)
           /\ files os' = <[q := Regular new]> (files os))
  /\ (is_Some r.2 ->
      files os' = files os
      \/ exists cause, r.2 = Some (wrap "error writing file" cause))
  /\ (os' = os
      \/ exists args,
           let path := ResolvePath ctx (TrimSpace (FilePath args)) in
           json_Unmarshal arguments = inr args
           /\ EnsurePathAllowed os ctx path = None
           /\ (accesses os' = accesses os ++ [AccReadFile path]
               \/ exists newContent,
                    accesses os'
                    = accesses os ++ [AccReadFile path;
                                      AccWriteFile path newContent])).
Proof.
  unfold Execute.
  destruct (json_Unmarshal arguments) as [err|args] eqn:Eargs.
  { intros [= <- <-]. split; [done|]. split; [by left|]. split; [by left|].
    by left. }
  cbn zeta. case_decide as Hblank.
  { intros [= <- <-]. split; [done|]. split; [by left|]. split; [by left|].
    by left. }
  case_decide as Hold.
  { intros [= <- <-]. split; [done|]. split; [by left|]. split; [by left|].
    by left. }
  destruct (EnsurePathAllowed os ctx _) as [err|] eqn:Eallowed.
  { intros [= <- <-]. split; [done|]. split; [by left|]. split; [by left|].
    by left. }
  set (path := ResolvePath ctx (TrimSpace (FilePath args))) in *.
  pose proof (ReadFile_files os path) as Hread.
  pose proof (ReadFile_added os path) as Hadded. unfold added in Hadded.
  pose proof (ReadFile_again os path) as Hagain.
  assert (files (ReadFile os path).2 = files os) as Hfiles.
  { unfold ReadFile. destruct (resolve os true path) as [q| | |]; [|done..].
    by destruct (node_at (files os) q) as [[| |]|]. }
  destruct (ReadFile os path) as [[err|content] os1] eqn:Er;
    cbn [fst snd] in *.
  { intros [= <- <-]. split; [done|]. split; [by left|]. split; [by left|].
    right. exists args. cbn zeta. split; [done|]. split; [done|]. by left. }
  destruct (Count content (OldString args) =? 0).
  { intros [= <- <-]. split; [done|]. split; [by left|]. split; [by left|].
    right. exists args. cbn zeta. split; [done|]. split; [done|]. by left. }
  assert (forall newContent result,
    (match WriteFile os1 path newContent with
     | (Some err, os) => (failed (wrap "error writing file" err), os)
     | (None, os) => (result, os)
     end) = (r, os') ->
    result.2 = None ->
    same_files os os'
    /\ (exists q old new,
          files os !! q = Some (Regular old)
          /\ files os' = <[q := Regular new]> (files os))
    /\ (is_Some r.2 ->
        exists cause, r.2 = Some (wrap "error writing file" cause))
    /\ accesses os' = accesses os ++ [AccReadFile path;
                                        AccWriteFile path newContent])
    as Hwrite.
  { intros newContent result Hrun Hresult.
    pose proof (WriteFile_calls os1 path newContent) as (Hw & _).
    pose proof (WriteFile_over os1 path content newContent Hagain)
      as (Hsame & q & old & new & Hq & Hnew).
    rewrite Hfiles in Hq, Hnew.
    assert (os' = (WriteFile os1 path newContent).2) as ->.
    { by destruct (WriteFile os1 path newContent) as [[?|] ?];
        injection Hrun as _ <-. }
    split; [by eapply same_files_trans|].
    split; [by exists q, old, new|].
    split; [|rewrite Hw, Hadded; by rewrite <- app_assoc].
    destruct (WriteFile os1 path newContent) as [[cause|] os2];
      injection Hrun as <-.
    - intros _. by exists cause.
    - rewrite Hresult. by intros [? ?]. }
  intros Hrun.
  destruct (ReplaceAll_ args);
    apply Hwrite in Hrun as (Hsame & Hone & Hfailed & Hcalls); try done;
    (split; [done|]); (split; [by right|]);
    (split; [intros Hsome; right; by apply Hfailed|]);
    right; exists args; cbn zeta;
    (split; [done|]); (split; [done|]); right; by eexists.
Qed.

End EditPatchFiles.

Section EditPatchFilesExamples.
Import Go Os Tools Envelope EditPatch.

Example edit_keeps_other_files :
  let os' := (run hello_arguments).2 in
  files os' !! ["r"; "f.txt"] = Some (Regular "hola world")
  /\ files os' !! ["r"; "nested"; "ok.txt"] = Some (Regular "ok")
  /\ files os' !! ["out"; "secret.txt"] = Some (Regular "secret")
  /\ cwd os' = ["r"].
Proof. repeat split; vm_compute; reflexivity. Qed.

Lemma EditPatch_keeps_tree_witness :
  same_files sample_tree (run hello_arguments).2.
Proof.
  exact (proj1 (EditPatch_keeps_tree decode sample_ctx hello_arguments
                  sample_tree _ _ (surjective_pairing _))).
Defined.

End EditPatchFilesExamples.

(* ===================================================================== *)
(** * Further properties: the tool [FetchWebPage]                         *)
(* ===================================================================== *)

Section FetchFacts.
Import Go Tools ToolHelpers Envelope FetchWebPageTool.

Context {World : Type}.
Variable json_Unmarshal : string -> error + fetchWebPageArgs.
Variable env : Network.Env.
Variable http_NewRequest : string -> string -> option error.
Variable Do : request -> World -> (error + response) * option error * World.
Variable ToLower : string -> string.
Variable extractTextFromHTML : string -> string.
Variable decimal : Z -> string.


End FetchFacts.

Section FetchExamples.
Import Go Tools ToolHelpers Envelope FetchWebPageTool.

(** What [json.Unmarshal] makes of the argument texts of the examples. *)
Definition decode_fetch (arguments : string) : error + fetchWebPageArgs :=
  match lookup_table
          [ (dq "{'url':' HTTPS://example.com/ '}",
             {| URL := " HTTPS://example.com/ " |});
            (dq "{'url':'http://169.254.169.254/'}",
             {| URL := "http://169.254.169.254/" |});
            (dq "{'url':'https://intranet.example/'}",
             {| URL := "https://intranet.example/" |}) ]
          arguments with
  | Some args => inr args
  | None => inl (ErrNew "unexpected end of JSON input")
  end.

(** A stand-in for the network: every request is answered with a plain
    text; the world counts the requests. *)
Definition sample_web (req : request) (n : nat)
  : (error + response) * option error * nat :=
  (inr {| StatusCode := 200; ContentType := "Text/Plain";
          ReadAll_LimitReader := fun _ => inr "  hello  " |}, None, S n).

Definition fetch_run (arguments : string)
  : (value * option error) * nat * list request :=
  Execute decode_fetch (sample_net "") (fun _ _ => None) sample_web Go.ToLower
          (fun body => body) (fun n => pretty n) sample_ctx arguments 0%nat.

Example fetch_answers :
  fetch_run (dq "{'url':' HTTPS://example.com/ '}")
  = ((VMap [("url", VString "HTTPS://example.com/");
            ("content_type", VString "text/plain");
            ("content", VString "hello")], None),
     1%nat,
     [ {| req_method := "GET"; req_url := "HTTPS://example.com/";
          req_user_agent := "ShimiBot/1.0"; req_timeout := 20 * second;
          req_parent := None |} ])
  /\ fetch_run (dq "{'url':'http://169.254.169.254/'}")
     = (failed (wrap "outbound URL blocked" Network.errBlockedIP), 0%nat, [])
  /\ fetch_run (dq "{'url':'https://intranet.example/'}")
     = (failed (wrap "outbound URL blocked" Network.errBlockedHost), 0%nat, []).
Proof. repeat split; vm_compute; reflexivity. Qed.


End FetchExamples.
